(** * Speed Reader: the cognitive RSVP engine and its playback state machine

    A shallow embedding of [cognitive-engine.js] (class [CognitiveEngine]) and
    [reader.js] (class [SpeedReader]), followed by the properties of the
    specification that concern them.

    Conventions of the embedding.
    - A JavaScript string is the list of its UTF-16 code units ([jsstring]);
      [length], indexing and [substring] therefore count code units as the
      source does.
    - JavaScript numbers that hold indices, counters and timestamps are [Z];
      numbers that hold fatigue levels, ratios and timing constants are exact
      rationals [Q], where the source has doubles: a product or a quotient
      is exact here and rounded there.  The properties below only use order,
      sums and products of these values.
    - The multiplier of an analysis and the words-per-minute setting are
      computed from what the caller supplies and can be [NaN] or infinite:
      they are values of [number], a rational or one of these three.
    - The reading mode is a key under which the [modes] object has a value:
      one of its four own keys, or a name it inherits from
      [Object.prototype], whose value has none of the fields of a mode.
    - [Date.now()] is an argument [now] of every operation that reads the
      clock; one operation reads one instant.
    - The notification callbacks of the configuration are observed through a
      log, and [setTimeout]/[clearTimeout] through the list of pending steps
      of the host. *)

From Stdlib Require Import ZArith QArith Qround List Ascii String Bool Lia Lqa.
From stdpp Require Import gmap strings.

Import ListNotations.
Local Open Scope Z_scope.

(** ** JavaScript strings and the regular expressions of the source *)

Module JS.

Definition jschar := N.
Definition jsstring := list N.

(** A literal of the source, given by its ASCII text. *)
Definition str (s : string) : jsstring :=
  map N_of_ascii (list_ascii_of_string s).

Definition chr (a : ascii) : N := N_of_ascii a.

Definition inRange (lo hi c : N) : bool := ((lo <=? c) && (c <=? hi))%N.

Definition isDigit (c : N) : bool := inRange 48 57 c.
Definition isUpper (c : N) : bool := inRange 65 90 c.
Definition isLower (c : N) : bool := inRange 97 122 c.

(** [\w] is [A-Za-z0-9_]. *)
Definition isWord (c : N) : bool :=
  isUpper c || isLower c || isDigit c || (c =? 95)%N.

(** [\s]: white space and line terminators of ECMAScript. *)
Definition isSpace (c : N) : bool :=
  inRange 9 13 c || (c =? 32)%N || (c =? 160)%N || (c =? 5760)%N
  || inRange 8192 8202 c || (c =? 8232)%N || (c =? 8233)%N
  || (c =? 8239)%N || (c =? 8287)%N || (c =? 12288)%N || (c =? 65279)%N.

(** [.] matches every code unit but the line terminators. *)
Definition isLineTerminator (c : N) : bool :=
  (c =? 10)%N || (c =? 13)%N || (c =? 8232)%N || (c =? 8233)%N.

Definition oneOf (cs : list N) (c : N) : bool := existsb (N.eqb c) cs.

(** Regular expressions in continuation style: a pattern takes the matcher
    of what follows it and the remaining input. *)
Definition matcher := jsstring -> bool.

Definition eos : matcher := fun s => match s with [] => true | _ => false end.
Definition anything : matcher := fun _ => true.

Definition cls (p : N -> bool) (k : matcher) : matcher :=
  fun s => match s with c :: r => p c && k r | [] => false end.

(** [p+] *)
Fixpoint plusCls (p : N -> bool) (k : matcher) (s : jsstring) : bool :=
  match s with
  | c :: r => p c && (k r || plusCls p k r)
  | [] => false
  end.

(** [.*] *)
Fixpoint dotStar (k : matcher) (s : jsstring) : bool :=
  k s || match s with
         | c :: r => negb (isLineTerminator c) && dotStar k r
         | [] => false
         end.

(** [RegExp.prototype.test] of a pattern with no anchor at its start. *)
Fixpoint search (k : matcher) (s : jsstring) : bool :=
  k s || match s with
         | _ :: r => search k r
         | [] => false
         end.

(** [s.replace(/[^C]/g, '')] keeps the code units of class [C]. *)
Definition keep (p : N -> bool) (s : jsstring) : jsstring := List.filter p s.

(** [toLowerCase] on a string of ASCII letters, digits and marks. *)
Definition lowerAscii (c : N) : N := if isUpper c then (c + 32)%N else c.

(** [String.prototype.toLowerCase].  Code units outside ASCII are kept,
    but for the two whose lower case contains an ASCII letter: the Kelvin
    sign and the dotted capital I. *)
Definition toLowerCase (s : jsstring) : jsstring :=
  flat_map (fun c =>
    if (c =? 8490)%N then [107%N]
    else if (c =? 304)%N then [105%N; 775%N]
    else [lowerAscii c]) s.

(** [s.substring(a, b)] for [0 <= a <= b]. *)
Definition substring (a b : nat) (s : jsstring) : jsstring :=
  firstn (b - a) (skipn a s).

(** [s.substring(a)] *)
Definition substringFrom (a : nat) (s : jsstring) : jsstring := skipn a s.

(** [s[i] || ''] *)
Definition charAtOrEmpty (i : nat) (s : jsstring) : jsstring :=
  match nth_error s i with Some c => [c] | None => [] end.

(** [s.split(/\s+/)]: the pieces between maximal runs of white space,
    the empty pieces at both ends included. *)
Fixpoint splitSpacesAux (inRun : bool) (piece : jsstring) (s : jsstring)
  : list jsstring :=
  match s with
  | [] => [rev piece]
  | c :: r =>
      if isSpace c then
        if inRun then splitSpacesAux true piece r
        else rev piece :: splitSpacesAux true [] r
      else splitSpacesAux false (c :: piece) r
  end.

Definition splitSpaces (s : jsstring) : list jsstring :=
  splitSpacesAux false [] s.

(** What is left of the input after a match of [\s*\n] that starts here
    and is as long as possible, if there is one. *)
Fixpoint afterBlankLine (s : jsstring) : option jsstring :=
  match s with
  | c :: r =>
      if isSpace c then
        match afterBlankLine r with
        | Some rest => Some rest
        | None => if (c =? 10)%N then Some r else None
        end
      else None
  | [] => None
  end.

(** [s.split(/\n\s*\n/)].  [skip] counts the code units of the separator
    that are still to be dropped. *)
Fixpoint splitParagraphsAux (skip : nat) (piece : jsstring) (s : jsstring)
  : list jsstring :=
  match s with
  | [] => [rev piece]
  | c :: r =>
      match skip with
      | S n => splitParagraphsAux n piece r
      | O =>
          if (c =? 10)%N then
            match afterBlankLine r with
            | Some rest =>
                rev piece
                  :: splitParagraphsAux (length r - length rest) [] r
            | None => splitParagraphsAux O (c :: piece) r
            end
          else splitParagraphsAux O (c :: piece) r
      end
  end.

Definition splitParagraphs (s : jsstring) : list jsstring :=
  splitParagraphsAux O [] s.

(** [a.join(' ')] *)
Fixpoint joinSpace (l : list jsstring) : jsstring :=
  match l with
  | [] => []
  | [w] => w
  | w :: r => w ++ 32%N :: joinSpace r
  end.

(** [a[i]] for a number [i]: [undefined] outside the array. *)
Definition at_ {A} (l : list A) (i : Z) : option A :=
  if i <? 0 then None else nth_error l (Z.to_nat i).

(** [Math.round] *)
Definition round (q : Q) : Z := Qfloor (q + (1 # 2)).

Definition Qmax (a b : Q) : Q := if Qle_bool a b then b else a.
Definition Qmin (a b : Q) : Q := if Qle_bool a b then a else b.
Definition Qgtb (a b : Q) : bool := negb (Qle_bool a b).
Definition Qltb (a b : Q) : bool := negb (Qle_bool b a).

(** A timestamp used as a condition: [null] and [0] are falsy. *)
Definition truthy (t : option Z) : bool :=
  match t with Some v => negb (v =? 0) | None => false end.

(** *** Numbers that need not be finite

    A number is finite, [NaN], or one of the two infinities.  The two zeros
    of a double are one number here; the arithmetic is that of IEEE 754 on
    these values, exact on the finite ones. *)
Inductive number :=
| Num (q : Q)
| NaN
| Infinity
| NegInfinity.

(** [-a] *)
Definition nneg (a : number) : number :=
  match a with
  | Num x => Num (- x)
  | NaN => NaN
  | Infinity => NegInfinity
  | NegInfinity => Infinity
  end.

(** An infinity times a finite number. *)
Definition scaleInfinity (positive : bool) (x : Q) : number :=
  match (x ?= 0)%Q with
  | Eq => NaN
  | Gt => if positive then Infinity else NegInfinity
  | Lt => if positive then NegInfinity else Infinity
  end.

(** [a * b] *)
Definition nmul (a b : number) : number :=
  match a, b with
  | NaN, _ | _, NaN => NaN
  | Num x, Num y => Num (x * y)
  | Num x, Infinity | Infinity, Num x => scaleInfinity true x
  | Num x, NegInfinity | NegInfinity, Num x => scaleInfinity false x
  | Infinity, Infinity | NegInfinity, NegInfinity => Infinity
  | Infinity, NegInfinity | NegInfinity, Infinity => NegInfinity
  end.

(** [a / b]; a finite number over zero is infinite, zero over zero is
    [NaN]. *)
Definition ndiv (a b : number) : number :=
  match a, b with
  | NaN, _ | _, NaN => NaN
  | Num x, Num y =>
      if Qeq_bool y 0 then
        match (x ?= 0)%Q with
        | Eq => NaN
        | Gt => Infinity
        | Lt => NegInfinity
        end
      else Num (x / y)
  | Num _, (Infinity | NegInfinity) => Num 0
  | Infinity, Num y => if Qle_bool 0 y then Infinity else NegInfinity
  | NegInfinity, Num y => if Qle_bool 0 y then NegInfinity else Infinity
  | (Infinity | NegInfinity), (Infinity | NegInfinity) => NaN
  end.

(** [a + b] *)
Definition nadd (a b : number) : number :=
  match a, b with
  | NaN, _ | _, NaN => NaN
  | Num x, Num y => Num (x + y)
  | Infinity, NegInfinity | NegInfinity, Infinity => NaN
  | Infinity, _ | _, Infinity => Infinity
  | NegInfinity, _ | _, NegInfinity => NegInfinity
  end.

(** [a - b] *)
Definition nsub (a b : number) : number := nadd a (nneg b).

(** [Math.min(a, b)] and [Math.max(a, b)]: [NaN] if either is [NaN]. *)
Definition nmin (a b : number) : number :=
  match a, b with
  | NaN, _ | _, NaN => NaN
  | NegInfinity, _ | _, NegInfinity => NegInfinity
  | Infinity, c | c, Infinity => c
  | Num x, Num y => Num (Qmin x y)
  end.

Definition nmax (a b : number) : number :=
  match a, b with
  | NaN, _ | _, NaN => NaN
  | Infinity, _ | _, Infinity => Infinity
  | NegInfinity, c | c, NegInfinity => c
  | Num x, Num y => Num (Qmax x y)
  end.

(** [Math.round(a)] *)
Definition nround (a : number) : number :=
  match a with
  | Num x => Num (inject_Z (round x))
  | _ => a
  end.

(** A number used as a condition: [NaN] and [0] are falsy. *)
Definition ntruthy (a : number) : bool :=
  match a with
  | Num x => negb (Qeq_bool x 0)
  | NaN => false
  | Infinity | NegInfinity => true
  end.

(** [a <= b] and [a < b]; both are false when either is [NaN]. *)
Definition nle (a b : number) : Prop :=
  match a, b with
  | NaN, _ | _, NaN => False
  | NegInfinity, _ | _, Infinity => True
  | Num x, Num y => (x <= y)%Q
  | _, _ => False
  end.

(** The same number; two fractions of one value are one number, and [NaN]
    is the same as nothing. *)
Definition nsame (a b : number) : Prop :=
  match a, b with
  | Num x, Num y => (x == y)%Q
  | Infinity, Infinity | NegInfinity, NegInfinity => True
  | _, _ => False
  end.

Definition nlt (a b : number) : Prop :=
  match a, b with
  | NaN, _ | _, NaN => False
  | Infinity, _ | _, NegInfinity => False
  | Num x, Num y => (x < y)%Q
  | _, _ => True
  end.

(** The delay [setTimeout] takes from a number: the host converts it to a
    32-bit integer, which makes 0 of [NaN] and of the infinities, drops the
    fraction and wraps around at 2^31; a negative delay is taken as 0. *)
Definition wrap32 (z : Z) : Z := (z + 2 ^ 31) mod 2 ^ 32 - 2 ^ 31.

Definition truncate (x : Q) : Z :=
  if Qle_bool 0 x then Qfloor x else Qceiling x.

Definition delayOf (a : number) : Z :=
  match a with
  | Num x => Z.max 0 (wrap32 (truncate x))
  | _ => 0
  end.

End JS.
Import JS.

(** ** cognitive-engine.js: class CognitiveEngine *)

Module CognitiveEngine.

(** *** Linguistic tables of the constructor *)

Definition isClauseBoundary : N -> bool :=
  oneOf [chr ","; chr ";"; chr ":"; chr "-"; 8211%N; 8212%N].
Definition isSentenceMark : N -> bool := oneOf [chr "."; chr "!"; chr "?"].
Definition isSymbol : N -> bool :=
  oneOf [chr "@"; chr "#"; chr "$"; chr "%"; chr "&"; chr "*"; chr "+";
         chr "="; chr "<"; chr ">"].

(** [/[,;:\-–—]/] *)
Definition clauseBoundaries (w : jsstring) : bool :=
  search (cls isClauseBoundary anything) w.
(** [/[.!?]+$/] *)
Definition sentenceEnd (w : jsstring) : bool :=
  search (plusCls isSentenceMark eos) w.

Definition subordinators : gset jsstring :=
  list_to_set (map str
    ["although"; "because"; "since"; "while"; "whereas"; "unless";
     "until"; "before"; "after"; "when"; "whenever"; "where";
     "wherever"; "if"; "though"; "even"; "provided"; "assuming"]).

Definition transitions : gset jsstring :=
  list_to_set (map str
    ["however"; "therefore"; "furthermore"; "moreover"; "nevertheless";
     "consequently"; "meanwhile"; "subsequently"; "accordingly";
     "hence"; "thus"; "otherwise"; "instead"; "alternatively"]).

Definition highFrequency : gset jsstring :=
  list_to_set (map str
    ["the"; "a"; "an"; "is"; "are"; "was"; "were"; "be"; "been";
     "being"; "have"; "has"; "had"; "do"; "does"; "did"; "will";
     "would"; "could"; "should"; "may"; "might"; "must"; "shall";
     "can"; "to"; "of"; "in"; "for"; "on"; "with"; "at"; "by";
     "from"; "as"; "into"; "through"; "during"; "before"; "after";
     "above"; "below"; "between"; "under"; "again"; "further";
     "then"; "once"; "here"; "there"; "when"; "where"; "why"; "how";
     "all"; "each"; "few"; "more"; "most"; "other"; "some"; "such";
     "no"; "nor"; "not"; "only"; "own"; "same"; "so"; "than"; "too";
     "very"; "just"; "also"; "now"; "and"; "but"; "or"; "yet"; "both";
     "it"; "its"; "this"; "that"; "these"; "those"; "i"; "you"; "he";
     "she"; "we"; "they"; "me"; "him"; "her"; "us"; "them"; "my";
     "your"; "his"; "our"; "their"; "what"; "which"; "who"; "whom"]).

(** [set.has(w)] *)
Definition has (s : gset jsstring) (w : jsstring) : bool :=
  bool_decide (w ∈ s).

Definition collocations : list (list jsstring) :=
  map (map str)
    [ ["in"; "order"; "to"]; ["as"; "well"; "as"]; ["in"; "front"; "of"];
      ["in"; "spite"; "of"]; ["on"; "behalf"; "of"]; ["in"; "terms"; "of"];
      ["by"; "means"; "of"]; ["in"; "addition"; "to"];
      ["with"; "respect"; "to"];
      ["on"; "top"; "of"]; ["in"; "case"; "of"];
      ["at"; "the"; "same"; "time"];
      ["on"; "the"; "other"; "hand"]; ["as"; "a"; "result"];
      ["for"; "example"]; ["for"; "instance"]; ["in"; "other"; "words"];
      ["that"; "is"]; ["in"; "fact"]; ["of"; "course"]; ["at"; "least"];
      ["at"; "last"]; ["at"; "first"]; ["first"; "of"; "all"];
      ["going"; "to"]; ["used"; "to"]; ["have"; "to"]; ["has"; "to"];
      ["want"; "to"]; ["need"; "to"]; ["able"; "to"]; ["ought"; "to"];
      ["right"; "now"]; ["so"; "far"]; ["up"; "to"];
      ["from"; "now"; "on"] ].

(** *** Timing multipliers *)

Module timing.
Definition sentenceEnd : Q := 2.0.
Definition clauseBoundary : Q := 1.4.
Definition paragraphEnd : Q := 2.5.
Definition shortWord : Q := 0.85.
Definition mediumWord : Q := 1.0.
Definition longWord : Q := 1.25.
Definition veryLongWord : Q := 1.5.
Definition highFrequency : Q := 0.8.
Definition transition : Q := 1.5.
Definition subordinator : Q := 1.3.
Definition number : Q := 1.4.
Definition mixedCase : Q := 1.3.
Definition allCaps : Q := 1.2.
Definition hasSymbols : Q := 1.3.
Definition firstOccurrence : Q := 1.35.
Definition recentRepeat : Q := 0.75.
Definition hyphenated : Q := 1.4.
Definition collocationUnit : Q := 1.1.
End timing.

(** *** Reading modes *)

Inductive Mode := scan | normal | study | proofread.

Record ModeConfig := {
  name : string;
  baseMultiplier : Q;
  punctuationSensitivity : Q;
  complexityWeight : Q
}.

Definition modes (m : Mode) : ModeConfig :=
  match m with
  | scan => {| name := "Scan"; baseMultiplier := 0.7;
               punctuationSensitivity := 0.5; complexityWeight := 0.3 |}
  | normal => {| name := "Normal"; baseMultiplier := 1.0;
                 punctuationSensitivity := 1.0; complexityWeight := 1.0 |}
  | study => {| name := "Study"; baseMultiplier := 1.4;
                punctuationSensitivity := 1.3; complexityWeight := 1.5 |}
  | proofread => {| name := "Proofread"; baseMultiplier := 1.8;
                    punctuationSensitivity := 1.5; complexityWeight := 1.8 |}
  end.

(** The key of the [modes] table a name denotes. *)
Definition modeOfName (n : string) : option Mode :=
  if String.eqb n "scan" then Some scan
  else if String.eqb n "normal" then Some normal
  else if String.eqb n "study" then Some study
  else if String.eqb n "proofread" then Some proofread
  else None.

(** [modes] is an object literal: beside its four keys, [modes[name]] finds
    a value for the names every object inherits from [Object.prototype]. *)
Inductive ProtoName :=
| p_constructor
| p_hasOwnProperty
| p_isPrototypeOf
| p_propertyIsEnumerable
| p_toLocaleString
| p_toString
| p_valueOf
| p_defineGetter
| p_defineSetter
| p_lookupGetter
| p_lookupSetter
| p_proto.

Definition protoOfName (n : string) : option ProtoName :=
  if String.eqb n "constructor" then Some p_constructor
  else if String.eqb n "hasOwnProperty" then Some p_hasOwnProperty
  else if String.eqb n "isPrototypeOf" then Some p_isPrototypeOf
  else if String.eqb n "propertyIsEnumerable" then Some p_propertyIsEnumerable
  else if String.eqb n "toLocaleString" then Some p_toLocaleString
  else if String.eqb n "toString" then Some p_toString
  else if String.eqb n "valueOf" then Some p_valueOf
  else if String.eqb n "__defineGetter__" then Some p_defineGetter
  else if String.eqb n "__defineSetter__" then Some p_defineSetter
  else if String.eqb n "__lookupGetter__" then Some p_lookupGetter
  else if String.eqb n "__lookupSetter__" then Some p_lookupSetter
  else if String.eqb n "__proto__" then Some p_proto
  else None.

(** A name under which [modes] has a value: [currentMode] holds one, as
    [setMode] stores a name only if [modes[name]] is truthy. *)
Inductive ModeKey :=
| own (m : Mode)
| inherited (p : ProtoName).

(** The key a name is, if [modes[name]] is truthy. *)
Definition keyOfName (n : string) : option ModeKey :=
  match modeOfName n with
  | Some m => Some (own m)
  | None => inherited <$> protoOfName n
  end.

(** [modes[key]]: a mode, or a member of [Object.prototype] (a function,
    or the prototype itself), which is truthy and has none of the fields of
    a mode. *)
Inductive ModeValue :=
| modeConfig (c : ModeConfig)
| prototypeMember (p : ProtoName).

Definition modeValue (k : ModeKey) : ModeValue :=
  match k with
  | own m => modeConfig (modes m)
  | inherited p => prototypeMember p
  end.

(** [mode.baseMultiplier] and [mode.complexityWeight] in arithmetic: a field
    that is not there reads [undefined], which is [NaN] as a number. *)
Definition baseMultiplierOf (v : ModeValue) : number :=
  match v with
  | modeConfig c => Num (baseMultiplier c)
  | prototypeMember _ => NaN
  end.

Definition complexityWeightOf (v : ModeValue) : number :=
  match v with
  | modeConfig c => Num (complexityWeight c)
  | prototypeMember _ => NaN
  end.

Definition recentWindowSize : nat := 25.

(** *** State *)

Record Fatigue := {
  startTime : option Z;
  wordsRead : Z;
  rewinds : Z;
  pauses : Z;
  lastPauseTime : option Z;
  fatigueLevel : Q;
  autoSlowdownApplied : Z
}.

Record Comprehension := {
  rewindCount : Z;
  pauseCount : Z;
  hesitationEvents : list Z;
  avgPauseDuration : Z
}.

Record t := {
  currentMode : ModeKey;
  conceptMemory : gmap jsstring Z;
  recentWords : list jsstring;
  fatigue : Fatigue;
  comprehension : Comprehension
}.

Definition freshFatigue : Fatigue :=
  {| startTime := None; wordsRead := 0; rewinds := 0; pauses := 0;
     lastPauseTime := None; fatigueLevel := 0; autoSlowdownApplied := 0 |}.

Definition freshComprehension : Comprehension :=
  {| rewindCount := 0; pauseCount := 0; hesitationEvents := [];
     avgPauseDuration := 0 |}.

(** [new CognitiveEngine()] *)
Definition new : t :=
  {| currentMode := own normal; conceptMemory := ∅; recentWords := [];
     fatigue := freshFatigue; comprehension := freshComprehension |}.

(** [reset()]: the reading mode is kept. *)
Definition reset (ce : t) : t :=
  {| currentMode := currentMode ce; conceptMemory := ∅; recentWords := [];
     fatigue := freshFatigue; comprehension := freshComprehension |}.

Definition withFatigue (f : Fatigue) (ce : t) : t :=
  {| currentMode := currentMode ce; conceptMemory := conceptMemory ce;
     recentWords := recentWords ce; fatigue := f;
     comprehension := comprehension ce |}.

Definition withComprehension (c : Comprehension) (ce : t) : t :=
  {| currentMode := currentMode ce; conceptMemory := conceptMemory ce;
     recentWords := recentWords ce; fatigue := fatigue ce;
     comprehension := c |}.

Definition withMemory (m : gmap jsstring Z) (r : list jsstring) (ce : t) : t :=
  {| currentMode := currentMode ce; conceptMemory := m;
     recentWords := r; fatigue := fatigue ce;
     comprehension := comprehension ce |}.

Definition withLevel (l : Q) (f : Fatigue) : Fatigue :=
  {| startTime := startTime f; wordsRead := wordsRead f;
     rewinds := rewinds f; pauses := pauses f;
     lastPauseTime := lastPauseTime f; fatigueLevel := l;
     autoSlowdownApplied := autoSlowdownApplied f |}.

(** *** Tokens and analysis results *)

Record Collocation := {
  words : list jsstring;
  length : Z;
  display : jsstring
}.

Record Token := {
  word : jsstring;
  index : Z;
  paragraphIndex : option Z;
  sentencePosition : option Z;
  isLastInParagraph : bool;
  isLastWord : bool;
  collocation : option Collocation
}.

Record Analysis := {
  original : jsstring;
  display_ : jsstring;
  multiplier : number;
  factors : list string;
  isChunkStart : bool;
  chunkWords : option (list jsstring);
  orpOffset : Z
}.

(** [analysis.multiplier *= m; analysis.factors.push(tag)] *)
Definition applyFactor (m : Q) (tag : string) (a : Analysis) : Analysis :=
  {| original := original a; display_ := display_ a;
     multiplier := nmul (multiplier a) (Num m); factors := factors a ++ [tag];
     isChunkStart := isChunkStart a; chunkWords := chunkWords a;
     orpOffset := orpOffset a |}.

(** [analysis.multiplier *= m] *)
Definition scale (m : number) (a : Analysis) : Analysis :=
  {| original := original a; display_ := display_ a;
     multiplier := nmul (multiplier a) m; factors := factors a;
     isChunkStart := isChunkStart a; chunkWords := chunkWords a;
     orpOffset := orpOffset a |}.

Definition pushFactor (tag : string) (a : Analysis) : Analysis :=
  {| original := original a; display_ := display_ a;
     multiplier := multiplier a; factors := factors a ++ [tag];
     isChunkStart := isChunkStart a; chunkWords := chunkWords a;
     orpOffset := orpOffset a |}.

Definition setOrpOffset (o : Z) (a : Analysis) : Analysis :=
  {| original := original a; display_ := display_ a;
     multiplier := multiplier a; factors := factors a;
     isChunkStart := isChunkStart a; chunkWords := chunkWords a;
     orpOffset := o |}.

Definition setMultiplier (m : number) (a : Analysis) : Analysis :=
  {| original := original a; display_ := display_ a;
     multiplier := m; factors := factors a;
     isChunkStart := isChunkStart a; chunkWords := chunkWords a;
     orpOffset := orpOffset a |}.

(** [word.replace(/[^\w'-]/g, '').toLowerCase()] *)
Definition cleanWord (w : jsstring) : jsstring :=
  map lowerAscii
    (keep (fun c => isWord c || (c =? chr "'")%N || (c =? chr "-")%N) w).

Definition len {A} (w : list A) : Z := Z.of_nat (List.length w).

(** *** analyzeToken *)

Definition complexityTags : list string :=
  ["long"; "very-long"; "first-occurrence"; "numeric"; "mixed-case"].

Definition isComplexityTag (f : string) : bool :=
  existsb (String.eqb f) complexityTags.

(** 1. Punctuation *)
Definition punctuationStep (token : Token) (a : Analysis) : Analysis :=
  if sentenceEnd (word token) then
    if isLastInParagraph token
    then applyFactor timing.paragraphEnd "paragraph-end" a
    else applyFactor timing.sentenceEnd "sentence-end" a
  else if clauseBoundaries (word token)
  then applyFactor timing.clauseBoundary "clause-boundary" a
  else a.

(** 2. Word length *)
Definition lengthStep (clean : jsstring) (a : Analysis) : Analysis :=
  let length := len clean in
  if length <=? 3 then applyFactor timing.shortWord "short" a
  else if length <=? 7 then a
  else if length <=? 11
  then setOrpOffset 1 (applyFactor timing.longWord "long" a)
  else setOrpOffset 2 (applyFactor timing.veryLongWord "very-long" a).

(** 3. Frequency *)
Definition frequencyStep (clean : jsstring) (a : Analysis) : Analysis :=
  if has highFrequency clean
  then applyFactor timing.highFrequency "high-freq" a else a.

(** 4. Semantic role *)
Definition semanticStep (clean : jsstring) (a : Analysis) : Analysis :=
  let a := if has transitions clean
           then applyFactor timing.transition "transition" a else a in
  if has subordinators clean
  then applyFactor timing.subordinator "subordinator" a else a.

(** [/[A-Z].*[a-z].*[A-Z]|[a-z].*[A-Z]/] *)
Definition mixedCasePattern (w : jsstring) : bool :=
  search (cls isUpper (dotStar (cls isLower (dotStar (cls isUpper anything))))) w
  || search (cls isLower (dotStar (cls isUpper anything))) w.

(** [/^[A-Z]{2,}$/] *)
Definition acronymPattern (w : jsstring) : bool :=
  cls isUpper (plusCls isUpper eos) w.

(** 5. Token type *)
Definition tokenTypeStep (w clean : jsstring) (a : Analysis) : Analysis :=
  let a := if search (cls isDigit anything) w
           then applyFactor timing.number "numeric" a else a in
  let a := if mixedCasePattern w
           then applyFactor timing.mixedCase "mixed-case" a else a in
  let a := if acronymPattern clean
           then applyFactor timing.allCaps "acronym" a else a in
  let a := if search (cls isSymbol anything) w
           then applyFactor timing.hasSymbols "symbols" a else a in
  if existsb (N.eqb (chr "-")) w && (len w >? 3)
  then applyFactor timing.hyphenated "hyphenated" a else a.

(** [recentWords.push(w); if (recentWords.length > recentWindowSize)
    recentWords.shift()] *)
Definition pushRecent (w : jsstring) (recent : list jsstring) : list jsstring :=
  let pushed := recent ++ [w] in
  if (recentWindowSize <? List.length pushed)%nat then tl pushed else pushed.

(** 6. Concept tracking *)
Definition conceptStep (clean : jsstring) (ce : t) (a : Analysis)
  : Analysis * t :=
  if len clean >? 4 then
    let isRecent := bool_decide (clean ∈ recentWords ce) in
    let seenBefore := bool_decide (is_Some (conceptMemory ce !! clean)) in
    let '(a, memory) :=
      if negb seenBefore && negb (has highFrequency clean) then
        (applyFactor timing.firstOccurrence "first-occurrence" a,
         <[clean := 1]> (conceptMemory ce))
      else if isRecent then
        (applyFactor timing.recentRepeat "recent-repeat" a,
         <[clean := default 0 (conceptMemory ce !! clean) + 1]>
           (conceptMemory ce))
      else (a, conceptMemory ce) in
    (a, withMemory memory (pushRecent clean (recentWords ce)) ce)
  else (a, ce).

(** 7. Reading mode *)
Definition modeStep (ce : t) (a : Analysis) : Analysis :=
  let mode := modeValue (currentMode ce) in
  let a := scale (baseMultiplierOf mode) a in
  let complexityFactors :=
    Z.of_nat (List.length (List.filter isComplexityTag (factors a))) in
  if complexityFactors >? 0 then
    let complexityBoost :=
      nmul (nmul (nsub (complexityWeightOf mode) (Num 1)) (Num 0.1))
        (Num (inject_Z complexityFactors)) in
    scale (nadd (Num 1) complexityBoost) a
  else a.

(** 8. Fatigue *)
Definition fatigueStep (ce : t) (a : Analysis) : Analysis :=
  let level := fatigueLevel (fatigue ce) in
  if Qgtb level 0 then
    let fatigueMultiplier := (1 + level * 0.3)%Q in
    let a := scale (Num fatigueMultiplier) a in
    if Qgtb level 0.3 then pushFactor "fatigue-adjusted" a else a
  else a.

(** 9. Clamp *)
Definition clampStep (a : Analysis) : Analysis :=
  setMultiplier (nmax (Num 0.5) (nmin (Num 3.5) (multiplier a))) a.

Definition analyzeToken (token : Token) (ce : t) : Analysis * t :=
  let word := word token in
  let clean := cleanWord word in
  let analysis :=
    {| original := word; display_ := word; multiplier := Num 1.0;
       factors := [];
       isChunkStart := false; chunkWords := None; orpOffset := 0 |} in
  let analysis := punctuationStep token analysis in
  let analysis := lengthStep clean analysis in
  let analysis := frequencyStep clean analysis in
  let analysis := semanticStep clean analysis in
  let analysis := tokenTypeStep word clean analysis in
  let '(analysis, ce) := conceptStep clean ce analysis in
  let analysis := modeStep ce analysis in
  let analysis := fatigueStep ce analysis in
  (clampStep analysis, ce).

(** *** detectCollocation *)

(** [w.toLowerCase().replace(/[^\w]/g, '')] *)
Definition normalize (w : jsstring) : jsstring := keep isWord (toLowerCase w).

(** The inner loop: every word of the phrase equals the normalized word of
    the text at the same offset. *)
Fixpoint phraseMatches (phrase : list jsstring) (ws : list jsstring) : bool :=
  match phrase, ws with
  | [], _ => true
  | p :: phrase', w :: ws' =>
      bool_decide (normalize w = p) && phraseMatches phrase' ws'
  | _ :: _, [] => false
  end.

Fixpoint firstMatch (catalog : list (list jsstring)) (ws : list jsstring)
  (index : nat) : option Collocation :=
  match catalog with
  | [] => None
  | collocation :: catalog' =>
      let remaining := (List.length ws - index)%nat in
      if (remaining <? List.length collocation)%nat
      then firstMatch catalog' ws index
      else if phraseMatches collocation (skipn index ws) then
        let slice := firstn (List.length collocation) (skipn index ws) in
        Some {| words := slice; length := len collocation;
                display := joinSpace slice |}
      else firstMatch catalog' ws index
  end.

Definition detectCollocation (ws : list jsstring) (index : nat)
  : option Collocation :=
  firstMatch collocations ws index.

(** *** updateFatigue *)

Inductive FatigueEvent :=
| EvStart
| EvWord
| EvRewind
| EvPause (duration : option Z)
| EvResume (duration : option Z).

Definition updateFatigue (event : FatigueEvent) (now : Z) (ce : t) : t :=
  let f := fatigue ce in
  let c := comprehension ce in
  match event with
  | EvStart =>
      withFatigue
        {| startTime := Some now; wordsRead := 0; rewinds := rewinds f;
           pauses := pauses f; lastPauseTime := lastPauseTime f;
           fatigueLevel := 0;
           autoSlowdownApplied := autoSlowdownApplied f |} ce
  | EvWord =>
      let f :=
        {| startTime := startTime f; wordsRead := wordsRead f + 1;
           rewinds := rewinds f; pauses := pauses f;
           lastPauseTime := lastPauseTime f;
           fatigueLevel := fatigueLevel f;
           autoSlowdownApplied := autoSlowdownApplied f |} in
      if truthy (startTime f) then
        let elapsed := now - default 0 (startTime f) in
        let minutes := (inject_Z elapsed / 60000)%Q in
        if Qgtb minutes 5
        then withFatigue (withLevel (Qmin 1 ((minutes - 5) / 20)) f) ce
        else withFatigue f ce
      else withFatigue f ce
  | EvRewind =>
      withComprehension
        {| rewindCount := rewindCount c + 1; pauseCount := pauseCount c;
           hesitationEvents := hesitationEvents c;
           avgPauseDuration := avgPauseDuration c |}
        (withFatigue
           {| startTime := startTime f; wordsRead := wordsRead f;
              rewinds := rewinds f + 1; pauses := pauses f;
              lastPauseTime := lastPauseTime f;
              fatigueLevel := Qmin 1 (fatigueLevel f + 0.05);
              autoSlowdownApplied := autoSlowdownApplied f |} ce)
  | EvPause duration =>
      let pauseDuration := default 0 duration in
      let f :=
        {| startTime := startTime f; wordsRead := wordsRead f;
           rewinds := rewinds f; pauses := pauses f + 1;
           lastPauseTime := lastPauseTime f;
           fatigueLevel := fatigueLevel f;
           autoSlowdownApplied := autoSlowdownApplied f |} in
      let f := if pauseDuration >? 3000
               then withLevel (Qmin 1 (fatigueLevel f + 0.03)) f else f in
      withComprehension
        {| rewindCount := rewindCount c; pauseCount := pauseCount c + 1;
           hesitationEvents := hesitationEvents c;
           avgPauseDuration := avgPauseDuration c |}
        (withFatigue f ce)
  | EvResume _ =>
      withFatigue (withLevel (Qmax 0 (fatigueLevel f - 0.02)) f) ce
  end.

(** *** getFatigueStatus *)

Record FatigueStatus := {
  level : Q;
  status : string;
  recommendation : option string
}.

Definition getFatigueStatus (ce : t) : FatigueStatus :=
  let level := fatigueLevel (fatigue ce) in
  if Qltb level 0.2 then
    {| level := level; status := "fresh"; recommendation := None |}
  else if Qltb level 0.5 then
    {| level := level; status := "mild";
       recommendation := Some "Consider taking a short break soon" |}
  else if Qltb level 0.8 then
    {| level := level; status := "moderate";
       recommendation := Some "Speed has been reduced. Break recommended." |}
  else
    {| level := level; status := "high";
       recommendation := Some "Strong fatigue detected. Please rest." |}.

(** *** setMode *)

Definition setMode (mode : string) (ce : t) : option ModeValue * t :=
  match keyOfName mode with
  | Some k =>
      (Some (modeValue k),
       {| currentMode := k; conceptMemory := conceptMemory ce;
          recentWords := recentWords ce; fatigue := fatigue ce;
          comprehension := comprehension ce |})
  | None => (None, ce)
  end.

(** *** calculateAdaptiveORP *)

Record ORP := {
  prefix : jsstring;
  focus : jsstring;
  suffix : jsstring
}.

(** The base position in the word without its marks. *)
Definition baseOrpIndex (length : Z) : Z :=
  if length <=? 4 then 1
  else if length <=? 8 then 2
  else if length <=? 12 then 3
  else length / 4.

(** The loop that maps the position back to the original word: [rest] is
    the part of the word from [actualIndex] on. *)
Fixpoint orpWalk (orpIndex cleanIndex : Z) (actualIndex : nat)
  (rest : jsstring) : nat :=
  match rest with
  | [] => actualIndex
  | c :: rest' =>
      if cleanIndex <? orpIndex then
        orpWalk orpIndex (if isWord c then cleanIndex + 1 else cleanIndex)
          (S actualIndex) rest'
      else actualIndex
  end.

Definition splitAt (actualIndex : nat) (word : jsstring) : ORP :=
  {| prefix := substring 0 actualIndex word;
     focus := charAtOrEmpty actualIndex word;
     suffix := substringFrom (actualIndex + 1) word |}.

(** [analysis.orpOffset || 0], for an analysis that may be the empty
    object. *)
Definition offsetOf (analysis : option Analysis) : Z :=
  match analysis with Some a => orpOffset a | None => 0 end.

Definition calculateAdaptiveORP (word : jsstring) (analysis : option Analysis)
  : ORP :=
  let length := len (keep isWord word) in
  if length =? 0 then {| prefix := []; focus := word; suffix := [] |}
  else if length =? 1 then {| prefix := []; focus := word; suffix := [] |}
  else if length =? 2 then
    {| prefix := charAtOrEmpty 0 word; focus := charAtOrEmpty 1 word;
       suffix := [] |}
  else
    let orpIndex := baseOrpIndex length + offsetOf analysis in
    let orpIndex := Z.max 0 (Z.min (length - 1) orpIndex) in
    splitAt (orpWalk orpIndex 0 0 word) word.

(** *** preprocessText *)

Definition nonEmpty (w : jsstring) : bool :=
  match w with [] => false | _ => true end.

Definition paragraphTokens (paragraphs paraIndex : nat) (globalIndex : Z)
  (ws : list jsstring) : list Token :=
  imap (fun wordIndex word =>
    let isLastInParagraph := (wordIndex =? List.length ws - 1)%nat in
    let isLastWord :=
      (paraIndex =? paragraphs - 1)%nat && isLastInParagraph in
    {| word := word;
       index := globalIndex + Z.of_nat wordIndex;
       paragraphIndex := Some (Z.of_nat paraIndex);
       sentencePosition := Some (Z.of_nat wordIndex);
       isLastInParagraph := isLastInParagraph;
       isLastWord := isLastWord;
       collocation := detectCollocation ws wordIndex |}) ws.

Fixpoint preprocessParagraphs (paragraphs paraIndex : nat) (globalIndex : Z)
  (paras : list jsstring) : list Token :=
  match paras with
  | [] => []
  | para :: paras' =>
      let ws := List.filter nonEmpty (splitSpaces para) in
      paragraphTokens paragraphs paraIndex globalIndex ws
        ++ preprocessParagraphs paragraphs (S paraIndex)
             (globalIndex + len ws) paras'
  end.

Definition preprocessText (text : jsstring) : list Token :=
  let paragraphs := splitParagraphs text in
  preprocessParagraphs (List.length paragraphs) 0 0 paragraphs.

(** *** assessComprehension *)

Record Assessment := {
  score : Q;
  issues : list string;
  suggestSlowdown : bool;
  suggestBreak : bool
}.

Definition assessComprehension (ce : t) : Assessment :=
  let read := inject_Z (Z.max 1 (wordsRead (fatigue ce))) in
  let rewindRate := (inject_Z (rewindCount (comprehension ce)) / read)%Q in
  let pauseRate := (inject_Z (pauseCount (comprehension ce)) / read)%Q in
  let '(score, issues) := (1.0%Q, @nil string) in
  let '(score, issues) :=
    if Qgtb rewindRate 0.05
    then ((score - 0.2)%Q, issues ++ ["frequent-rewinds"])
    else (score, issues) in
  let '(score, issues) :=
    if Qgtb pauseRate 0.03
    then ((score - 0.1)%Q, issues ++ ["frequent-pauses"])
    else (score, issues) in
  let '(score, issues) :=
    if Qgtb (fatigueLevel (fatigue ce)) 0.5
    then ((score - 0.2)%Q, issues ++ ["fatigue"])
    else (score, issues) in
  {| score := Qmax 0 score;
     issues := issues;
     suggestSlowdown := Qltb score 0.7;
     suggestBreak :=
       Qltb score 0.5 || Qgtb (fatigueLevel (fatigue ce)) 0.7 |}.

End CognitiveEngine.

Module CE := CognitiveEngine.

(** ** reader.js: class SpeedReader *)

Module SpeedReader.

(** *** Configuration *)

Record Config := {
  wpm : number;
  pauseAtPunctuation : bool;
  extraTimeForLongWords : bool;
  adaptiveMode : bool;
  longWordThreshold : Z;
  punctuationMultiplier : Q;
  longWordMultiplier : Q
}.

(** The options of the constructor and the argument of [updateConfig]: an
    object that holds some of the fields of the configuration. *)
Record Options := {
  opt_wpm : option number;
  opt_pauseAtPunctuation : option bool;
  opt_extraTimeForLongWords : option bool;
  opt_adaptiveMode : option bool;
  opt_longWordThreshold : option Z;
  opt_punctuationMultiplier : option Q;
  opt_longWordMultiplier : option Q
}.

Definition noOptions : Options :=
  {| opt_wpm := None; opt_pauseAtPunctuation := None;
     opt_extraTimeForLongWords := None; opt_adaptiveMode := None;
     opt_longWordThreshold := None; opt_punctuationMultiplier := None;
     opt_longWordMultiplier := None |}.

(** [x || d] for a number [x] *)
Definition orQ (x : option Q) (d : Q) : Q :=
  match x with
  | Some v => if Qeq_bool v 0 then d else v
  | None => d
  end.

Definition orNumber (x : option number) (d : number) : number :=
  match x with
  | Some v => if ntruthy v then v else d
  | None => d
  end.

Definition orZ (x : option Z) (d : Z) : Z :=
  match x with
  | Some v => if v =? 0 then d else v
  | None => d
  end.

(** [x !== false] *)
Definition notFalse (x : option bool) : bool := default true x.

Definition defaultConfig (options : Options) : Config :=
  {| wpm := orNumber (opt_wpm options) (Num 300);
     pauseAtPunctuation := notFalse (opt_pauseAtPunctuation options);
     extraTimeForLongWords := notFalse (opt_extraTimeForLongWords options);
     adaptiveMode := notFalse (opt_adaptiveMode options);
     longWordThreshold := orZ (opt_longWordThreshold options) 8;
     punctuationMultiplier := orQ (opt_punctuationMultiplier options) 1.5;
     longWordMultiplier := orQ (opt_longWordMultiplier options) 1.3 |}.

(** [Object.assign(config, newConfig)] *)
Definition assign (config : Config) (newConfig : Options) : Config :=
  {| wpm := default (wpm config) (opt_wpm newConfig);
     pauseAtPunctuation :=
       default (pauseAtPunctuation config) (opt_pauseAtPunctuation newConfig);
     extraTimeForLongWords :=
       default (extraTimeForLongWords config)
         (opt_extraTimeForLongWords newConfig);
     adaptiveMode := default (adaptiveMode config) (opt_adaptiveMode newConfig);
     longWordThreshold :=
       default (longWordThreshold config) (opt_longWordThreshold newConfig);
     punctuationMultiplier :=
       default (punctuationMultiplier config)
         (opt_punctuationMultiplier newConfig);
     longWordMultiplier :=
       default (longWordMultiplier config) (opt_longWordMultiplier newConfig) |}.

Definition withWpm (v : number) (c : Config) : Config :=
  {| wpm := v; pauseAtPunctuation := pauseAtPunctuation c;
     extraTimeForLongWords := extraTimeForLongWords c;
     adaptiveMode := adaptiveMode c;
     longWordThreshold := longWordThreshold c;
     punctuationMultiplier := punctuationMultiplier c;
     longWordMultiplier := longWordMultiplier c |}.

Definition withAdaptiveMode (v : bool) (c : Config) : Config :=
  {| wpm := wpm c; pauseAtPunctuation := pauseAtPunctuation c;
     extraTimeForLongWords := extraTimeForLongWords c;
     adaptiveMode := v;
     longWordThreshold := longWordThreshold c;
     punctuationMultiplier := punctuationMultiplier c;
     longWordMultiplier := longWordMultiplier c |}.

(** *** What the engine hands to its observers *)

Record CurrentWord := {
  word : jsstring;
  displayText : jsstring;
  isCollocation : bool;
  index : Z;
  total : Z;
  progress : Q;
  prefix : jsstring;
  focus : jsstring;
  suffix : jsstring;
  prevWord : option jsstring;
  nextWord : option jsstring;
  analysis : option CE.Analysis
}.

Record Stats := {
  wordCount : Z;
  duration : Q;
  actualWPM : Z;
  fatigue : CE.FatigueStatus;
  comprehension : CE.Assessment
}.

Inductive StateChange :=
| loaded (wordCount : Z)
| playing
| paused
| ready
| completed (stats : Stats).

(** One call of a callback of the configuration. *)
Inductive Notification :=
| onWordChange (currentWord : option CurrentWord)
| onProgress (current total : Z) (progress : Q)
| onComplete (stats : Stats)
| onStateChange (state : StateChange)
| onAnalysis (analysis : CE.Analysis).

(** *** State of an instance *)

Record t := {
  config : Config;
  words : list jsstring;
  tokens : list CE.Token;
  currentIndex : Z;
  isPlaying : bool;
  isPaused : bool;
  timeoutId : option nat;
  startTime : option Z;
  pausedTime : option Z;
  pauseStartTime : option Z;
  totalPausedDuration : Z;
  cognitive : CE.t;
  skipCount : Z
}.

Definition new (options : Options) : t :=
  {| config := defaultConfig options; words := []; tokens := [];
     currentIndex := 0; isPlaying := false; isPaused := false;
     timeoutId := None; startTime := None; pausedTime := None;
     pauseStartTime := None; totalPausedDuration := 0;
     cognitive := CE.new; skipCount := 0 |}.

Definition set_config v (r : t) : t :=
  {| config := v; words := words r; tokens := tokens r;
     currentIndex := currentIndex r; isPlaying := isPlaying r;
     isPaused := isPaused r; timeoutId := timeoutId r;
     startTime := startTime r; pausedTime := pausedTime r;
     pauseStartTime := pauseStartTime r;
     totalPausedDuration := totalPausedDuration r;
     cognitive := cognitive r; skipCount := skipCount r |}.

Definition set_text ws ts (r : t) : t :=
  {| config := config r; words := ws; tokens := ts;
     currentIndex := currentIndex r; isPlaying := isPlaying r;
     isPaused := isPaused r; timeoutId := timeoutId r;
     startTime := startTime r; pausedTime := pausedTime r;
     pauseStartTime := pauseStartTime r;
     totalPausedDuration := totalPausedDuration r;
     cognitive := cognitive r; skipCount := skipCount r |}.

Definition set_currentIndex v (r : t) : t :=
  {| config := config r; words := words r; tokens := tokens r;
     currentIndex := v; isPlaying := isPlaying r;
     isPaused := isPaused r; timeoutId := timeoutId r;
     startTime := startTime r; pausedTime := pausedTime r;
     pauseStartTime := pauseStartTime r;
     totalPausedDuration := totalPausedDuration r;
     cognitive := cognitive r; skipCount := skipCount r |}.

(** [isPlaying] and [isPaused] are always assigned together. *)
Definition set_playing playingNow pausedNow (r : t) : t :=
  {| config := config r; words := words r; tokens := tokens r;
     currentIndex := currentIndex r; isPlaying := playingNow;
     isPaused := pausedNow; timeoutId := timeoutId r;
     startTime := startTime r; pausedTime := pausedTime r;
     pauseStartTime := pauseStartTime r;
     totalPausedDuration := totalPausedDuration r;
     cognitive := cognitive r; skipCount := skipCount r |}.

Definition set_timeoutId v (r : t) : t :=
  {| config := config r; words := words r; tokens := tokens r;
     currentIndex := currentIndex r; isPlaying := isPlaying r;
     isPaused := isPaused r; timeoutId := v;
     startTime := startTime r; pausedTime := pausedTime r;
     pauseStartTime := pauseStartTime r;
     totalPausedDuration := totalPausedDuration r;
     cognitive := cognitive r; skipCount := skipCount r |}.

Definition set_startTime v (r : t) : t :=
  {| config := config r; words := words r; tokens := tokens r;
     currentIndex := currentIndex r; isPlaying := isPlaying r;
     isPaused := isPaused r; timeoutId := timeoutId r;
     startTime := v; pausedTime := pausedTime r;
     pauseStartTime := pauseStartTime r;
     totalPausedDuration := totalPausedDuration r;
     cognitive := cognitive r; skipCount := skipCount r |}.

Definition set_pausedTime v (r : t) : t :=
  {| config := config r; words := words r; tokens := tokens r;
     currentIndex := currentIndex r; isPlaying := isPlaying r;
     isPaused := isPaused r; timeoutId := timeoutId r;
     startTime := startTime r; pausedTime := v;
     pauseStartTime := pauseStartTime r;
     totalPausedDuration := totalPausedDuration r;
     cognitive := cognitive r; skipCount := skipCount r |}.

Definition set_pauseStartTime v (r : t) : t :=
  {| config := config r; words := words r; tokens := tokens r;
     currentIndex := currentIndex r; isPlaying := isPlaying r;
     isPaused := isPaused r; timeoutId := timeoutId r;
     startTime := startTime r; pausedTime := pausedTime r;
     pauseStartTime := v;
     totalPausedDuration := totalPausedDuration r;
     cognitive := cognitive r; skipCount := skipCount r |}.

Definition set_totalPausedDuration v (r : t) : t :=
  {| config := config r; words := words r; tokens := tokens r;
     currentIndex := currentIndex r; isPlaying := isPlaying r;
     isPaused := isPaused r; timeoutId := timeoutId r;
     startTime := startTime r; pausedTime := pausedTime r;
     pauseStartTime := pauseStartTime r;
     totalPausedDuration := v;
     cognitive := cognitive r; skipCount := skipCount r |}.

Definition set_cognitive v (r : t) : t :=
  {| config := config r; words := words r; tokens := tokens r;
     currentIndex := currentIndex r; isPlaying := isPlaying r;
     isPaused := isPaused r; timeoutId := timeoutId r;
     startTime := startTime r; pausedTime := pausedTime r;
     pauseStartTime := pauseStartTime r;
     totalPausedDuration := totalPausedDuration r;
     cognitive := v; skipCount := skipCount r |}.

Definition set_skipCount v (r : t) : t :=
  {| config := config r; words := words r; tokens := tokens r;
     currentIndex := currentIndex r; isPlaying := isPlaying r;
     isPaused := isPaused r; timeoutId := timeoutId r;
     startTime := startTime r; pausedTime := pausedTime r;
     pauseStartTime := pauseStartTime r;
     totalPausedDuration := totalPausedDuration r;
     cognitive := cognitive r; skipCount := v |}.

(** *** The instance in its host

    The host keeps the steps scheduled by [setTimeout] that have neither
    run nor been cleared, each with its identifier and the instant it is
    due, and the notifications the callbacks have received, oldest
    first. *)

Record Machine := {
  reader : t;
  pending : list (nat * Z);
  nextId : nat;
  log : list Notification
}.

Definition boot (options : Options) : Machine :=
  {| reader := new options; pending := []; nextId := 1; log := [] |}.

(** A call returns a value or throws a [TypeError]; what it has written
    before stays written in both cases. *)
Inductive Result (A : Type) :=
| Ok (a : A)
| TypeError.
Arguments Ok {A} a.
Arguments TypeError {A}.

Definition M (A : Type) : Type := Machine -> Result A * Machine.

#[export] Instance M_ret : MRet M := fun A a m => (Ok a, m).

#[export] Instance M_bind : MBind M := fun A B f c m =>
  match c m with
  | (Ok a, m') => f a m'
  | (TypeError, m') => (TypeError, m')
  end.

Definition throw {A} : M A := fun m => (TypeError, m).

(** [this] *)
Definition this : M t := fun m => (Ok (reader m), m).

Definition modify (f : t -> t) : M unit := fun m =>
  (Ok tt, {| reader := f (reader m); pending := pending m;
             nextId := nextId m; log := log m |}).

Definition notify (n : Notification) : M unit := fun m =>
  (Ok tt, {| reader := reader m; pending := pending m;
             nextId := nextId m; log := log m ++ [n] |}).

(** [setTimeout(() => this.showNextWord(), delay)] called at [now] *)
Definition setTimeout (delay now : Z) : M nat := fun m =>
  (Ok (nextId m),
   {| reader := reader m;
      pending := pending m ++ [(nextId m, now + delay)];
      nextId := S (nextId m); log := log m |}).

Definition clearTimeout (id : nat) : M unit := fun m =>
  (Ok tt, {| reader := reader m;
             pending := List.filter (fun p => negb (fst p =? id)%nat) (pending m);
             nextId := nextId m; log := log m |}).

(** [this.cognitive.updateFatigue(event)] *)
Definition updateFatigue (event : CE.FatigueEvent) (now : Z) : M unit :=
  modify (fun r => set_cognitive (CE.updateFatigue event now (cognitive r)) r).

(** [if (c) { body }] *)
Definition when (c : bool) (body : M unit) : M unit :=
  if c then body else mret tt.

(** *** calculateORP, parseText, getWordDuration *)

(** The engine is built with its [CognitiveEngine], so the branch on
    [this.cognitive && analysis] is the branch on [analysis]. *)
Definition calculateORP (word : jsstring) (analysis : option CE.Analysis)
  : CE.ORP :=
  match analysis with
  | Some _ => CE.calculateAdaptiveORP word analysis
  | None =>
      let length := CE.len (keep isWord word) in
      if length =? 0 then
        {| CE.prefix := []; CE.focus := word; CE.suffix := [] |}
      else if length =? 1 then
        {| CE.prefix := []; CE.focus := word; CE.suffix := [] |}
      else if length =? 2 then
        {| CE.prefix := charAtOrEmpty 0 word;
           CE.focus := charAtOrEmpty 1 word; CE.suffix := [] |}
      else
        let orpIndex := CE.baseOrpIndex length in
        CE.splitAt (CE.orpWalk orpIndex 0 0 word) word
  end.

(** [text.replace(/\r\n/g, '\n')] *)
Fixpoint replaceCRLF (s : jsstring) : jsstring :=
  match s with
  | c :: r =>
      match r with
      | d :: r' =>
          if (c =? 13)%N && (d =? 10)%N then 10%N :: replaceCRLF r'
          else c :: replaceCRLF r
      | [] => [c]
      end
  | [] => []
  end.

(** [text.replace(/\r/g, '\n')] *)
Definition replaceCR (s : jsstring) : jsstring :=
  map (fun c => if (c =? 13)%N then 10%N else c) s.

Definition parseText (text : jsstring) : list jsstring :=
  match text with
  | [] => []
  | _ => List.filter CE.nonEmpty (splitSpaces (replaceCR (replaceCRLF text)))
  end.

(** [/[.!?]$/] and [/[,;:—–-]$/] *)
Definition endPunctuation (w : jsstring) : bool :=
  search (cls CE.isSentenceMark eos) w.
Definition midPunctuation (w : jsstring) : bool :=
  search (cls CE.isClauseBoundary eos) w.

(** The duration is a number: it is [NaN] or infinite when [wpm] is [NaN]
    or 0.  A multiplier that is [NaN] or 0 is falsy and sends the
    computation to the fallback.  The product that is rounded is exact
    here and a double in the source: where the exact product lies half way
    between two integers, or within a rounding error of it, the two
    roundings can differ by one. *)
Definition getWordDuration (r : t) (word : jsstring)
  (analysis : option CE.Analysis) : number :=
  let c := config r in
  let baseInterval := ndiv (Num 60000) (wpm c) in
  let adaptive :=
    match analysis with
    | Some a =>
        if adaptiveMode c && ntruthy (CE.multiplier a)
        then Some a else None
    | None => None
    end in
  match adaptive with
  | Some a => nround (nmul baseInterval (CE.multiplier a))
  | None =>
      let multiplier := 1%Q in
      let multiplier :=
        if pauseAtPunctuation c then
          if endPunctuation word
          then (multiplier * (punctuationMultiplier c * 1.2))%Q
          else if midPunctuation word
          then (multiplier * punctuationMultiplier c)%Q
          else multiplier
        else multiplier in
      let multiplier :=
        if extraTimeForLongWords c then
          let cleanLength := CE.len (keep isWord word) in
          if cleanLength >? longWordThreshold c
          then (multiplier * longWordMultiplier c)%Q else multiplier
        else multiplier in
      nround (nmul baseInterval (Num multiplier))
  end.

(** [if (this.timeoutId) { clearTimeout(this.timeoutId);
    this.timeoutId = null; }]: the identifiers of the host are positive
    numbers, so an identifier is truthy. *)
Definition cancelPending : M unit :=
  r ← this;
  match timeoutId r with
  | Some id => clearTimeout id;; modify (set_timeoutId None)
  | None => mret tt
  end.

(** *** load *)

Definition load (text : jsstring) (now : Z) : M Z :=
  modify (fun r =>
    set_skipCount 0 (set_totalPausedDuration 0 (set_playing false false
      (set_currentIndex 0 (set_text (parseText text) (tokens r) r)))));;
  cancelPending;;
  modify (fun r =>
    set_cognitive
      (CE.updateFatigue CE.EvStart now (CE.reset (cognitive r)))
      (set_text (words r) (CE.preprocessText text) r));;
  r ← this;
  notify (onStateChange (loaded (CE.len (words r))));;
  mret (CE.len (words r)).

(** *** getCurrentWord *)

(** [{ word, index: this.currentIndex }] *)
Definition bareToken (word : jsstring) (index : Z) : CE.Token :=
  {| CE.word := word; CE.index := index; CE.paragraphIndex := None;
     CE.sentencePosition := None; CE.isLastInParagraph := false;
     CE.isLastWord := false; CE.collocation := None |}.

Definition percent (n d : Z) : Q := (inject_Z n / inject_Z d * 100)%Q.

(** A cursor below zero reads [undefined] from [words]; the first use of
    that word as a string throws, before anything is written. *)
Definition getCurrentWord : M (option CurrentWord) :=
  r ← this;
  if currentIndex r >=? CE.len (words r) then mret None
  else
    match at_ (words r) (currentIndex r) with
    | None => throw
    | Some word =>
        let token :=
          default (bareToken word (currentIndex r))
            (at_ (tokens r) (currentIndex r)) in
        analysis ←
          (if adaptiveMode (config r) then
             let '(analysis, ce) := CE.analyzeToken token (cognitive r) in
             modify (set_cognitive ce);;
             notify (onAnalysis analysis);;
             mret (Some analysis)
           else mret None);
        let orp := calculateORP word analysis in
        shown ←
          (match CE.collocation token with
           | Some c =>
               if skipCount r =? 0 then
                 modify (set_skipCount (CE.length c - 1));;
                 mret (CE.display c, true)
               else mret (word, false)
           | None => mret (word, false)
           end);
        mret (Some
          {| word := word;
             displayText := fst shown;
             isCollocation := snd shown;
             index := currentIndex r;
             total := CE.len (words r);
             progress :=
               if CE.len (words r) >? 0
               then percent (currentIndex r) (CE.len (words r)) else 0;
             prefix := CE.prefix orp;
             focus := CE.focus orp;
             suffix := CE.suffix orp;
             prevWord :=
               if currentIndex r >? 0
               then at_ (words r) (currentIndex r - 1) else None;
             nextWord :=
               if currentIndex r <? CE.len (words r) - 1
               then at_ (words r) (currentIndex r + 1) else None;
             analysis := analysis |})
    end.

(** *** complete *)

Definition complete (now : Z) : M unit :=
  modify (set_playing false false);;
  r ← this;
  let elapsed := now - default 0 (startTime r) - totalPausedDuration r in
  let duration :=
    if truthy (startTime r) then (inject_Z elapsed / 1000)%Q else 0%Q in
  let stats :=
    {| wordCount := CE.len (words r);
       duration := duration;
       actualWPM :=
         if Qgtb duration 0
         then round (inject_Z (CE.len (words r)) / duration * 60) else 0;
       fatigue := CE.getFatigueStatus (cognitive r);
       comprehension := CE.assessComprehension (cognitive r) |} in
  notify (onStateChange (completed stats));;
  notify (onComplete stats).

(** *** showNextWord *)

Definition schedule (delay now : Z) : M unit :=
  id ← setTimeout delay now;
  modify (set_timeoutId (Some id)).

Definition showNextWord (now : Z) : M unit :=
  r ← this;
  if skipCount r >? 0 then
    modify (fun r => set_skipCount (skipCount r - 1) r);;
    modify (fun r => set_currentIndex (currentIndex r + 1) r);;
    r ← this;
    when (isPlaying r && (currentIndex r <? CE.len (words r)))
      (schedule 10 now)
  else if currentIndex r >=? CE.len (words r) then complete now
  else
    currentWord ← getCurrentWord;
    updateFatigue CE.EvWord now;;
    notify (onWordChange currentWord);;
    r ← this;
    notify (onProgress (currentIndex r + 1) (CE.len (words r))
              (percent (currentIndex r + 1) (CE.len (words r))));;
    modify (fun r => set_currentIndex (currentIndex r + 1) r);;
    r ← this;
    if isPlaying r && (currentIndex r <? CE.len (words r)) then
      match currentWord with
      | Some w =>
          schedule (delayOf (getWordDuration r (word w) (analysis w))) now
      | None => throw
      end
    else if currentIndex r >=? CE.len (words r) then complete now
    else mret tt.

(** *** play, pause, toggle *)

Definition play (now : Z) : M bool :=
  r ← this;
  if CE.len (words r) =? 0 then mret false
  else
    when (currentIndex r >=? CE.len (words r)) (modify (set_currentIndex 0));;
    modify (set_playing true false);;
    r ← this;
    when (truthy (pauseStartTime r))
      (let pauseDuration := now - default 0 (pauseStartTime r) in
       updateFatigue (CE.EvResume (Some pauseDuration)) now;;
       modify (set_pauseStartTime None));;
    r ← this;
    (if truthy (pausedTime r) then
       modify (fun r =>
         set_pausedTime None
           (set_totalPausedDuration
              (totalPausedDuration r + (now - default 0 (pausedTime r))) r))
     else when (negb (truthy (startTime r)))
            (modify (set_startTime (Some now))));;
    notify (onStateChange playing);;
    showNextWord now;;
    mret true.

Definition pause (now : Z) : M bool :=
  r ← this;
  if negb (isPlaying r) then mret false
  else
    modify (fun r =>
      set_pauseStartTime (Some now)
        (set_pausedTime (Some now) (set_playing false true r)));;
    cancelPending;;
    updateFatigue (CE.EvPause None) now;;
    notify (onStateChange paused);;
    mret true.

Definition toggle (now : Z) : M bool :=
  r ← this;
  if isPlaying r then pause now else play now.

(** *** restart, goToWord, next, prev, jump *)

Definition restart (now : Z) : M unit :=
  pause now;;
  modify (fun r =>
    set_skipCount 0 (set_totalPausedDuration 0 (set_pausedTime None
      (set_startTime None (set_currentIndex 0 r)))));;
  modify (fun r =>
    set_cognitive
      (CE.updateFatigue CE.EvStart now (CE.reset (cognitive r))) r);;
  currentWord ← getCurrentWord;
  r ← this;
  when (bool_decide (is_Some currentWord))
    (notify (onWordChange currentWord);;
     notify (onProgress 1 (CE.len (words r)) 0));;
  notify (onStateChange ready).

(** The common end of [goToWord], [next] and [prev]. *)
Definition showCurrent : M unit :=
  currentWord ← getCurrentWord;
  r ← this;
  when (bool_decide (is_Some currentWord))
    (notify (onWordChange currentWord);;
     notify (onProgress (currentIndex r + 1) (CE.len (words r))
               (percent (currentIndex r + 1) (CE.len (words r))))).

Definition goToWord (index : Z) (now : Z) : M unit :=
  r ← this;
  let index := if index <? 0 then 0 else index in
  let index :=
    if index >=? CE.len (words r) then CE.len (words r) - 1 else index in
  let wasPlaying := isPlaying r in
  when wasPlaying (pause now;; mret tt);;
  modify (fun r => set_skipCount 0 (set_currentIndex index r));;
  showCurrent;;
  when wasPlaying (play now;; mret tt).

Definition next (now : Z) : M unit :=
  r ← this;
  when (currentIndex r <? CE.len (words r) - 1)
    (let wasPlaying := isPlaying r in
     when wasPlaying (pause now;; mret tt);;
     modify (fun r => set_skipCount 0 (set_currentIndex (currentIndex r + 1) r));;
     showCurrent;;
     when wasPlaying (play now;; mret tt)).

Definition prev (now : Z) : M unit :=
  r ← this;
  when (currentIndex r >? 0)
    (let wasPlaying := isPlaying r in
     when wasPlaying (pause now;; mret tt);;
     modify (fun r => set_skipCount 0 (set_currentIndex (currentIndex r - 1) r));;
     updateFatigue CE.EvRewind now;;
     showCurrent;;
     when wasPlaying (play now;; mret tt)).

Definition jump (count : Z) (now : Z) : M unit :=
  r ← this;
  let newIndex :=
    Z.max 0 (Z.min (CE.len (words r) - 1) (currentIndex r + count)) in
  when (count <? 0) (updateFatigue CE.EvRewind now);;
  goToWord newIndex now.

(** *** Settings *)

(** [wpm] is the argument as [Math.min] reads it, a number: an argument that
    is [undefined], or text that is no numeral, reads as [NaN].  An argument
    that cannot be read as a number at all (a BigInt, a Symbol) makes
    [Math.min] throw and is no value of this type. *)
Definition setWPM (n : number) : M number :=
  modify (fun r =>
    set_config (withWpm (nmax (Num 50) (nmin (Num 1500) n)) (config r)) r);;
  r ← this;
  mret (wpm (config r)).

Definition getWPM : M number :=
  r ← this;
  mret (wpm (config r)).

Definition setMode (mode : string) : M (option CE.ModeValue) :=
  r ← this;
  let '(result, ce) := CE.setMode mode (cognitive r) in
  modify (set_cognitive ce);;
  mret result.

Definition setAdaptiveMode (enabled : bool) : M unit :=
  modify (fun r => set_config (withAdaptiveMode enabled (config r)) r).

Definition updateConfig (newConfig : Options) : M unit :=
  modify (fun r => set_config (assign (config r) newConfig) r).

(** *** destroy *)

Definition destroy : M unit :=
  cancelPending;;
  modify (fun r =>
    set_cognitive (CE.reset (cognitive r))
      (set_playing false false (set_text [] [] r))).

(** *** The host runs a scheduled step

    A step that is still pending and whose delay has elapsed at [now] is
    taken off the list and its callback, [showNextWord], is called. *)

Definition due (id : nat) (now : Z) (m : Machine) : bool :=
  existsb (fun p => (fst p =? id)%nat && (snd p <=? now)) (pending m).

Definition fire (id : nat) (now : Z) : M unit := fun m =>
  if due id now m then (clearTimeout id;; showNextWord now) m
  else (Ok tt, m).

(** *** Runs of the engine *)

Inductive Command :=
| Load (text : jsstring)
| Play
| Pause
| Toggle
| Restart
| GoToWord (index : Z)
| Next
| Prev
| Jump (count : Z)
| SetWPM (n : number)
| SetMode (mode : string)
| SetAdaptiveMode (enabled : bool)
| UpdateConfig (newConfig : Options)
| GetCurrentWord
| Fire (id : nat).

Definition ignore {A} (c : M A) : M unit := c;; mret tt.

Definition perform (c : Command) (now : Z) : M unit :=
  match c with
  | Load text => ignore (load text now)
  | Play => ignore (play now)
  | Pause => ignore (pause now)
  | Toggle => ignore (toggle now)
  | Restart => restart now
  | GoToWord index => goToWord index now
  | Next => next now
  | Prev => prev now
  | Jump count => jump count now
  | SetWPM n => ignore (setWPM n)
  | SetMode mode => ignore (setMode mode)
  | SetAdaptiveMode enabled => setAdaptiveMode enabled
  | UpdateConfig newConfig => updateConfig newConfig
  | GetCurrentWord => ignore getCurrentWord
  | Fire id => fire id now
  end.

(** The machine after a call; an exception reaches the caller and the
    instance stays as the call left it. *)
Definition exec {A} (c : M A) (m : Machine) : Machine := snd (c m).

Definition step (m : Machine) (e : Command * Z) : Machine :=
  exec (perform (fst e) (snd e)) m.

Definition run (es : list (Command * Z)) (m : Machine) : Machine :=
  fold_left step es m.

(** The notifications of a kind in a log. *)
Definition isWordChange (n : Notification) : bool :=
  match n with onWordChange _ => true | _ => false end.

Definition wordChanges (m : Machine) : nat :=
  List.length (List.filter isWordChange (log m)).

End SpeedReader.

(** ** Runs, samples and observations used by the properties *)

(** The analyzer fed a sequence of tokens, in order. *)
Definition analyzeAll (tokens : list CE.Token) (ce : CE.t) : CE.t :=
  fold_left (fun ce token => snd (CE.analyzeToken token ce)) tokens ce.

(** The normalized word the analyzer tracks for a token. *)
Definition tracked (token : CE.Token) : jsstring := CE.cleanWord (CE.word token).

(** A word takes part in concept tracking. *)
Definition eligible (token : CE.Token) : Prop := 4 < CE.len (tracked token).

(** The last [n] elements of a list. *)
Definition lastn {A} (n : nat) (l : list A) : list A :=
  skipn (List.length l - n) l.

Definition inUnit (q : Q) : Prop := (0 <= q /\ q <= 1)%Q.

Definition levelOf (ce : CE.t) : Q := CE.fatigueLevel (CE.fatigue ce).

(** Twenty-six distinct words of five letters, as bare tokens. *)
Definition sampleWords : list string :=
  ["apple"; "bread"; "chair"; "dance"; "eagle"; "flame"; "grape"; "house";
   "ivory"; "jelly"; "knife"; "lemon"; "mango"; "night"; "ocean"; "piano";
   "queen"; "river"; "stone"; "tiger"; "uncle"; "voice"; "water"; "xenon";
   "youth"; "zebra"].

Definition sampleTokens : list CE.Token :=
  imap (fun i w => SpeedReader.bareToken (str w) (Z.of_nat i)) sampleWords.

(** The three parts of a focus split, put together again. *)
Definition whole (orp : CE.ORP) : jsstring :=
  CE.prefix orp ++ CE.focus orp ++ CE.suffix orp.

(** A new engine after [load(text)] at the instant 1000. *)
Definition loadedWith (text : string) : SpeedReader.Machine :=
  SpeedReader.exec (SpeedReader.load (str text) 1000)
    (SpeedReader.boot SpeedReader.noOptions).

(** The analysis in what [getCurrentWord] returned. *)
Definition analysisOf (r : SpeedReader.Result (option SpeedReader.CurrentWord))
  : option CE.Analysis :=
  match r with
  | SpeedReader.Ok (Some w) => SpeedReader.analysis w
  | _ => None
  end.

Definition memoryOf (m : SpeedReader.Machine) : gmap jsstring Z :=
  CE.conceptMemory (SpeedReader.cognitive (SpeedReader.reader m)).

Definition recentOf (m : SpeedReader.Machine) : list jsstring :=
  CE.recentWords (SpeedReader.cognitive (SpeedReader.reader m)).

Definition cursorOf (m : SpeedReader.Machine) : Z :=
  SpeedReader.currentIndex (SpeedReader.reader m).

Definition skipCountOf (m : SpeedReader.Machine) : Z :=
  SpeedReader.skipCount (SpeedReader.reader m).

Definition playingIn (m : SpeedReader.Machine) : bool :=
  SpeedReader.isPlaying (SpeedReader.reader m).

Definition wpmOf (m : SpeedReader.Machine) : number :=
  SpeedReader.wpm (SpeedReader.config (SpeedReader.reader m)).

(** The counters of rewinds and of pauses, of the fatigue record and of the
    comprehension record, and the fatigue level. *)
Definition rewindsOf (m : SpeedReader.Machine) : Z * Z :=
  (CE.rewinds (CE.fatigue (SpeedReader.cognitive (SpeedReader.reader m))),
   CE.rewindCount (CE.comprehension (SpeedReader.cognitive (SpeedReader.reader m)))).

Definition pausesOf (m : SpeedReader.Machine) : Z * Z :=
  (CE.pauses (CE.fatigue (SpeedReader.cognitive (SpeedReader.reader m))),
   CE.pauseCount (CE.comprehension (SpeedReader.cognitive (SpeedReader.reader m)))).

Definition fatigueLevelOf (m : SpeedReader.Machine) : Q :=
  levelOf (SpeedReader.cognitive (SpeedReader.reader m)).

(** The texts shown by the [onWordChange] notifications of a log. *)
Definition shown (m : SpeedReader.Machine) : list jsstring :=
  omap (fun n => match n with
                 | SpeedReader.onWordChange (Some w) =>
                     Some (SpeedReader.displayText w)
                 | _ => None
                 end) (SpeedReader.log m).

(** The object [{ wpm: v }]. *)
Definition onlyWpm (v : Q) : SpeedReader.Options :=
  {| SpeedReader.opt_wpm := Some (Num v);
     SpeedReader.opt_pauseAtPunctuation := None;
     SpeedReader.opt_extraTimeForLongWords := None;
     SpeedReader.opt_adaptiveMode := None;
     SpeedReader.opt_longWordThreshold := None;
     SpeedReader.opt_punctuationMultiplier := None;
     SpeedReader.opt_longWordMultiplier := None |}.

(** A call leaves an observation of the machine as it was. *)
Definition keeps {A X} (g : SpeedReader.Machine -> X) (c : SpeedReader.M A) : Prop :=
  forall m, g (SpeedReader.exec c m) = g m.

(** A call returns: it does not throw. *)
Definition returns {A} (c : SpeedReader.M A) : Prop :=
  forall m, exists a, fst (c m) = SpeedReader.Ok a.

(** Both counters of a pair one up. *)
Definition bump (p : Z * Z) : Z * Z := (fst p + 1, snd p + 1).

Definition rewindsIn (ce : CE.t) : Z * Z :=
  (CE.rewinds (CE.fatigue ce), CE.rewindCount (CE.comprehension ce)).

(** What the scheduler depends on. *)
Definition schedulerOf (m : SpeedReader.Machine)
  : bool * option nat * list (nat * Z) :=
  (playingIn m, SpeedReader.timeoutId (SpeedReader.reader m),
   SpeedReader.pending m).

Definition idle (m : SpeedReader.Machine) : Prop := SpeedReader.pending m = [].

(** At most one step is pending; if there is one, the engine is playing and
    [timeoutId] holds its identifier. *)
Definition onePending (m : SpeedReader.Machine) : Prop :=
  match SpeedReader.pending m with
  | [] => True
  | [p] => playingIn m = true
           /\ SpeedReader.timeoutId (SpeedReader.reader m) = Some (fst p)
  | _ => False
  end.

(** The callers of the repository call [play] on an engine that is not
    playing: [toggle], [goToWord], [next] and [prev] of the class, and
    [togglePlayPause] of the application, test [isPlaying] first. *)
Definition guarded (m : SpeedReader.Machine) (c : SpeedReader.Command) : Prop :=
  match c with
  | SpeedReader.Play => playingIn m = false
  | _ => True
  end.

(** The machines such callers and the host can bring about. *)
Inductive guardedRun : SpeedReader.Machine -> Prop :=
| guardedRun_boot (options : SpeedReader.Options) :
    guardedRun (SpeedReader.boot options)
| guardedRun_step (m : SpeedReader.Machine) (c : SpeedReader.Command) (now : Z) :
    guardedRun m -> guarded m c ->
    guardedRun (SpeedReader.step m (c, now)).

(** From a machine that satisfies [P], the call leaves one that satisfies
    [Q], whether it returns or throws. *)
Definition ensures {A} (P : SpeedReader.Machine -> Prop) (c : SpeedReader.M A)
  (Q : SpeedReader.Machine -> Prop) : Prop :=
  forall m, P m -> Q (SpeedReader.exec c m).

(** The position of the focus in the word without its marks. *)
Definition focusIndex (w : jsstring) (analysis : option CE.Analysis) : Z :=
  let length := CE.len (keep isWord w) in
  Z.max 0 (Z.min (length - 1) (CE.baseOrpIndex length + CE.offsetOf analysis)).

(** The letters of a string, counted. *)
Definition letters (w : jsstring) : Z := CE.len (keep isWord w).

(** A loaded engine that played one word and was paused, by a caller that
    calls [play] on an engine at rest. *)
Definition pausedSample : SpeedReader.Machine :=
  SpeedReader.step
    (SpeedReader.step
       (SpeedReader.step (SpeedReader.boot SpeedReader.noOptions)
          (SpeedReader.Load (str "one two three four"), 1000))
       (SpeedReader.Play, 2000))
    (SpeedReader.Pause, 2050).

(** The words of a string: what [s.split(/\s+/).filter(w => w.length > 0)]
    returns. *)
Definition wordsOf (s : jsstring) : list jsstring :=
  List.filter CE.nonEmpty (splitSpaces s).

(** The word that ends where white space begins, if it has a code unit. *)
Definition emit (piece : jsstring) : list jsstring :=
  List.filter CE.nonEmpty [rev piece].

(** The words of a string read from the left, [piece] being the reversed
    start of the word the reading is in. *)
Fixpoint wordsAux (piece : jsstring) (s : jsstring) : list jsstring :=
  match s with
  | [] => emit piece
  | c :: r =>
      if isSpace c then emit piece ++ wordsAux [] r
      else wordsAux (c :: piece) r
  end.

Definition afterLoad (text : jsstring) (now : Z) (m : SpeedReader.Machine)
  : SpeedReader.Machine :=
  SpeedReader.exec (SpeedReader.load text now) m.

(** A collocation attached to the token at position [i] of a token stream
    is in place: it has two to four words, they are the words of the tokens
    from [i] on, and the stream is long enough to hold them. *)
Definition inPlace (tokens : list CE.Token) (i : nat) (c : CE.Collocation)
  : Prop :=
  2 <= CE.length c <= 4
  /\ Z.of_nat i + CE.length c <= CE.len tokens
  /\ CE.words c
     = map CE.word (firstn (Z.to_nat (CE.length c)) (skipn i tokens)).

(** Every collocation of a token stream is in place. *)
Definition collocationsInPlace (tokens : list CE.Token) : Prop :=
  forall (i : nat) (token : CE.Token) (c : CE.Collocation),
    tokens !! i = Some token -> CE.collocation token = Some c ->
    inPlace tokens i c.

(** The tokens a collocation at position [i] covers are tokens of one
    paragraph, the paragraph of the token at [i]. *)
Definition inOneParagraph (tokens : list CE.Token) (i : nat)
  (c : CE.Collocation) : Prop :=
  forall (j : nat) (first other : CE.Token),
    Z.of_nat j < CE.length c ->
    tokens !! i = Some first -> tokens !! (i + j)%nat = Some other ->
    CE.paragraphIndex other = CE.paragraphIndex first.

Definition collocationsInParagraphs (tokens : list CE.Token) : Prop :=
  forall (i : nat) (token : CE.Token) (c : CE.Collocation),
    tokens !! i = Some token -> CE.collocation token = Some c ->
    inOneParagraph tokens i c.

(** The text an engine reads and its place in it. *)
Definition placeOf (m : SpeedReader.Machine)
  : list jsstring * list CE.Token * Z * Z :=
  (SpeedReader.words (SpeedReader.reader m),
   SpeedReader.tokens (SpeedReader.reader m),
   cursorOf m, skipCountOf m).

Definition wordCountOf (m : SpeedReader.Machine) : Z :=
  CE.len (SpeedReader.words (SpeedReader.reader m)).

(** The consistency the engine keeps: the tokens are the tokens of the
    words, their collocations are in place, the words still to be skipped
    are words of the text, and the cursor is a position of the text or its
    end; on an engine with no words the cursor may be -1. *)
Definition consistent (m : SpeedReader.Machine) : Prop :=
  map CE.word (SpeedReader.tokens (SpeedReader.reader m))
  = SpeedReader.words (SpeedReader.reader m)
  /\ collocationsInPlace (SpeedReader.tokens (SpeedReader.reader m))
  /\ 0 <= skipCountOf m
  /\ cursorOf m + skipCountOf m <= wordCountOf m
  /\ (0 <= cursorOf m
      \/ (cursorOf m = -1 /\ wordCountOf m = 0 /\ skipCountOf m = 0)).

(** The machine is consistent and reads the text of [m0]. *)
Definition consistentOn (m0 m : SpeedReader.Machine) : Prop :=
  consistent m
  /\ SpeedReader.words (SpeedReader.reader m)
     = SpeedReader.words (SpeedReader.reader m0)
  /\ cursorOf m = cursorOf m0.

(** What [getCurrentWord] returns, as the caller sees it: a word, [null],
    or an exception. *)
Definition currentWordOf (m : SpeedReader.Machine)
  : SpeedReader.Result (option SpeedReader.CurrentWord) :=
  fst (SpeedReader.getCurrentWord m).

Definition threw {A} (r : SpeedReader.Result A) : Prop :=
  r = SpeedReader.TypeError.

Definition allSpaces (text : jsstring) : Prop :=
  Forall (fun c => isSpace c = true) text.

(** The tags of the analysis of a token. *)
Definition tagsOf (token : CE.Token) (ce : CE.t) : list string :=
  CE.factors (fst (CE.analyzeToken token ce)).

(** No tag of an analysis is the acronym tag. *)
Definition acronymFree (a : CE.Analysis) : Prop :=
  ~ In "acronym"%string (CE.factors a).

(** The count the concept memory holds for a word, 0 if it holds none. *)
Definition countOf (ce : CE.t) (w : jsstring) : Z :=
  default 0 (CE.conceptMemory ce !! w).

(** The multiplier of an analysis is a finite number. *)
Definition finiteMultiplier (a : CE.Analysis) : Prop :=
  exists q, CE.multiplier a = Num q.

(** A property of analyses that the writes of the six steps before the
    reading mode keep: a factor with a tag other than the acronym tag, and
    a focus offset. *)
Definition keptByFactors (P : CE.Analysis -> Prop) : Prop :=
  (forall m tag a,
     tag <> "acronym"%string -> P a -> P (CE.applyFactor m tag a))
  /\ (forall o a, P a -> P (CE.setOrpOffset o a)).

(** The analysis [analyzeToken] starts from, and the one its six steps
    before the reading mode make of it, with the analyzer they leave. *)
Definition startOf (token : CE.Token) : CE.Analysis :=
  {| CE.original := CE.word token; CE.display_ := CE.word token;
     CE.multiplier := Num 1.0; CE.factors := [];
     CE.isChunkStart := false; CE.chunkWords := None; CE.orpOffset := 0 |}.

Definition beforeMode (token : CE.Token) (ce : CE.t) : CE.Analysis * CE.t :=
  let clean := CE.cleanWord (CE.word token) in
  CE.conceptStep clean ce
    (CE.tokenTypeStep (CE.word token) clean
       (CE.semanticStep clean
          (CE.frequencyStep clean
             (CE.lengthStep clean
                (CE.punctuationStep token (startOf token)))))).

(** The analyzer of a new engine after [setMode(name)]. *)
Definition inMode (name : string) : CE.t := snd (CE.setMode name CE.new).

(** The token [getCurrentWord] analyses: the token at the cursor, or a
    bare token of the word there when [tokens] holds none. *)
Definition tokenAtCursor (m : SpeedReader.Machine) : option CE.Token :=
  word ← at_ (SpeedReader.words (SpeedReader.reader m)) (cursorOf m);
  Some (default (SpeedReader.bareToken word (cursorOf m))
          (at_ (SpeedReader.tokens (SpeedReader.reader m)) (cursorOf m))).

Definition adaptiveIn (m : SpeedReader.Machine) : bool :=
  SpeedReader.adaptiveMode (SpeedReader.config (SpeedReader.reader m)).

(** The session memory of the analyzer: the concept counts and the recent
    window. *)
Definition sessionIn (ce : CE.t) : gmap jsstring Z * list jsstring :=
  (CE.conceptMemory ce, CE.recentWords ce).

Definition sessionOf (m : SpeedReader.Machine)
  : gmap jsstring Z * list jsstring :=
  sessionIn (SpeedReader.cognitive (SpeedReader.reader m)).

(** The analyzer counts an occurrence of a tracked word when the word is
    new and outside the high-frequency set, or is in the recent window. *)
Definition counted (ce : CE.t) (w : jsstring) : bool :=
  negb (bool_decide (is_Some (CE.conceptMemory ce !! w)))
    && negb (CE.has CE.highFrequency w)
  || bool_decide (w ∈ CE.recentWords ce).

(** The concept counts after the analysis of a tracked word. *)
Definition countedIn (ce : CE.t) (w : jsstring) : gmap jsstring Z :=
  if counted ce w
  then <[w := countOf ce w + 1]> (CE.conceptMemory ce)
  else CE.conceptMemory ce.

(** [skipCount] after [getCurrentWord] has read a token: a collocation read
    while nothing is to be skipped sets it. *)
Definition skipAfter (token : CE.Token) (skipCount : Z) : Z :=
  match CE.collocation token with
  | Some c => if skipCount =? 0 then CE.length c - 1 else skipCount
  | None => skipCount
  end.

(** ** Properties of the analyzer *)

(** Conjunctions are split; equations are left to evaluation. *)
Ltac split_all := repeat match goal with |- _ /\ _ => split end.

Section Rationals.

Lemma Qmax_cases (a b : Q) :
  (Qmax a b = b /\ (a <= b)%Q) \/ (Qmax a b = a /\ (b < a)%Q).
Proof.
  unfold Qmax. destruct (Qle_bool a b) eqn:E.
  - left. split; [reflexivity | now apply Qle_bool_iff].
  - right. split; [reflexivity |].
    apply Qnot_le_lt. intros H. apply Qle_bool_iff in H. congruence.
Qed.

Lemma Qmin_cases (a b : Q) :
  (Qmin a b = a /\ (a <= b)%Q) \/ (Qmin a b = b /\ (b < a)%Q).
Proof.
  unfold Qmin. destruct (Qle_bool a b) eqn:E.
  - left. split; [reflexivity | now apply Qle_bool_iff].
  - right. split; [reflexivity |].
    apply Qnot_le_lt. intros H. apply Qle_bool_iff in H. congruence.
Qed.

Lemma clamp_bounds (lo hi q : Q) :
  (lo <= hi)%Q -> (lo <= Qmax lo (Qmin hi q) /\ Qmax lo (Qmin hi q) <= hi)%Q.
Proof.
  intros Hlh.
  destruct (Qmin_cases hi q) as [[E1 H1] | [E1 H1]];
    destruct (Qmax_cases lo (Qmin hi q)) as [[E2 H2] | [E2 H2]];
    rewrite E2; rewrite ?E1 in *; split; lra.
Qed.

End Rationals.

(** *** Reading an array *)

Section Arrays.

Lemma nth_error_lookup {A} (l : list A) (n : nat) : nth_error l n = l !! n.
Proof. revert n. induction l; intros [| n]; cbn; auto. Qed.

Lemma at_Some {A} (l : list A) (i : Z) (x : A) :
  at_ l i = Some x ->
  0 <= i < CE.len l /\ l !! Z.to_nat i = Some x.
Proof.
  unfold at_, CE.len. destruct (Z.ltb_spec i 0) as [Hneg | Hpos];
    [discriminate |].
  rewrite nth_error_lookup. intros Hx. split; [| exact Hx].
  apply lookup_lt_Some in Hx. lia.
Qed.

End Arrays.

(** *** The steps of [analyzeToken] *)

Section Steps.

Lemma isUpper_lowerAscii (c : N) : isUpper (lowerAscii c) = false.
Proof.
  unfold lowerAscii. destruct (isUpper c) eqn:E; [| exact E].
  unfold isUpper, inRange in *. apply andb_prop in E as [Hlo Hhi].
  apply N.leb_le in Hlo, Hhi. apply andb_false_iff. right.
  apply N.leb_gt. lia.
Qed.

(** The acronym pattern asks for capital letters, of a word that was put
    in lower case first. *)
Lemma acronymPattern_cleanWord (w : jsstring) :
  CE.acronymPattern (CE.cleanWord w) = false.
Proof.
  unfold CE.acronymPattern, CE.cleanWord, cls.
  destruct (keep _ w) as [| c r]; [reflexivity |].
  cbn [map]. now rewrite isUpper_lowerAscii.
Qed.

(** [analyzeToken] is its six first steps, then the reading mode, the
    fatigue and the clamp. *)
Lemma analyzeToken_steps (token : CE.Token) (ce : CE.t) :
  CE.analyzeToken token ce =
    (CE.clampStep
       (CE.fatigueStep (snd (beforeMode token ce))
          (CE.modeStep (snd (beforeMode token ce))
             (fst (beforeMode token ce)))),
     snd (beforeMode token ce)).
Proof.
  unfold CE.analyzeToken, beforeMode, startOf.
  now destruct (CE.conceptStep _ _ _).
Qed.

(** One step: its branches are taken apart and each write is one that the
    property is kept by. *)
Ltac kept_step Hfactor Hoffset :=
  repeat match goal with
         | H : ?P ?a |- ?P ?a => exact H
         | |- _ (if ?b then _ else _) => destruct b
         | |- _ (CE.applyFactor _ _ _) => apply Hfactor; [discriminate |]
         | |- _ (CE.setOrpOffset _ _) => apply Hoffset
         end.

Lemma beforeMode_keeps (P : CE.Analysis -> Prop) (token : CE.Token) (ce : CE.t) :
  keptByFactors P -> P (startOf token) -> P (fst (beforeMode token ce)).
Proof.
  intros [Hfactor Hoffset] Hstart. unfold beforeMode.
  set (clean := CE.cleanWord (CE.word token)).
  assert (H1 : P (CE.punctuationStep token (startOf token)))
    by (unfold CE.punctuationStep; kept_step Hfactor Hoffset).
  revert H1. generalize (CE.punctuationStep token (startOf token)) as a1.
  intros a1 H1.
  assert (H2 : P (CE.lengthStep clean a1))
    by (unfold CE.lengthStep; cbv zeta; kept_step Hfactor Hoffset).
  revert H2. generalize (CE.lengthStep clean a1) as a2. clear a1 H1.
  intros a2 H2.
  assert (H3 : P (CE.frequencyStep clean a2))
    by (unfold CE.frequencyStep; kept_step Hfactor Hoffset).
  revert H3. generalize (CE.frequencyStep clean a2) as a3. clear a2 H2.
  intros a3 H3.
  assert (H4 : P (CE.semanticStep clean a3))
    by (unfold CE.semanticStep; cbv zeta; kept_step Hfactor Hoffset).
  revert H4. generalize (CE.semanticStep clean a3) as a4. clear a3 H3.
  intros a4 H4.
  assert (H5 : P (CE.tokenTypeStep (CE.word token) clean a4)).
  { unfold CE.tokenTypeStep. cbv zeta. subst clean.
    rewrite acronymPattern_cleanWord. kept_step Hfactor Hoffset. }
  revert H5. generalize (CE.tokenTypeStep (CE.word token) clean a4) as a5.
  clear a4 H4. intros a5 H5.
  unfold CE.conceptStep.
  destruct (_ >? 4); [| exact H5].
  destruct (negb _ && negb _); [| destruct (bool_decide _)];
    cbn [fst]; kept_step Hfactor Hoffset.
Qed.

Lemma beforeMode_currentMode (token : CE.Token) (ce : CE.t) :
  CE.currentMode (snd (beforeMode token ce)) = CE.currentMode ce.
Proof.
  unfold beforeMode, CE.conceptStep.
  destruct (_ >? 4); [| reflexivity].
  destruct (negb _ && negb _); [reflexivity |].
  destruct (bool_decide _); reflexivity.
Qed.

Lemma finiteMultiplier_kept : keptByFactors finiteMultiplier.
Proof.
  split.
  - intros m tag a _ [q Hq]. exists (q * m)%Q. cbn. now rewrite Hq.
  - intros o a H. exact H.
Qed.

Lemma finiteMultiplier_scale (x : Q) (a : CE.Analysis) :
  finiteMultiplier a -> finiteMultiplier (CE.scale (Num x) a).
Proof. intros [q Hq]. exists (q * x)%Q. cbn. now rewrite Hq. Qed.

Lemma modeStep_finite (ce : CE.t) (mode : CE.Mode) (a : CE.Analysis) :
  CE.currentMode ce = CE.own mode ->
  finiteMultiplier a -> finiteMultiplier (CE.modeStep ce a).
Proof.
  intros Hmode H. unfold CE.modeStep. rewrite Hmode. cbv zeta.
  cbn [CE.modeValue CE.baseMultiplierOf CE.complexityWeightOf
       nsub nneg nadd nmul].
  destruct (_ >? 0); repeat apply finiteMultiplier_scale; exact H.
Qed.

Lemma fatigueStep_finite (ce : CE.t) (a : CE.Analysis) :
  finiteMultiplier a -> finiteMultiplier (CE.fatigueStep ce a).
Proof.
  intros H. unfold CE.fatigueStep. cbv zeta.
  destruct (Qgtb _ 0); [| exact H].
  apply (finiteMultiplier_scale (1 + CE.fatigueLevel (CE.fatigue ce) * 0.3))
    in H.
  destruct (Qgtb _ 0.3); [| exact H].
  destruct H as [q Hq]. now exists q.
Qed.

(** Under one of the four modes of the table the multiplier is finite all
    the way, and the clamp bounds it. *)
Lemma analyzeToken_multiplier_in_range (token : CE.Token) (ce : CE.t)
  (mode : CE.Mode) :
  CE.currentMode ce = CE.own mode ->
  nle (Num 0.5) (CE.multiplier (fst (CE.analyzeToken token ce)))
  /\ nle (CE.multiplier (fst (CE.analyzeToken token ce))) (Num 3.5).
Proof.
  intros Hmode. rewrite analyzeToken_steps. cbn [fst].
  assert (H : finiteMultiplier
                (CE.fatigueStep (snd (beforeMode token ce))
                   (CE.modeStep (snd (beforeMode token ce))
                      (fst (beforeMode token ce))))).
  { apply fatigueStep_finite, (modeStep_finite _ mode).
    - now rewrite beforeMode_currentMode.
    - apply beforeMode_keeps; [apply finiteMultiplier_kept |].
      now exists 1.0%Q. }
  destruct H as [q Hq]. unfold CE.clampStep. cbn [CE.multiplier CE.setMultiplier].
  rewrite Hq. cbn [nmin nmax nle]. apply clamp_bounds. lra.
Qed.

Lemma nmul_NaN (a : number) : nmul a NaN = NaN.
Proof. now destruct a. Qed.

(** Under a name inherited from [Object.prototype] the mode has no
    [baseMultiplier]: the product is [NaN] and stays so through the
    clamp. *)
Lemma analyzeToken_multiplier_NaN (token : CE.Token) (ce : CE.t)
  (p : CE.ProtoName) :
  CE.currentMode ce = CE.inherited p ->
  CE.multiplier (fst (CE.analyzeToken token ce)) = NaN.
Proof.
  intros Hmode. rewrite analyzeToken_steps. cbn [fst].
  assert (H : CE.multiplier
                (CE.modeStep (snd (beforeMode token ce))
                   (fst (beforeMode token ce))) = NaN).
  { unfold CE.modeStep. rewrite beforeMode_currentMode, Hmode. cbv zeta.
    cbn [CE.modeValue CE.baseMultiplierOf CE.complexityWeightOf].
    destruct (_ >? 0); cbn [CE.scale CE.multiplier];
      now rewrite ?nmul_NaN. }
  revert H. generalize (CE.modeStep (snd (beforeMode token ce))
                          (fst (beforeMode token ce))) as a.
  intros a Ha. unfold CE.clampStep, CE.fatigueStep. cbv zeta.
  destruct (Qgtb _ 0); [destruct (Qgtb _ 0.3) |];
    cbn [CE.setMultiplier CE.pushFactor CE.scale CE.multiplier];
    now rewrite Ha.
Qed.

End Steps.

(** C2.  [setMode] stores a name when [modes[name]] is truthy, and so
    rejects "turbo" but accepts "constructor", which [modes] inherits from
    [Object.prototype].  The value found has no [baseMultiplier]: under this
    mode [analyzeToken] multiplies by [undefined], and the clamp
    [Math.max(0.5, Math.min(3.5, NaN))] is [NaN].  For every token the
    multiplier is then [NaN], which is neither at least 0.5 nor at most
    3.5; through the reader, [setMode("constructor")] on a loaded engine
    makes [getCurrentWord] return such an analysis. *)
Theorem inherited_mode_gives_NaN_multiplier :
  let ce := inMode "constructor" in
  let m := SpeedReader.exec (SpeedReader.setMode "constructor")
             (loadedWith "hello world") in
  CE.setMode "turbo" CE.new = (None, CE.new)
  /\ fst (CE.setMode "constructor" CE.new)
     = Some (CE.prototypeMember CE.p_constructor)
  /\ CE.currentMode ce = CE.inherited CE.p_constructor
  /\ (forall token : CE.Token,
        CE.multiplier (fst (CE.analyzeToken token ce)) = NaN
        /\ ~ nle (Num 0.5) (CE.multiplier (fst (CE.analyzeToken token ce)))
        /\ ~ nle (CE.multiplier (fst (CE.analyzeToken token ce))) (Num 3.5))
  /\ (CE.multiplier <$> analysisOf (fst (SpeedReader.getCurrentWord m)))
     = Some NaN.
Proof.
  cbv zeta. split; [reflexivity |]. split; [reflexivity |].
  split; [reflexivity |]. split.
  - intros token.
    rewrite (analyzeToken_multiplier_NaN token _ CE.p_constructor)
      by reflexivity.
    split; [reflexivity |]. split; intros [].
  - vm_compute. reflexivity.
Qed.

(** C6.  From a fatigue level in [0, 1]: a rewind event, and a pause event
    of more than 3000 ms, never lower the level; a resume event never raises
    it; the level stays in [0, 1] in the three cases. *)
Theorem fatigue_monotone (ce : CE.t) (now : Z) :
  inUnit (levelOf ce) ->
  ((levelOf ce <= levelOf (CE.updateFatigue CE.EvRewind now ce))%Q
   /\ inUnit (levelOf (CE.updateFatigue CE.EvRewind now ce)))
  /\ (forall duration, 3000 < duration ->
        (levelOf ce <= levelOf (CE.updateFatigue (CE.EvPause (Some duration)) now ce))%Q
        /\ inUnit (levelOf (CE.updateFatigue (CE.EvPause (Some duration)) now ce)))
  /\ (forall duration,
        (levelOf (CE.updateFatigue (CE.EvResume duration) now ce) <= levelOf ce)%Q
        /\ inUnit (levelOf (CE.updateFatigue (CE.EvResume duration) now ce))).
Proof.
  unfold inUnit, levelOf. intros [Hlo Hhi].
  split; [| split].
  - cbn. destruct (Qmin_cases 1 (CE.fatigueLevel (CE.fatigue ce) + 0.05))
      as [[E H] | [E H]]; rewrite E; lra.
  - intros duration Hd. cbn.
    assert ((duration >? 3000) = true) as -> by lia.
    cbn. destruct (Qmin_cases 1 (CE.fatigueLevel (CE.fatigue ce) + 0.03))
      as [[E H] | [E H]]; rewrite E; lra.
  - intros duration. cbn.
    destruct (Qmax_cases 0 (CE.fatigueLevel (CE.fatigue ce) - 0.02))
      as [[E H] | [E H]]; rewrite E; lra.
Qed.

Lemma fatigue_monotone_witness :
  inUnit (levelOf CE.new)
  /\ (levelOf CE.new <= levelOf (CE.updateFatigue CE.EvRewind 0 CE.new))%Q.
Proof.
  assert (H : inUnit (levelOf CE.new)) by (unfold inUnit, levelOf; cbn; lra).
  split; [exact H |].
  exact (proj1 (proj1 (fatigue_monotone CE.new 0 H))).
Defined.

(** *** The recent-words window *)

Section RecentWindow.

Lemma pushRecent_length (w : jsstring) (recent : list jsstring) :
  (List.length recent <= 25)%nat ->
  (List.length (CE.pushRecent w recent) <= 25)%nat.
Proof.
  intros H. unfold CE.pushRecent, CE.recentWindowSize.
  destruct (Nat.ltb_spec 25 (List.length (recent ++ [w]))) as [Hlt | Hge].
  - rewrite length_app in Hlt. cbn in Hlt.
    destruct recent as [| x recent']; cbn in *; [lia |].
    rewrite length_app. cbn. lia.
  - exact Hge.
Qed.

Lemma skipn_snoc_tl {A} (k : nat) (l : list A) (x : A) :
  (k < List.length l)%nat ->
  tl (skipn k l ++ [x]) = skipn (S k) (l ++ [x]).
Proof.
  revert k. induction l as [| y l IH]; intros k Hk; cbn in Hk; [lia |].
  destruct k as [| k].
  - reflexivity.
  - cbn [skipn]. rewrite IH by lia. reflexivity.
Qed.

Lemma pushRecent_lastn (w : jsstring) (l : list jsstring) :
  CE.pushRecent w (lastn 25 l) = lastn 25 (l ++ [w]).
Proof.
  unfold CE.pushRecent, CE.recentWindowSize, lastn.
  rewrite !length_app, length_skipn. cbn [List.length].
  destruct (Nat.le_gt_cases (List.length l) 24) as [Hs | Hl].
  - replace (List.length l - 25)%nat with O by lia.
    replace (List.length l + 1 - 25)%nat with O by lia.
    cbn [skipn]. rewrite Nat.sub_0_r.
    destruct (Nat.ltb_spec 25 (List.length l + 1)); [lia | reflexivity].
  - destruct (Nat.ltb_spec 25
      (List.length l - (List.length l - 25) + 1)); [| lia].
    replace (List.length l + 1 - 25)%nat with (S (List.length l - 25)) by lia.
    apply skipn_snoc_tl. lia.
Qed.

Lemma analyzeToken_recent (token : CE.Token) (ce : CE.t) :
  CE.recentWords (snd (CE.analyzeToken token ce)) =
    if CE.len (tracked token) >? 4
    then CE.pushRecent (tracked token) (CE.recentWords ce)
    else CE.recentWords ce.
Proof.
  unfold CE.analyzeToken, CE.conceptStep, tracked.
  destruct (CE.len (CE.cleanWord (CE.word token)) >? 4); [| reflexivity].
  destruct (negb _ && negb _); [reflexivity |].
  destruct (bool_decide _); reflexivity.
Qed.

Lemma analyzeAll_snoc (tokens : list CE.Token) (token : CE.Token) (ce : CE.t) :
  analyzeAll (tokens ++ [token]) ce =
    snd (CE.analyzeToken token (analyzeAll tokens ce)).
Proof. unfold analyzeAll. rewrite fold_left_app. reflexivity. Qed.

Lemma analyzeAll_window_bound (tokens : list CE.Token) (ce : CE.t) :
  (List.length (CE.recentWords ce) <= 25)%nat ->
  (List.length (CE.recentWords (analyzeAll tokens ce)) <= 25)%nat.
Proof.
  revert ce. induction tokens as [| token tokens IH]; intros ce H.
  - exact H.
  - cbn [analyzeAll fold_left]. apply IH.
    rewrite analyzeToken_recent.
    destruct (_ >? 4); [now apply pushRecent_length | exact H].
Qed.

Lemma analyzeAll_eligible (tokens : list CE.Token) (ce : CE.t) :
  Forall eligible tokens ->
  CE.recentWords (analyzeAll tokens (CE.reset ce)) =
    lastn 25 (map tracked tokens).
Proof.
  induction tokens as [| token tokens IH] using rev_ind; intros Hall.
  - reflexivity.
  - apply Forall_app in Hall as [Hall Hlast].
    apply Forall_inv in Hlast. unfold eligible in Hlast.
    rewrite analyzeAll_snoc, analyzeToken_recent, IH by exact Hall.
    apply Z.gtb_lt in Hlast. rewrite Hlast.
    rewrite map_app. cbn [map]. apply pushRecent_lastn.
Qed.

End RecentWindow.

(** C5.  From a freshly reset analyzer the recent-words window never holds
    more than 25 words; after 26 distinct words that take part in concept
    tracking it holds the last 25 of them in the order of analysis, and the
    first one is gone. *)
Theorem recent_window_holds_last_25 (ce : CE.t) (tokens : list CE.Token) :
  (forall any : list CE.Token,
      (List.length (CE.recentWords (analyzeAll any (CE.reset ce))) <= 25)%nat)
  /\ (List.length tokens = 26%nat ->
      Forall eligible tokens ->
      NoDup (map tracked tokens) ->
      CE.recentWords (analyzeAll tokens (CE.reset ce)) = tl (map tracked tokens)
      /\ List.length (CE.recentWords (analyzeAll tokens (CE.reset ce))) = 25%nat
      /\ forall first, head (map tracked tokens) = Some first ->
           first ∉ CE.recentWords (analyzeAll tokens (CE.reset ce))).
Proof.
  split.
  - intros any. apply analyzeAll_window_bound. cbn. lia.
  - intros Hlen Hall Hnodup.
    rewrite analyzeAll_eligible by exact Hall.
    unfold lastn. rewrite length_map, Hlen.
    change (26 - 25)%nat with 1%nat.
    destruct (map tracked tokens) as [| w ws] eqn:E.
    + apply (f_equal List.length) in E. rewrite length_map, Hlen in E.
      discriminate.
    + cbn [skipn tl head]. rewrite skipn_O. split; [reflexivity |]. split.
      * apply (f_equal List.length) in E. rewrite length_map, Hlen in E.
        cbn in E. lia.
      * intros first [= <-]. apply NoDup_cons in Hnodup. tauto.
Qed.

Lemma recent_window_witness :
  CE.recentWords (analyzeAll sampleTokens (CE.reset CE.new)) =
    tl (map tracked sampleTokens).
Proof.
  refine (proj1 (proj2 (recent_window_holds_last_25 CE.new sampleTokens) _ _ _)).
  - reflexivity.
  - unfold sampleTokens, sampleWords. cbn [imap].
    repeat (apply List.Forall_cons; [vm_compute; reflexivity |]).
    apply List.Forall_nil.
  - apply (bool_decide_unpack _). vm_compute. exact I.
Defined.

(** *** The focus letter *)

Section FocusLetter.

Lemma charAt_skipn (i : nat) (w : jsstring) :
  charAtOrEmpty i w ++ skipn (i + 1) w = skipn i w.
Proof.
  unfold charAtOrEmpty. revert i.
  induction w as [| c w IH]; intros [| i]; cbn; try reflexivity.
  apply IH.
Qed.

Lemma splitAt_whole (i : nat) (w : jsstring) : whole (CE.splitAt i w) = w.
Proof.
  unfold whole, CE.splitAt, substring, substringFrom. cbn.
  rewrite charAt_skipn, Nat.sub_0_r, skipn_O. apply firstn_skipn.
Qed.

(** Outside the branch for two letters, the three parts make up the
    word again. *)
Lemma calculateAdaptiveORP_whole (w : jsstring) (analysis : option CE.Analysis) :
  CE.len (keep isWord w) <> 2 ->
  whole (CE.calculateAdaptiveORP w analysis) = w.
Proof.
  intros H. unfold CE.calculateAdaptiveORP.
  destruct (_ =? 0); [unfold whole; cbn; apply app_nil_r |].
  destruct (_ =? 1); [unfold whole; cbn; apply app_nil_r |].
  destruct (Z.eqb_spec (CE.len (keep isWord w)) 2); [contradiction |].
  apply splitAt_whole.
Qed.

Lemma calculateORP_whole (w : jsstring) (analysis : option CE.Analysis) :
  CE.len (keep isWord w) <> 2 ->
  whole (SpeedReader.calculateORP w analysis) = w.
Proof.
  intros H. destruct analysis as [a |]; cbn [SpeedReader.calculateORP].
  - now apply calculateAdaptiveORP_whole.
  - destruct (_ =? 0); [unfold whole; cbn; apply app_nil_r |].
    destruct (_ =? 1); [unfold whole; cbn; apply app_nil_r |].
    destruct (Z.eqb_spec (CE.len (keep isWord w)) 2); [contradiction |].
    apply splitAt_whole.
Qed.

(** The walk back to the original word counts letters only: it stops
    with exactly [orpIndex] letters before the focus. *)
Lemma orpWalk_counts (orpIndex : Z) (rest : jsstring) :
  forall (cleanIndex : Z) (actualIndex : nat),
    cleanIndex <= orpIndex ->
    orpIndex - cleanIndex <= CE.len (keep isWord rest) ->
    exists k,
      CE.orpWalk orpIndex cleanIndex actualIndex rest = (actualIndex + k)%nat
      /\ CE.len (keep isWord (firstn k rest)) = orpIndex - cleanIndex.
Proof.
  unfold CE.len, keep.
  induction rest as [| c rest IH]; intros cleanIndex actualIndex Hle Hcount.
  - exists O. cbn in *. split; [lia | lia].
  - cbn [CE.orpWalk].
    destruct (Z.ltb_spec cleanIndex orpIndex) as [Hlt | Hge].
    + cbn [List.filter] in Hcount.
      destruct (isWord c) eqn:Ec.
      * destruct (IH (cleanIndex + 1) (S actualIndex)) as (k & Hk & Hn).
        { lia. } { cbn [List.length] in Hcount. lia. }
        exists (S k). split; [rewrite Hk; lia |].
        cbn [firstn List.filter]. rewrite Ec. cbn [List.length]. lia.
      * destruct (IH cleanIndex (S actualIndex)) as (k & Hk & Hn).
        { lia. } { lia. }
        exists (S k). split; [rewrite Hk; lia |].
        cbn [firstn List.filter]. rewrite Ec. exact Hn.
    + exists O. split; [lia |]. cbn. lia.
Qed.

End FocusLetter.

(** C4.  The word "it." has two letters and a full stop: the branch for two
    letters takes its first two code units as prefix and focus and leaves the
    suffix empty, so the three parts do not make up the word; the full stop
    is in none of them.  The fallback of [calculateORP] does the same. *)
Theorem orp_of_two_letters_loses_marks :
  let w := str "it." in
  CE.calculateAdaptiveORP w None =
    {| CE.prefix := str "i"; CE.focus := str "t"; CE.suffix := [] |}
  /\ whole (CE.calculateAdaptiveORP w None) <> w
  /\ whole (SpeedReader.calculateORP w None) <> w
  /\ (forall a, whole (SpeedReader.calculateORP w (Some a)) <> w).
Proof.
  cbv zeta. repeat split; discriminate.
Qed.

(** ** Properties of the playback engine *)

(** *** What [getCurrentWord] writes *)

Section SessionMemory.

Import SpeedReader.

Lemma pushRecent_holds (w : jsstring) (recent : list jsstring) :
  w ∈ CE.pushRecent w recent.
Proof.
  unfold CE.pushRecent. destruct recent as [| x recent].
  - cbn. apply list_elem_of_singleton. reflexivity.
  - destruct (_ <? _)%nat; cbn [tl app];
      rewrite ?elem_of_cons, elem_of_app, list_elem_of_singleton; tauto.
Qed.

(** The concept step of a tracked word pushes the word onto the recent
    window and counts it when it is new or recent; one of the two changes
    the session memory. *)
Lemma conceptStep_session (clean : jsstring) (ce : CE.t) (a : CE.Analysis) :
  4 < CE.len clean ->
  CE.recentWords (snd (CE.conceptStep clean ce a))
  = CE.pushRecent clean (CE.recentWords ce)
  /\ CE.conceptMemory (snd (CE.conceptStep clean ce a)) = countedIn ce clean
  /\ sessionIn (snd (CE.conceptStep clean ce a)) <> sessionIn ce.
Proof.
  intros Hlen.
  assert (Hr : CE.recentWords (snd (CE.conceptStep clean ce a))
               = CE.pushRecent clean (CE.recentWords ce)).
  { unfold CE.conceptStep.
    assert ((CE.len clean >? 4) = true) as -> by lia.
    destruct (negb _ && negb _); [reflexivity |].
    destruct (bool_decide _); reflexivity. }
  assert (Hm : CE.conceptMemory (snd (CE.conceptStep clean ce a))
               = countedIn ce clean).
  { unfold CE.conceptStep, countedIn, counted, countOf.
    assert ((CE.len clean >? 4) = true) as -> by lia.
    destruct (bool_decide (is_Some (CE.conceptMemory ce !! clean))) eqn:Eseen;
      destruct (CE.has CE.highFrequency clean);
      destruct (bool_decide (clean ∈ CE.recentWords ce));
      cbn [negb andb orb fst snd CE.conceptMemory CE.withMemory];
      try reflexivity.
    all: apply bool_decide_eq_false, eq_None_not_Some in Eseen;
      now rewrite Eseen. }
  split; [exact Hr |]. split; [exact Hm |].
  unfold sessionIn. rewrite Hr, Hm. intros [= Hmemory Hrecent].
  unfold countedIn, counted, countOf in Hmemory.
  destruct (bool_decide (clean ∈ CE.recentWords ce)) eqn:Erecent.
  - rewrite orb_true_r in Hmemory.
    apply (f_equal (fun memory => memory !! clean)) in Hmemory.
    rewrite lookup_insert_eq in Hmemory.
    destruct (CE.conceptMemory ce !! clean) as [d |];
      [injection Hmemory; cbn; lia | discriminate].
  - apply bool_decide_eq_false in Erecent. apply Erecent.
    rewrite <- Hrecent. apply pushRecent_holds.
Qed.

Lemma analyzeToken_session (token : CE.Token) (ce : CE.t) :
  4 < CE.len (tracked token) ->
  CE.recentWords (snd (CE.analyzeToken token ce))
  = CE.pushRecent (tracked token) (CE.recentWords ce)
  /\ CE.conceptMemory (snd (CE.analyzeToken token ce))
     = countedIn ce (tracked token)
  /\ sessionIn (snd (CE.analyzeToken token ce)) <> sessionIn ce.
Proof.
  rewrite analyzeToken_steps. cbn [snd]. unfold beforeMode.
  apply conceptStep_session.
Qed.

(** A word of four characters or fewer is not tracked: its analysis leaves
    the analyzer as it was. *)
Lemma analyzeToken_short (token : CE.Token) (ce : CE.t) :
  CE.len (tracked token) <= 4 -> snd (CE.analyzeToken token ce) = ce.
Proof.
  intros Hlen. rewrite analyzeToken_steps. cbn [snd].
  unfold beforeMode, CE.conceptStep, tracked in *.
  now assert ((CE.len (CE.cleanWord (CE.word token)) >? 4) = false) as ->
    by lia.
Qed.

#[local] Arguments CE.analyzeToken : simpl never.
#[local] Arguments calculateORP : simpl never.

(** In adaptive mode [getCurrentWord] at a cursor inside the text analyses
    the token there: the analyzer it leaves is the one the analysis leaves,
    and the analysis is part of what it returns. *)
Lemma getCurrentWord_analyses (m : Machine) (token : CE.Token) :
  adaptiveIn m = true -> tokenAtCursor m = Some token ->
  cognitive (reader (exec getCurrentWord m))
  = snd (CE.analyzeToken token (cognitive (reader m)))
  /\ analysisOf (fst (getCurrentWord m))
     = Some (fst (CE.analyzeToken token (cognitive (reader m))))
  /\ cursorOf (exec getCurrentWord m) = cursorOf m
  /\ skipCountOf (exec getCurrentWord m) = skipAfter token (skipCountOf m).
Proof.
  unfold adaptiveIn, tokenAtCursor, cursorOf, wordCountOf, skipCountOf,
    skipAfter, analysisOf, exec, getCurrentWord.
  intros Hadaptive Htoken.
  unfold mbind, M_bind, mret, M_ret, this, modify, notify, throw.
  cbn [fst snd reader].
  destruct (at_ (words (reader m)) (currentIndex (reader m))) as [w |] eqn:Ew;
    [| discriminate].
  apply at_Some in Ew as [Hinside _].
  assert ((currentIndex (reader m) >=? CE.len (words (reader m))) = false)
    as -> by lia.
  cbn in Htoken. injection Htoken as Htoken. rewrite Htoken, Hadaptive.
  destruct (CE.analyzeToken token (cognitive (reader m))) as [a ce].
  destruct (CE.collocation token) as [c |];
    [destruct (skipCount (reader m) =? 0) |];
    cbn; repeat split; reflexivity.
Qed.

(** Two calls in a row on the engine loaded with "hello world": the first
    tags the word first-occurrence and enters it in the concept memory and
    the recent window, the second tags it recent-repeat, counts it again and
    returns a smaller multiplier.  On the engine loaded with "in order to
    succeed" the call sets [skipCount]. *)
Lemma hello_read_twice :
  let m0 := loadedWith "hello world" in
  let m1 := exec getCurrentWord m0 in
  let m2 := exec getCurrentWord m1 in
  (cursorOf m1 = cursorOf m0 /\ cursorOf m2 = cursorOf m0)
  /\ (exists a1 a2,
        analysisOf (fst (getCurrentWord m0)) = Some a1
        /\ analysisOf (fst (getCurrentWord m1)) = Some a2
        /\ CE.factors a1 = ["first-occurrence"]
        /\ CE.factors a2 = ["recent-repeat"]
        /\ nlt (CE.multiplier a2) (CE.multiplier a1))
  /\ (memoryOf m0 !! str "hello" = None
      /\ memoryOf m1 !! str "hello" = Some 1
      /\ memoryOf m2 !! str "hello" = Some 2)
  /\ (recentOf m0 = [] /\ recentOf m1 = [str "hello"]
      /\ recentOf m2 = [str "hello"; str "hello"])
  /\ (skipCountOf (loadedWith "in order to succeed") = 0
      /\ skipCountOf (exec getCurrentWord (loadedWith "in order to succeed"))
         = 2).
Proof.
  cbv zeta. split; [split; vm_compute; reflexivity |].
  split.
  - eexists. eexists.
    split; [vm_compute; reflexivity |].
    split; [vm_compute; reflexivity |].
    split; [reflexivity |]. split; [reflexivity |].
    vm_compute. reflexivity.
  - split_all; vm_compute; reflexivity.
Qed.

End SessionMemory.

(** On the engine loaded with "one two", in adaptive mode and with the
    cursor on "one", [getCurrentWord] returns an analysis and writes
    nothing: the concept memory, the recent window and [skipCount] are as
    they were, and so is the whole analyzer. *)
Lemma getCurrentWord_on_short_word_writes_nothing :
  let m0 := loadedWith "one two" in
  let m1 := SpeedReader.exec SpeedReader.getCurrentWord m0 in
  adaptiveIn m0 = true
  /\ cursorOf m0 = 0
  /\ (CE.word <$> tokenAtCursor m0) = Some (str "one")
  /\ (exists a, analysisOf (fst (SpeedReader.getCurrentWord m0)) = Some a)
  /\ sessionOf m1 = sessionOf m0
  /\ skipCountOf m1 = skipCountOf m0
  /\ SpeedReader.cognitive (SpeedReader.reader m1)
     = SpeedReader.cognitive (SpeedReader.reader m0).
Proof.
  cbv zeta. split_all; try (vm_compute; reflexivity).
  eexists. vm_compute. reflexivity.
Qed.

(** C9.  In adaptive mode [getCurrentWord] is not free of effects.
    A call at a cursor inside the text, where it finds a token, leaves the
    cursor where it is and analyses that token.  If the normalized word of the token has more
    than 4 characters the call changes the session memory: it pushes the
    word onto the recent window, and it enters the word in the concept
    counts or counts it once more when the word is new and outside the
    high-frequency set or is in the recent window.  If the word has 4
    characters or fewer the session memory stays as it was.  The call sets
    [skipCount] when the token starts a collocation and nothing is to be
    skipped.  So two calls in a row can return different analyses: on some
    engine the first tags the word first-occurrence and the second tags it
    recent-repeat, with a strictly smaller multiplier. *)
Theorem getCurrentWord_writes_memory (m : SpeedReader.Machine)
  (token : CE.Token) :
  adaptiveIn m = true -> tokenAtCursor m = Some token ->
  let m' := SpeedReader.exec SpeedReader.getCurrentWord m in
  cursorOf m' = cursorOf m
  /\ (4 < CE.len (tracked token) ->
      recentOf m' = CE.pushRecent (tracked token) (recentOf m)
      /\ memoryOf m'
         = countedIn (SpeedReader.cognitive (SpeedReader.reader m))
             (tracked token)
      /\ sessionOf m' <> sessionOf m)
  /\ (CE.len (tracked token) <= 4 -> sessionOf m' = sessionOf m)
  /\ skipCountOf m' = skipAfter token (skipCountOf m)
  /\ (exists (m0 : SpeedReader.Machine) (a1 a2 : CE.Analysis),
        let m1 := SpeedReader.exec SpeedReader.getCurrentWord m0 in
        adaptiveIn m0 = true
        /\ cursorOf m1 = cursorOf m0
        /\ analysisOf (fst (SpeedReader.getCurrentWord m0)) = Some a1
        /\ analysisOf (fst (SpeedReader.getCurrentWord m1)) = Some a2
        /\ CE.factors a1 = ["first-occurrence"]
        /\ CE.factors a2 = ["recent-repeat"]
        /\ nlt (CE.multiplier a2) (CE.multiplier a1)).
Proof.
  intros Hadaptive Htoken. cbv zeta.
  destruct (getCurrentWord_analyses m token Hadaptive Htoken)
    as (Hce & _ & Hcursor & Hskip).
  split; [exact Hcursor |].
  unfold sessionOf, recentOf, memoryOf. rewrite Hce.
  split; [| split; [| split; [exact Hskip |]]].
  - intros Hlong. now apply analyzeToken_session.
  - intros Hshort. now rewrite analyzeToken_short.
  - destruct hello_read_twice
      as ((Hc1 & _) & (a1 & a2 & H1 & H2 & Hf1 & Hf2 & Hlt) & _).
    exists (loadedWith "hello world"), a1, a2. cbv zeta.
    split; [vm_compute; reflexivity |]. now repeat split.
Qed.

Lemma getCurrentWord_writes_memory_witness :
  sessionOf (SpeedReader.exec SpeedReader.getCurrentWord
               (loadedWith "hello world"))
  <> sessionOf (loadedWith "hello world").
Proof.
  eapply (fun token Hadaptive Htoken Hlong =>
            proj2 (proj2 (proj1 (proj2
              (getCurrentWord_writes_memory (loadedWith "hello world")
                 token Hadaptive Htoken)) Hlong))).
  all: vm_compute; reflexivity.
Defined.

(** C3.  After [load("in order to succeed")] the first token carries the
    collocation of length 3.  The first step shows "in order to" as one unit
    and leaves [skipCount] at 2; two more calls of [showNextWord] bring the
    cursor to 3 and notify no word.  The same holds when the steps are the
    ones [play] schedules. *)
Theorem collocation_shown_as_one_unit :
  let m0 := loadedWith "in order to succeed" in
  let s1 := SpeedReader.exec (SpeedReader.showNextWord 2000) m0 in
  let s3 := SpeedReader.exec (SpeedReader.showNextWord 2020)
              (SpeedReader.exec (SpeedReader.showNextWord 2010) s1) in
  let p1 := SpeedReader.run [(SpeedReader.Play, 2000)] m0 in
  let p3 := SpeedReader.run
              [(SpeedReader.Fire 1, 2136); (SpeedReader.Fire 2, 2146)] p1 in
  (CE.length <$> (SpeedReader.tokens (SpeedReader.reader m0) !! 0%nat
                    ≫= CE.collocation) = Some 3
   /\ cursorOf m0 = 0)
  /\ (shown s1 = [str "in order to"] /\ skipCountOf s1 = 2
      /\ SpeedReader.wordChanges s1 = 1%nat)
  /\ (cursorOf s3 = 3 /\ skipCountOf s3 = 0
      /\ SpeedReader.wordChanges s3 = 1%nat)
  /\ (shown p1 = [str "in order to"] /\ skipCountOf p1 = 2
      /\ SpeedReader.pending p1 = [(1%nat, 2136)])
  /\ (cursorOf p3 = 3 /\ skipCountOf p3 = 0
      /\ SpeedReader.wordChanges p3 = 1%nat
      /\ SpeedReader.pending p3 = [(3%nat, 2156)]).
Proof.
  cbv zeta. split_all; vm_compute; reflexivity.
Qed.

(** *** Words per minute *)

Lemma setWPM_stores (n : number) (m : SpeedReader.Machine) :
  wpmOf (SpeedReader.exec (SpeedReader.setWPM n) m)
  = nmax (Num 50) (nmin (Num 1500) n).
Proof. reflexivity. Qed.

Lemma setWPM_in_range (n : number) (m : SpeedReader.Machine) :
  n <> NaN ->
  nle (Num 50) (wpmOf (SpeedReader.exec (SpeedReader.setWPM n) m))
  /\ nle (wpmOf (SpeedReader.exec (SpeedReader.setWPM n) m)) (Num 1500).
Proof.
  intros Hn. rewrite setWPM_stores.
  destruct n as [q | | |]; [| congruence | |].
  - cbn [nmin nmax nle]. apply clamp_bounds. lra.
  - vm_compute. split; discriminate.
  - vm_compute. split; discriminate.
Qed.

Lemma setWPM_returns_stored (n : number) (m : SpeedReader.Machine) :
  fst (SpeedReader.setWPM n m) =
    SpeedReader.Ok (wpmOf (SpeedReader.exec (SpeedReader.setWPM n) m)).
Proof. reflexivity. Qed.

(** C8.  [updateConfig] copies a [wpm] field into the configuration as it
    is: after [updateConfig({ wpm: 5000 })] the stored value is 5000, above
    1500, and after [updateConfig({ wpm: 10 })] it is 10, below 50.  The
    same values given to [setWPM] are stored as 1500 and 50. *)
Theorem updateConfig_stores_wpm_unclamped :
  let fresh := SpeedReader.boot SpeedReader.noOptions in
  let updated v := SpeedReader.exec (SpeedReader.updateConfig (onlyWpm v)) fresh in
  let set v := SpeedReader.exec (SpeedReader.setWPM v) fresh in
  (wpmOf (updated 5000%Q) = Num 5000
   /\ ~ nle (wpmOf (updated 5000%Q)) (Num 1500))
  /\ (wpmOf (updated 10%Q) = Num 10
      /\ ~ nle (Num 50) (wpmOf (updated 10%Q)))
  /\ (wpmOf (set (Num 5000)) = Num 1500 /\ wpmOf (set (Num 10)) = Num 50).
Proof.
  cbv zeta. repeat split; try reflexivity; cbn; intros H; vm_compute in H;
    apply H; reflexivity.
Qed.

(** *** The scheduler *)

(** C1.  [play] does not look at [isPlaying]: called on a playing engine
    it schedules a second step and forgets the identifier of the first.
    [pause] then clears the second only.  The first step is still pending
    on the paused engine, and when its delay has elapsed it shows a word
    and moves the cursor, with no [play] in between. *)
Theorem stale_step_fires_after_pause :
  let m0 := loadedWith "one two three four" in
  let playing2 := SpeedReader.run
                    [(SpeedReader.Play, 2000); (SpeedReader.Play, 2001)] m0 in
  let stopped := SpeedReader.run [(SpeedReader.Pause, 2002)] playing2 in
  let later := SpeedReader.run [(SpeedReader.Fire 1, 5000)] stopped in
  SpeedReader.pending playing2 = [(1%nat, 2170); (2%nat, 2171)]
  /\ playingIn stopped = false
  /\ SpeedReader.pending stopped = [(1%nat, 2170)]
  /\ SpeedReader.timeoutId (SpeedReader.reader stopped) = None
  /\ SpeedReader.wordChanges stopped = 2%nat
  /\ SpeedReader.wordChanges later = 3%nat
  /\ shown later = [str "one"; str "two"; str "three"]
  /\ cursorOf stopped = 2 /\ cursorOf later = 3
  /\ playingIn later = false.
Proof.
  cbv zeta. split_all; vm_compute; reflexivity.
Qed.

(** *** Calls in sequence *)

Section Sequencing.

Import SpeedReader.

Lemma exec_bind {A B} (c : M A) (k : A -> M B) (m : Machine) :
  exec (c ≫= k) m =
    match fst (c m) with
    | Ok a => exec (k a) (exec c m)
    | TypeError => exec c m
    end.
Proof.
  unfold exec, mbind, M_bind. destruct (c m) as [[a |] m']; reflexivity.
Qed.

Lemma keeps_bind {A B X} (g : Machine -> X) (c : M A) (k : A -> M B) :
  keeps g c -> (forall a, keeps g (k a)) -> keeps g (c ≫= k).
Proof.
  intros Hc Hk m. rewrite exec_bind.
  destruct (fst (c m)); [rewrite Hk |]; apply Hc.
Qed.

Lemma keeps_when {X} (g : Machine -> X) (b : bool) (c : M unit) :
  keeps g c -> keeps g (when b c).
Proof. intros Hc. destruct b; [exact Hc | intros m; reflexivity]. Qed.

Lemma returns_bind {A B} (c : M A) (k : A -> M B) :
  returns c -> (forall a, returns (k a)) -> returns (c ≫= k).
Proof.
  intros Hc Hk m. destruct (Hc m) as [a Ha].
  unfold mbind, M_bind. destruct (c m) as [[a' |] m']; cbn in Ha; [| discriminate].
  apply Hk.
Qed.

Lemma returns_when (b : bool) (c : M unit) : returns c -> returns (when b c).
Proof. intros Hc. destruct b; [exact Hc | intros m; now exists tt]. Qed.

End Sequencing.

(** *** Automation for calls in sequence *)

Create HintDb keeps.

(** A call made of calls that keep an observation keeps it. *)
Ltac keeps_all :=
  repeat first
    [ solve [ auto with keeps nocore ]
    | apply keeps_bind; [| intros ? ]
    | apply keeps_when
    | match goal with
      | |- keeps _ (if ?b then _ else _) => destruct b
      | |- keeps _ (match ?o with Some _ => _ | None => _ end) => destruct o
      | |- keeps _ (let '(_, _) := ?p in _) => destruct p
      end
    | (intros ?; reflexivity) ].

Ltac returns_all :=
  repeat first
    [ apply returns_bind; [| intros ? ]
    | apply returns_when
    | match goal with
      | |- returns (if ?b then _ else _) => destruct b
      | |- returns (match ?o with Some _ => _ | None => _ end) => destruct o
      end
    | (intros ?; eexists; reflexivity) ].

(** *** Rewinds and pauses *)

Section Counters.

Import SpeedReader.

Lemma analyzeToken_frame (token : CE.Token) (ce : CE.t) :
  CE.fatigue (snd (CE.analyzeToken token ce)) = CE.fatigue ce
  /\ CE.comprehension (snd (CE.analyzeToken token ce)) = CE.comprehension ce
  /\ CE.currentMode (snd (CE.analyzeToken token ce)) = CE.currentMode ce.
Proof.
  unfold CE.analyzeToken, CE.conceptStep.
  destruct (_ >? 4); [| now repeat split].
  destruct (negb _ && negb _); [now repeat split |].
  destruct (bool_decide _); now repeat split.
Qed.

Lemma updateFatigue_rewinds (event : CE.FatigueEvent) (now : Z) (ce : CE.t) :
  rewindsIn (CE.updateFatigue event now ce) =
    match event with
    | CE.EvRewind => bump (rewindsIn ce)
    | _ => rewindsIn ce
    end.
Proof.
  destruct event; unfold rewindsIn, bump; cbn; try reflexivity.
  - destruct (truthy _); [| reflexivity]. destruct (Qgtb _ _); reflexivity.
  - destruct (_ >? 3000); reflexivity.
Qed.

Lemma keeps_rewinds_updateFatigue (event : CE.FatigueEvent) (now : Z) :
  event <> CE.EvRewind -> keeps rewindsOf (updateFatigue event now).
Proof.
  intros Hev m. unfold rewindsOf. cbn.
  change (rewindsIn (CE.updateFatigue event now (cognitive (reader m)))
          = rewindsIn (cognitive (reader m))).
  rewrite updateFatigue_rewinds. destruct event; congruence.
Qed.

Lemma keeps_rewinds_getCurrentWord : keeps rewindsOf getCurrentWord.
Proof.
  intros m. unfold getCurrentWord, exec, rewindsOf.
  unfold mbind, M_bind, mret, M_ret, this. cbn [fst snd].
  destruct (_ >=? _); [reflexivity |].
  destruct (at_ _ _) as [w |]; [| reflexivity].
  destruct (adaptiveMode _).
  - destruct (CE.analyzeToken _ _) as [analysis ce] eqn:E.
    pose proof (analyzeToken_frame
      (default (bareToken w (currentIndex (reader m)))
         (at_ (tokens (reader m)) (currentIndex (reader m))))
      (cognitive (reader m))) as (Hf & Hc & _).
    rewrite E in Hf, Hc. cbn [snd] in Hf, Hc.
    destruct (CE.collocation _) as [c |]; [destruct (_ =? 0) |];
      cbn; rewrite Hf, Hc; reflexivity.
  - destruct (CE.collocation _) as [c |]; [destruct (_ =? 0) |];
      reflexivity.
Qed.

Hint Resolve keeps_rewinds_getCurrentWord : keeps.
Hint Extern 1 (keeps rewindsOf (updateFatigue _ _)) =>
  (apply keeps_rewinds_updateFatigue; discriminate) : keeps.

Lemma keeps_rewinds_complete (now : Z) : keeps rewindsOf (complete now).
Proof. unfold complete. keeps_all. Qed.
Hint Resolve keeps_rewinds_complete : keeps.

Lemma keeps_rewinds_showNextWord (now : Z) :
  keeps rewindsOf (showNextWord now).
Proof. unfold showNextWord. keeps_all. Qed.
Hint Resolve keeps_rewinds_showNextWord : keeps.

Lemma keeps_rewinds_pause (now : Z) : keeps rewindsOf (pause now).
Proof. unfold pause, cancelPending. keeps_all. Qed.
Hint Resolve keeps_rewinds_pause : keeps.

Lemma keeps_rewinds_play (now : Z) : keeps rewindsOf (play now).
Proof. unfold play. keeps_all. Qed.
Hint Resolve keeps_rewinds_play : keeps.

Lemma keeps_rewinds_showCurrent : keeps rewindsOf showCurrent.
Proof. unfold showCurrent. keeps_all. Qed.
Hint Resolve keeps_rewinds_showCurrent : keeps.

Lemma keeps_rewinds_goToWord (index now : Z) :
  keeps rewindsOf (goToWord index now).
Proof. unfold goToWord. keeps_all. Qed.

Lemma rewindsOf_updateFatigue_rewind (now : Z) (m : Machine) :
  rewindsOf (exec (updateFatigue CE.EvRewind now) m) = bump (rewindsOf m).
Proof.
  unfold rewindsOf. cbn.
  change (rewindsIn (CE.updateFatigue CE.EvRewind now (cognitive (reader m)))
          = bump (rewindsIn (cognitive (reader m)))).
  now rewrite updateFatigue_rewinds.
Qed.

Lemma returns_pause (now : Z) : returns (pause now).
Proof. unfold pause, cancelPending. returns_all. Qed.

Lemma exec_bind_returns {A B} (c : M A) (k : A -> M B) (m : Machine) :
  returns c -> exists a, exec (c ≫= k) m = exec (k a) (exec c m).
Proof.
  intros Hc. destruct (Hc m) as [a Ha]. exists a.
  rewrite exec_bind, Ha. reflexivity.
Qed.

(** [prev] on a cursor above 0 counts one rewind, whatever else it
    does; on a cursor at 0 it does nothing at all. *)
Lemma prev_rewinds (now : Z) (m : Machine) :
  rewindsOf (exec (prev now) m) =
    if cursorOf m >? 0 then bump (rewindsOf m) else rewindsOf m.
Proof.
  unfold prev, cursorOf. rewrite exec_bind. cbn [this fst].
  change (exec this m) with m.
  destruct (currentIndex (reader m) >? 0); [| reflexivity].
  cbn [when].
  set (first := when (isPlaying (reader m)) (pause now;; mret tt)).
  assert (Hkeeps : keeps rewindsOf first) by (subst first; keeps_all).
  assert (Hreturns : returns first).
  { subst first. apply returns_when, returns_bind;
      [apply returns_pause | intros ? ? ; eexists; reflexivity]. }
  destruct (exec_bind_returns first
    (fun _ =>
       modify (fun r => set_skipCount 0 (set_currentIndex (currentIndex r - 1) r));;
       updateFatigue CE.EvRewind now;;
       showCurrent;;
       when (isPlaying (reader m)) (play now;; mret tt)) m Hreturns)
    as [u ->].
  rewrite exec_bind. cbn [modify fst].
  rewrite exec_bind. cbn [updateFatigue modify fst].
  assert (Hrest : keeps rewindsOf
            (showCurrent;; when (isPlaying (reader m)) (play now;; mret tt)))
    by keeps_all.
  rewrite Hrest, rewindsOf_updateFatigue_rewind.
  f_equal. apply Hkeeps.
Qed.

(** [jump] counts one rewind when its argument is negative, before it
    moves the cursor. *)
Lemma jump_rewinds (count now : Z) (m : Machine) :
  rewindsOf (exec (jump count now) m) =
    if count <? 0 then bump (rewindsOf m) else rewindsOf m.
Proof.
  unfold jump. rewrite exec_bind. cbn [this fst].
  change (exec this m) with m.
  rewrite exec_bind.
  destruct (count <? 0); cbn [when updateFatigue modify mret M_ret fst];
    rewrite keeps_rewinds_goToWord.
  - apply rewindsOf_updateFatigue_rewind.
  - reflexivity.
Qed.

End Counters.

(** C7.  [prev] on a cursor above 0 and [jump] with a negative count add
    exactly one to both rewind counters, whatever the engine was doing and
    however far the cursor moves; [jump] does so on a cursor at 0 too.
    [prev] on a cursor at 0 returns at once and counts nothing. *)
Theorem rewind_counted_once (m : SpeedReader.Machine) (count now : Z) :
  rewindsOf (SpeedReader.exec (SpeedReader.prev now) m) =
    (if cursorOf m >? 0 then bump (rewindsOf m) else rewindsOf m)
  /\ rewindsOf (SpeedReader.exec (SpeedReader.jump count now) m) =
      (if count <? 0 then bump (rewindsOf m) else rewindsOf m)
  /\ (cursorOf m <= 0 ->
      SpeedReader.exec (SpeedReader.prev now) m = m).
Proof.
  split; [apply prev_rewinds |]. split; [apply jump_rewinds |].
  intros Hcursor. unfold SpeedReader.prev, SpeedReader.exec, cursorOf in *.
  unfold mbind, SpeedReader.M_bind, SpeedReader.this. cbn [fst snd].
  destruct (Z.gtb_spec (SpeedReader.currentIndex (SpeedReader.reader m)) 0);
    [lia | reflexivity].
Qed.

Lemma rewind_counted_once_witness :
  let m := loadedWith "one two three" in
  cursorOf m <= 0 /\ SpeedReader.exec (SpeedReader.prev 2000) m = m.
Proof.
  cbv zeta.
  assert (H : cursorOf (loadedWith "one two three") <= 0)
    by (vm_compute; discriminate).
  split; [exact H |].
  exact (proj2 (proj2 (rewind_counted_once (loadedWith "one two three") 0 2000)) H).
Defined.

(** [prev] on the first word of a loaded text counts no rewind. *)
Lemma prev_at_start_counts_no_rewind :
  let m := loadedWith "one two three" in
  cursorOf m = 0
  /\ rewindsOf (SpeedReader.exec (SpeedReader.prev 2000) m) = rewindsOf m
  /\ rewindsOf (SpeedReader.exec (SpeedReader.prev 2000) m) <> bump (rewindsOf m).
Proof.
  cbv zeta. split_all; vm_compute; congruence.
Qed.



(** *** One pending step when [play] is guarded *)

Section Scheduler.

Import SpeedReader.

Lemma ensures_bind {A B} (P R Q : Machine -> Prop) (c : M A) (k : A -> M B) :
  ensures P c R -> (forall a, ensures R (k a) Q) -> (forall m, R m -> Q m) ->
  ensures P (c ≫= k) Q.
Proof.
  intros Hc Hk Hthrow m HP. rewrite exec_bind.
  destruct (fst (c m)); [apply Hk | apply Hthrow]; apply Hc, HP.
Qed.

Lemma ensures_keeps {A X} (g : Machine -> X) (P : Machine -> Prop) (c : M A) :
  keeps g c -> (forall m m', g m' = g m -> P m -> P m') -> ensures P c P.
Proof. intros Hk Hg m HP. apply (Hg m); [apply Hk | exact HP]. Qed.

Lemma idle_by_pending (m m' : Machine) : pending m' = pending m -> idle m -> idle m'.
Proof. unfold idle. congruence. Qed.

Lemma onePending_by_scheduler (m m' : Machine) :
  schedulerOf m' = schedulerOf m -> onePending m -> onePending m'.
Proof.
  unfold schedulerOf, onePending. intros [= Hp Ht Hq]. rewrite Hp, Ht, Hq. auto.
Qed.

Lemma idle_onePending (m : Machine) : idle m -> onePending m.
Proof. unfold idle, onePending. intros ->. exact I. Qed.

Lemma stopped_idle (m : Machine) : onePending m -> playingIn m = false -> idle m.
Proof.
  unfold onePending, idle. destruct (pending m) as [| p [| q l]]; [reflexivity | |].
  - intros [Hplay _] Hstop. congruence.
  - intros [].
Qed.

(** A call that keeps the list of pending steps keeps the engine idle. *)
Ltac keeps_idle :=
  apply (ensures_keeps pending); [solve [keeps_all] | exact idle_by_pending].

Ltac keeps_onePending :=
  apply (ensures_keeps schedulerOf);
  [solve [keeps_all] | exact onePending_by_scheduler].

(** Calls in sequence that keep the engine idle, up to the first that may
    schedule a step. *)
Ltac idle_steps :=
  repeat first
    [ apply (ensures_bind idle idle onePending);
      [keeps_idle | intros ? | exact idle_onePending]
    | match goal with
      | |- ensures _ (if ?b then _ else _) _ => destruct b
      end ].

Lemma keeps_scheduler_getCurrentWord : keeps schedulerOf getCurrentWord.
Proof. unfold getCurrentWord. keeps_all. Qed.

Lemma keeps_pending_getCurrentWord : keeps pending getCurrentWord.
Proof.
  intros m. pose proof (keeps_scheduler_getCurrentWord m) as H.
  unfold schedulerOf in H. congruence.
Qed.

#[local] Arguments CE.updateFatigue : simpl never.
#[local] Arguments CE.analyzeToken : simpl never.
#[local] Arguments CE.getFatigueStatus : simpl never.
#[local] Arguments CE.assessComprehension : simpl never.
#[local] Arguments CE.preprocessText : simpl never.
#[local] Arguments CE.reset : simpl never.
#[local] Arguments getWordDuration : simpl never.
#[local] Arguments parseText : simpl never.

Ltac run_prims :=
  unfold when, schedule, updateFatigue, cancelPending, complete;
  unfold exec, mbind, M_bind, mret, M_ret, this, modify, notify,
    setTimeout, clearTimeout, throw;
  cbn [fst snd reader pending nextId log].

(** [showNextWord] on an idle engine schedules one step at most, and only
    if the engine is playing. *)
Lemma showNextWord_from_idle (now : Z) : ensures idle (showNextWord now) onePending.
Proof.
  intros m Hidle. unfold showNextWord. rewrite exec_bind. cbn [this fst].
  change (exec this m) with m.
  destruct (skipCount (reader m) >? 0).
  - run_prims. cbn.
    destruct (isPlaying (reader m)) eqn:Ep; cbn;
      [destruct (_ <? _); cbn |];
      unfold onePending, playingIn; cbn; rewrite Hidle; cbn; auto.
  - destruct (_ >=? _).
    + apply idle_onePending. exact Hidle.
    + rewrite exec_bind.
      pose proof (keeps_scheduler_getCurrentWord m) as Hs.
      set (m1 := exec getCurrentWord m) in *.
      assert (Hidle1 : pending m1 = []).
      { unfold schedulerOf in Hs. unfold idle in Hidle. congruence. }
      destruct (fst (getCurrentWord m)) as [cw |];
        [| apply idle_onePending; exact Hidle1].
      run_prims. cbn.
      destruct (isPlaying (reader m1)) eqn:Ep; cbn.
      * destruct (_ <? _); cbn.
        -- destruct cw as [w |]; cbn;
             unfold onePending, playingIn; cbn; rewrite Hidle1; cbn; auto.
        -- destruct (_ >=? _); cbn;
             unfold onePending, playingIn; cbn; rewrite Hidle1; cbn; auto.
      * destruct (_ >=? _); cbn;
          unfold onePending, playingIn; cbn; rewrite Hidle1; cbn; auto.
Qed.

(** [pause] leaves nothing pending. *)
Lemma pause_stops (now : Z) :
  ensures onePending (pause now) (fun m => idle m /\ playingIn m = false).
Proof.
  intros m Hone. unfold pause, cancelPending. run_prims.
  unfold onePending, idle, playingIn in *.
  destruct (isPlaying (reader m)) eqn:Ep; cbn.
  - destruct (timeoutId (reader m)) as [id |] eqn:Et; cbn;
      destruct (pending m) as [| p [| q l]]; cbn in *; try tauto.
    + destruct Hone as [_ [= ->]]. rewrite Nat.eqb_refl. cbn. tauto.
    + destruct Hone as [_ [=]].
  - rewrite Ep. split; [| reflexivity].
    destruct (pending m) as [| p [| q l]]; [reflexivity | | tauto].
    destruct Hone as [[=] _].
Qed.

Lemma ensures_idle_onePending {A} (c : M A) :
  keeps pending c -> ensures idle c onePending.
Proof.
  intros Hk m Hidle. apply idle_onePending. unfold idle in *.
  rewrite Hk. exact Hidle.
Qed.

(** [play] on an idle engine schedules one step at most. *)
Lemma play_from_idle (now : Z) : ensures idle (play now) onePending.
Proof.
  unfold play. idle_steps.
  - apply ensures_idle_onePending. keeps_all.
  - apply (ensures_bind idle onePending onePending);
      [apply showNextWord_from_idle | intros ?; keeps_onePending | auto].
Qed.

#[local] Hint Resolve keeps_pending_getCurrentWord
  keeps_scheduler_getCurrentWord : keeps.

Lemma ensures_ignore {A} (P Q : Machine -> Prop) (c : M A) :
  ensures P c Q -> ensures P (ignore c) Q.
Proof.
  intros Hc m HP. unfold ignore. rewrite exec_bind.
  destruct (fst (c m)); apply Hc, HP.
Qed.

Lemma ensures_weaken {A} (P Q Q' : Machine -> Prop) (c : M A) :
  ensures P c Q -> (forall m, Q m -> Q' m) -> ensures P c Q'.
Proof. intros Hc Hq m HP. apply Hq, Hc, HP. Qed.

Lemma pause_then_idle (now : Z) :
  ensures onePending (pause now;; mret tt) idle.
Proof.
  apply (ensures_bind onePending idle idle); [| intros ?; keeps_idle | auto].
  apply (ensures_weaken _ _ _ _ (pause_stops now)). tauto.
Qed.

Lemma play_then_onePending (now : Z) :
  ensures idle (play now;; mret tt) onePending.
Proof.
  apply (ensures_bind idle onePending onePending);
    [apply play_from_idle | intros ?; keeps_onePending | auto].
Qed.

Lemma keeps_scheduler_showCurrent : keeps schedulerOf showCurrent.
Proof. unfold showCurrent. keeps_all. Qed.

Lemma keeps_pending_showCurrent : keeps pending showCurrent.
Proof. unfold showCurrent. keeps_all. Qed.

#[local] Hint Resolve keeps_scheduler_showCurrent keeps_pending_showCurrent
  : keeps.

(** What [goToWord], [next] and [prev] share: the cursor moves between a
    [pause] and a [play] if the engine was playing, and on its own if
    not. *)
Ltac pause_move_play m Hone :=
  destruct (isPlaying (reader m)); cbn [when];
  [ apply (ensures_bind onePending idle onePending);
    [ apply pause_then_idle
    | intros ?; idle_steps; apply play_then_onePending
    | exact idle_onePending
    | exact Hone ]
  | apply (ensures_keeps schedulerOf onePending);
    [ solve [keeps_all] | exact onePending_by_scheduler | exact Hone ] ].

Lemma goToWord_onePending (index now : Z) :
  ensures onePending (goToWord index now) onePending.
Proof.
  intros m Hone. unfold goToWord. rewrite exec_bind. cbn [this fst].
  change (exec this m) with m. cbv zeta.
  pause_move_play m Hone.
Qed.

Lemma next_onePending (now : Z) : ensures onePending (next now) onePending.
Proof.
  intros m Hone. unfold next. rewrite exec_bind. cbn [this fst].
  change (exec this m) with m. cbv zeta.
  destruct (_ <? _); cbn [when]; [| exact Hone].
  pause_move_play m Hone.
Qed.

Lemma prev_onePending (now : Z) : ensures onePending (prev now) onePending.
Proof.
  intros m Hone. unfold prev. rewrite exec_bind. cbn [this fst].
  change (exec this m) with m. cbv zeta.
  destruct (_ >? 0); cbn [when]; [| exact Hone].
  pause_move_play m Hone.
Qed.

Lemma jump_onePending (count now : Z) :
  ensures onePending (jump count now) onePending.
Proof.
  unfold jump.
  apply (ensures_bind onePending onePending onePending);
    [keeps_onePending | intros r | auto].
  apply (ensures_bind onePending onePending onePending);
    [keeps_onePending | intros ?; apply goToWord_onePending | auto].
Qed.

Lemma restart_onePending (now : Z) : ensures onePending (restart now) onePending.
Proof.
  unfold restart.
  apply (ensures_bind onePending idle onePending);
    [| intros ? | exact idle_onePending].
  - apply (ensures_weaken _ _ _ _ (pause_stops now)). tauto.
  - apply ensures_idle_onePending. keeps_all.
Qed.

Lemma load_onePending (text : jsstring) (now : Z) :
  ensures onePending (load text now) onePending.
Proof.
  intros m Hone. apply idle_onePending.
  unfold load. run_prims. unfold onePending, idle in *. cbn.
  destruct (timeoutId (reader m)) as [id |] eqn:Et; cbn;
    destruct (pending m) as [| p [| q l]]; cbn in *; try tauto.
  - destruct Hone as [_ [= ->]]. rewrite Nat.eqb_refl. reflexivity.
  - destruct Hone as [_ [=]].
Qed.

Lemma toggle_onePending (now : Z) : ensures onePending (toggle now) onePending.
Proof.
  intros m Hone. unfold toggle. rewrite exec_bind. cbn [this fst].
  change (exec this m) with m.
  destruct (isPlaying (reader m)) eqn:Ep.
  - apply idle_onePending. now apply pause_stops.
  - apply play_from_idle. now apply stopped_idle.
Qed.

Lemma fire_onePending (id : nat) (now : Z) :
  ensures onePending (fire id now) onePending.
Proof.
  intros m Hone. unfold fire, exec.
  destruct (due id now m) eqn:Edue; [| exact Hone].
  change (onePending (exec (clearTimeout id;; showNextWord now) m)).
  rewrite exec_bind. cbn [clearTimeout fst].
  apply showNextWord_from_idle.
  unfold due, onePending, idle, exec in *. cbn.
  destruct (pending m) as [| p [| q l]]; cbn in *; [reflexivity | | tauto].
  rewrite orb_false_r in Edue. apply andb_prop in Edue as [Eid _].
  rewrite Eid. reflexivity.
Qed.

(** Every command keeps the invariant, [play] if it is called on an
    engine that is not playing. *)
Lemma step_onePending (m : Machine) (c : Command) (now : Z) :
  onePending m -> guarded m c -> onePending (step m (c, now)).
Proof.
  intros Hone Hguard. unfold step. cbn [fst snd].
  destruct c; cbn [perform guarded] in *.
  - now apply ensures_ignore with (P := onePending);
      [apply load_onePending |].
  - apply ensures_ignore with (P := idle);
      [apply play_from_idle | now apply stopped_idle].
  - apply ensures_ignore with (P := onePending); [| exact Hone].
    apply (ensures_weaken _ _ _ _ (pause_stops now)).
    intros m' [H _]. now apply idle_onePending.
  - now apply ensures_ignore with (P := onePending);
      [apply toggle_onePending |].
  - now apply restart_onePending.
  - now apply goToWord_onePending.
  - now apply next_onePending.
  - now apply prev_onePending.
  - now apply jump_onePending.
  - apply ensures_ignore with (P := onePending); [| exact Hone].
    unfold setWPM. keeps_onePending.
  - apply ensures_ignore with (P := onePending); [| exact Hone].
    unfold setMode. keeps_onePending.
  - revert m Hone Hguard. unfold setAdaptiveMode. intros m Hone _.
    apply (ensures_keeps schedulerOf onePending (modify _));
      [solve [keeps_all] | exact onePending_by_scheduler | exact Hone].
  - apply (ensures_keeps schedulerOf onePending (updateConfig newConfig));
      [unfold updateConfig; solve [keeps_all]
      | exact onePending_by_scheduler | exact Hone].
  - apply ensures_ignore with (P := onePending); [| exact Hone].
    keeps_onePending.
  - now apply fire_onePending.
Qed.

End Scheduler.

Lemma guardedRun_onePending (m : SpeedReader.Machine) :
  guardedRun m -> onePending m.
Proof.
  induction 1 as [options | m c now Hrun IH Hguard].
  - exact I.
  - now apply step_onePending.
Qed.

(** X4.  When every [play] is called on an engine that is not playing, as
    [toggle] and the callers of the repository do, at most one scheduled
    step is pending after any sequence of commands and steps of the host;
    the pending step is the one [timeoutId] names, and an engine that is not
    playing has none. *)
Theorem guarded_runs_have_one_pending_step (m : SpeedReader.Machine) :
  guardedRun m ->
  onePending m /\ (playingIn m = false -> SpeedReader.pending m = []).
Proof.
  intros Hrun. pose proof (guardedRun_onePending m Hrun) as Hone.
  split; [exact Hone | apply stopped_idle, Hone].
Qed.

Lemma guardedRun_pausedSample : guardedRun pausedSample.
Proof.
  unfold pausedSample.
  apply guardedRun_step; [| exact I].
  apply guardedRun_step; [| vm_compute; reflexivity].
  apply guardedRun_step; [| exact I].
  apply guardedRun_boot.
Defined.

Lemma guarded_runs_have_one_pending_step_witness :
  playingIn pausedSample = false /\ SpeedReader.pending pausedSample = [].
Proof.
  assert (H : playingIn pausedSample = false) by (vm_compute; reflexivity).
  split; [exact H |].
  exact (proj2 (guarded_runs_have_one_pending_step pausedSample
                  guardedRun_pausedSample) H).
Defined.

(** X5.  On such an engine, once it is not playing, the steps of the host
    change nothing, however late they come: no word is shown and the cursor
    stays until the next command. *)
Theorem stopped_engine_stays_silent (m : SpeedReader.Machine)
  (steps : list (nat * Z)) :
  guardedRun m -> playingIn m = false ->
  SpeedReader.run (map (fun s => (SpeedReader.Fire (fst s), snd s)) steps) m = m.
Proof.
  intros Hrun Hstop.
  pose proof (stopped_idle m (guardedRun_onePending m Hrun) Hstop) as Hidle.
  unfold idle in Hidle.
  induction steps as [| s steps IH]; [reflexivity |].
  cbn [map SpeedReader.run fold_left].
  replace (SpeedReader.step m (SpeedReader.Fire (fst s), snd s)) with m;
    [exact IH |].
  unfold SpeedReader.step, SpeedReader.exec. cbn [fst snd SpeedReader.perform].
  unfold SpeedReader.fire, SpeedReader.due. rewrite Hidle. reflexivity.
Qed.

Lemma stopped_engine_stays_silent_witness :
  SpeedReader.run
    [(SpeedReader.Fire 1, 9000); (SpeedReader.Fire 2, 9500)] pausedSample
  = pausedSample.
Proof.
  refine (stopped_engine_stays_silent pausedSample [(1%nat, 9000); (2%nat, 9500)]
            guardedRun_pausedSample _).
  vm_compute. reflexivity.
Defined.

(** ** Further properties of the code *)

(** *** The focus letter, outside the branch for two letters *)

Section FocusLetterMore.

Lemma firstn_all_letters (k : nat) (w : jsstring) :
  (List.length w <= k)%nat -> letters (firstn k w) = letters w.
Proof. intros H. now rewrite firstn_all2. Qed.

Lemma orpWalk_stops_inside (orpIndex : Z) (w : jsstring) :
  0 <= orpIndex < letters w ->
  (CE.orpWalk orpIndex 0 0 w < List.length w)%nat
  /\ letters (firstn (CE.orpWalk orpIndex 0 0 w) w) = orpIndex.
Proof.
  intros [Hlo Hhi].
  destruct (orpWalk_counts orpIndex w 0 0) as (k & Hk & Hn); [lia | unfold letters in Hhi; lia |].
  rewrite Hk. cbn [Nat.add]. rewrite Z.sub_0_r in Hn.
  split; [| exact Hn].
  destruct (Nat.lt_ge_cases k (List.length w)) as [Hlt | Hge]; [exact Hlt |].
  pose proof (firstn_all_letters k w Hge) as Hall.
  unfold letters in *. lia.
Qed.

End FocusLetterMore.

(** X1.  For a word whose number of letters is not 2, the prefix, the focus
    and the suffix that [calculateAdaptiveORP] and [calculateORP] return
    make up the word again, marks included. *)
Theorem focus_split_keeps_every_code_unit (w : jsstring)
  (analysis : option CE.Analysis) :
  letters w <> 2 ->
  whole (CE.calculateAdaptiveORP w analysis) = w
  /\ whole (SpeedReader.calculateORP w analysis) = w.
Proof.
  intros H. split.
  - now apply calculateAdaptiveORP_whole.
  - now apply calculateORP_whole.
Qed.

Lemma focus_split_keeps_every_code_unit_witness :
  whole (CE.calculateAdaptiveORP (str "well-known,") None) = str "well-known,".
Proof.
  refine (proj1 (focus_split_keeps_every_code_unit (str "well-known,") None _)).
  vm_compute. discriminate.
Defined.

(** X2.  For a word of three letters or more, [calculateAdaptiveORP] stops
    inside the word: the focus is one code unit, and the prefix holds as many
    letters as the position it aimed at, the base position plus the offset of
    the analysis, clamped to the letters of the word.  Marks in the prefix
    are not counted. *)
Theorem focus_follows_the_counted_letters (w : jsstring)
  (analysis : option CE.Analysis) :
  3 <= letters w ->
  List.length (CE.focus (CE.calculateAdaptiveORP w analysis)) = 1%nat
  /\ letters (CE.prefix (CE.calculateAdaptiveORP w analysis))
     = focusIndex w analysis
  /\ 0 <= focusIndex w analysis < letters w.
Proof.
  intros H3. unfold CE.calculateAdaptiveORP, focusIndex, letters in *.
  destruct (Z.eqb_spec (CE.len (keep isWord w)) 0); [lia |].
  destruct (Z.eqb_spec (CE.len (keep isWord w)) 1); [lia |].
  destruct (Z.eqb_spec (CE.len (keep isWord w)) 2); [lia |].
  set (target := Z.max 0 (Z.min (CE.len (keep isWord w) - 1)
                    (CE.baseOrpIndex (CE.len (keep isWord w))
                     + CE.offsetOf analysis))).
  assert (Hrange : 0 <= target < CE.len (keep isWord w)) by (subst target; lia).
  destruct (orpWalk_stops_inside target w Hrange) as [Hin Hcount].
  cbn [CE.splitAt CE.focus CE.prefix]. split; [| split].
  - unfold charAtOrEmpty.
    destruct (nth_error w (CE.orpWalk target 0 0 w)) eqn:E; [reflexivity |].
    apply nth_error_None in E. lia.
  - unfold substring. rewrite Nat.sub_0_r, skipn_O. exact Hcount.
  - exact Hrange.
Qed.

Lemma focus_follows_the_counted_letters_witness :
  letters (CE.prefix (CE.calculateAdaptiveORP (str "(e-mail)") None))
  = focusIndex (str "(e-mail)") None.
Proof.
  refine (proj1 (proj2
    (focus_follows_the_counted_letters (str "(e-mail)") None _))).
  vm_compute. discriminate.
Defined.

(** X3.  [setWPM] returns the value it stored.  Given [NaN] it stores
    [NaN]: the clamp [Math.max(50, Math.min(1500, wpm))] lets it through.
    Given any other number, infinite ones included, it stores a number
    between 50 and 1500, and the number it was given when that lies between
    50 and 1500. *)
Theorem setWPM_clamps_and_returns (n : number) (m : SpeedReader.Machine) :
  let stored := wpmOf (SpeedReader.exec (SpeedReader.setWPM n) m) in
  fst (SpeedReader.setWPM n m) = SpeedReader.Ok stored
  /\ (n = NaN -> stored = NaN)
  /\ (n <> NaN -> nle (Num 50) stored /\ nle stored (Num 1500))
  /\ (nle (Num 50) n -> nle n (Num 1500) -> nsame stored n).
Proof.
  cbv zeta. split; [reflexivity |].
  split; [now intros -> |]. split; [apply setWPM_in_range |].
  rewrite setWPM_stores.
  destruct n as [q | | |]; cbn [nle]; try tauto.
  intros Hlo Hhi. cbn [nmin nmax nsame].
  destruct (Qmin_cases 1500 q) as [[E H] | [E H]]; rewrite E;
    destruct (Qmax_cases 50 (Qmin 1500 q)) as [[E' H'] | [E' H']];
    rewrite E in E', H'; rewrite E'; lra.
Qed.

Lemma setWPM_clamps_and_returns_witness :
  nsame (wpmOf (SpeedReader.exec (SpeedReader.setWPM (Num 300))
                  (SpeedReader.boot SpeedReader.noOptions)))
    (Num 300).
Proof.
  refine (proj2 (proj2 (proj2 (setWPM_clamps_and_returns (Num 300)
            (SpeedReader.boot SpeedReader.noOptions)))) _ _);
    vm_compute; discriminate.
Defined.

(** *** The two tokenizers agree *)

Section Tokenizers.

Lemma splitSpacesAux_words (s : jsstring) :
  forall (inRun : bool) (piece : jsstring),
    (inRun = true -> piece = []) ->
    List.filter CE.nonEmpty (splitSpacesAux inRun piece s) = wordsAux piece s.
Proof.
  induction s as [| c r IH]; intros inRun piece Hrun.
  - reflexivity.
  - cbn [splitSpacesAux wordsAux]. destruct (isSpace c).
    + destruct inRun.
      * rewrite (Hrun eq_refl). now rewrite IH.
      * change (rev piece :: splitSpacesAux true [] r)
          with ([rev piece] ++ splitSpacesAux true [] r).
        rewrite List.filter_app. now rewrite IH.
    + apply IH. discriminate.
Qed.

Lemma wordsOf_aux (s : jsstring) : wordsOf s = wordsAux [] s.
Proof. apply splitSpacesAux_words. discriminate. Qed.

Lemma wordsAux_space (a b : jsstring) (c : N) :
  isSpace c = true ->
  forall piece, wordsAux piece (a ++ c :: b) = wordsAux piece a ++ wordsAux [] b.
Proof.
  intros Hc. induction a as [| x a IH]; intros piece.
  - cbn. now rewrite Hc.
  - cbn. destruct (isSpace x).
    + rewrite IH. now rewrite app_assoc.
    + apply IH.
Qed.

Lemma wordsOf_space (a b : jsstring) (c : N) :
  isSpace c = true -> wordsOf (a ++ c :: b) = wordsOf a ++ wordsOf b.
Proof. intros Hc. rewrite !wordsOf_aux. now apply wordsAux_space. Qed.

Lemma wordsOf_leading_space (c : N) (r : jsstring) :
  isSpace c = true -> wordsOf (c :: r) = wordsOf r.
Proof. intros Hc. apply (wordsOf_space [] r c Hc). Qed.

(** What [afterBlankLine] skips is white space, and not nothing. *)
Lemma afterBlankLine_skips_spaces (r rest : jsstring) :
  afterBlankLine r = Some rest ->
  exists skipped,
    r = skipped ++ rest /\ Forall (fun c => isSpace c = true) skipped.
Proof.
  revert rest. induction r as [| c r IH]; intros rest H; [discriminate |].
  cbn in H. destruct (isSpace c) eqn:Ec; [| discriminate].
  destruct (afterBlankLine r) as [rest' |] eqn:E.
  - injection H as <-. destruct (IH rest' eq_refl) as (skipped & -> & Hall).
    exists (c :: skipped). split; [reflexivity | now constructor].
  - destruct (c =? 10)%N; [| discriminate]. injection H as <-.
    exists [c]. split; [reflexivity | now repeat constructor].
Qed.

Lemma splitParagraphsAux_words (s : jsstring) :
  forall (skip : nat) (piece : jsstring),
    (skip <= List.length s)%nat ->
    Forall (fun c => isSpace c = true) (firstn skip s) ->
    (skip <> O -> piece = []) ->
    concat (map wordsOf (splitParagraphsAux skip piece s))
    = wordsOf (rev piece ++ s).
Proof.
  induction s as [| c r IH]; intros skip piece Hlen Hspaces Hpiece.
  - cbn in *. now rewrite !app_nil_r.
  - cbn [splitParagraphsAux]. destruct skip as [| n].
    + destruct (c =? 10)%N eqn:Enl.
      * destruct (afterBlankLine r) as [rest |] eqn:E.
        -- destruct (afterBlankLine_skips_spaces r rest E)
             as (skipped & Hr & Hall).
           assert (Hskip : (List.length r - List.length rest)%nat
                           = List.length skipped).
           { rewrite Hr, length_app. lia. }
           cbn [map concat]. rewrite Hskip, IH.
           ++ cbn [rev app]. apply N.eqb_eq in Enl. subst c.
              now rewrite wordsOf_space.
           ++ rewrite Hr, length_app. lia.
           ++ rewrite Hr, firstn_app, Nat.sub_diag, firstn_all, firstn_O,
                app_nil_r. exact Hall.
           ++ reflexivity.
        -- rewrite IH; [| lia | constructor | congruence].
           cbn [rev]. now rewrite <- app_assoc.
      * rewrite IH; [| lia | constructor | congruence].
        cbn [rev]. now rewrite <- app_assoc.
    + cbn [firstn] in Hspaces. apply Forall_cons in Hspaces as [Hc Hrest].
      rewrite (Hpiece ltac:(discriminate)). cbn [rev app].
      rewrite wordsOf_leading_space by exact Hc.
      cbn in Hlen. now apply (IH n []); [lia | | ].
Qed.

Lemma splitParagraphs_words (s : jsstring) :
  concat (map wordsOf (splitParagraphs s)) = wordsOf s.
Proof.
  unfold splitParagraphs.
  now rewrite splitParagraphsAux_words; [| lia | constructor | ].
Qed.

Lemma wordsAux_replaceCR (s : jsstring) :
  forall piece, wordsAux piece (SpeedReader.replaceCR s) = wordsAux piece s.
Proof.
  unfold SpeedReader.replaceCR.
  induction s as [| c r IH]; intros piece; [reflexivity |].
  cbn [map wordsAux]. destruct (N.eqb_spec c 13) as [-> | Hc].
  - change (isSpace 10) with true. change (isSpace 13) with true.
    cbn iota. now rewrite IH.
  - destruct (isSpace c); now rewrite IH.
Qed.

Lemma replaceCRLF_two (c d : N) (r : jsstring) :
  SpeedReader.replaceCRLF (c :: d :: r) =
    if (c =? 13)%N && (d =? 10)%N then 10%N :: SpeedReader.replaceCRLF r
    else c :: SpeedReader.replaceCRLF (d :: r).
Proof. reflexivity. Qed.

Lemma wordsAux_replaceCRLF (n : nat) :
  forall (s piece : jsstring),
    (List.length s <= n)%nat ->
    wordsAux piece (SpeedReader.replaceCRLF s) = wordsAux piece s.
Proof.
  induction n as [| n IH]; intros s piece Hn.
  - destruct s; [reflexivity | cbn in Hn; lia].
  - destruct s as [| c [| d r]]; [reflexivity | reflexivity |].
    rewrite replaceCRLF_two.
    destruct ((c =? 13)%N && (d =? 10)%N) eqn:E.
    + apply andb_prop in E as [Ec Ed].
      apply N.eqb_eq in Ec, Ed. subst c d.
      cbn [wordsAux]. change (isSpace 10) with true. change (isSpace 13) with true.
      cbn iota. cbn [emit List.filter rev CE.nonEmpty app].
      rewrite IH; [reflexivity | cbn in Hn; lia].
    + cbn [wordsAux]. destruct (isSpace c);
        rewrite IH; try reflexivity; cbn in Hn |- *; lia.
Qed.

Lemma parseText_words (text : jsstring) :
  SpeedReader.parseText text = wordsOf text.
Proof.
  unfold SpeedReader.parseText. destruct text as [| c r]; [reflexivity |].
  change (List.filter CE.nonEmpty
            (splitSpaces (SpeedReader.replaceCR (SpeedReader.replaceCRLF (c :: r)))))
    with (wordsOf (SpeedReader.replaceCR (SpeedReader.replaceCRLF (c :: r)))).
  rewrite !wordsOf_aux, wordsAux_replaceCR.
  now apply (wordsAux_replaceCRLF (List.length (c :: r))).
Qed.

Lemma map_imap_inverse {A B} (g : B -> A) (l : list A) :
  forall f : nat -> A -> B,
    (forall i x, g (f i x) = x) -> map g (imap f l) = l.
Proof.
  induction l as [| x l IH]; intros f Hf; [reflexivity |].
  cbn. rewrite Hf. f_equal. apply IH. intros i y. apply Hf.
Qed.

Lemma paragraphTokens_words (paragraphs paraIndex : nat) (globalIndex : Z)
  (ws : list jsstring) :
  map CE.word (CE.paragraphTokens paragraphs paraIndex globalIndex ws) = ws.
Proof. unfold CE.paragraphTokens. now apply map_imap_inverse. Qed.

Lemma paragraphTokens_length (paragraphs paraIndex : nat) (globalIndex : Z)
  (ws : list jsstring) :
  List.length (CE.paragraphTokens paragraphs paraIndex globalIndex ws)
  = List.length ws.
Proof.
  rewrite <- (paragraphTokens_words paragraphs paraIndex globalIndex ws) at 2.
  now rewrite length_map.
Qed.

Lemma preprocessParagraphs_words (paragraphs : nat) (paras : list jsstring) :
  forall (paraIndex : nat) (globalIndex : Z),
    map CE.word (CE.preprocessParagraphs paragraphs paraIndex globalIndex paras)
    = concat (map wordsOf paras).
Proof.
  induction paras as [| para paras IH]; intros paraIndex globalIndex;
    [reflexivity |].
  cbn [CE.preprocessParagraphs map concat].
  now rewrite map_app, paragraphTokens_words, IH.
Qed.

Lemma preprocessText_words (text : jsstring) :
  map CE.word (CE.preprocessText text) = wordsOf text.
Proof.
  unfold CE.preprocessText.
  now rewrite preprocessParagraphs_words, splitParagraphs_words.
Qed.

Lemma preprocessParagraphs_index (paragraphs : nat) (paras : list jsstring) :
  forall (paraIndex : nat) (globalIndex : Z) (i : nat) (token : CE.Token),
    CE.preprocessParagraphs paragraphs paraIndex globalIndex paras !! i
    = Some token ->
    CE.index token = globalIndex + Z.of_nat i.
Proof.
  induction paras as [| para paras IH];
    intros paraIndex globalIndex i token H; [discriminate |].
  cbn [CE.preprocessParagraphs] in H.
  apply lookup_app_Some in H as [H | [Hge H]].
  - unfold CE.paragraphTokens in H. rewrite list_lookup_imap in H.
    destruct (_ !! i); [| discriminate]. now injection H as <-.
  - apply IH in H. rewrite paragraphTokens_length in *.
    unfold CE.len in H. lia.
Qed.

End Tokenizers.

(** X6.  [load] fills [words] and [tokens] from the same text with two
    tokenizers, one that splits the text on white space and one that splits
    it into paragraphs first.  They find the same words in the same order:
    after [load] the token at a position is the token of the word at that
    position, its [index] is that position, and [load] returns the number
    of words. *)
Theorem load_aligns_tokens_with_words (text : jsstring) (now : Z)
  (m : SpeedReader.Machine) :
  let r := SpeedReader.reader (afterLoad text now m) in
  SpeedReader.words r = wordsOf text
  /\ map CE.word (SpeedReader.tokens r) = SpeedReader.words r
  /\ (forall (i : nat) (token : CE.Token),
        SpeedReader.tokens r !! i = Some token ->
        CE.index token = Z.of_nat i
        /\ SpeedReader.words r !! i = Some (CE.word token))
  /\ fst (SpeedReader.load text now m)
     = SpeedReader.Ok (CE.len (wordsOf text)).
Proof.
  assert (Hw : SpeedReader.words (SpeedReader.reader (afterLoad text now m))
               = SpeedReader.parseText text).
  { unfold afterLoad, SpeedReader.load, SpeedReader.cancelPending,
      SpeedReader.exec.
    unfold mbind, SpeedReader.M_bind, mret, SpeedReader.M_ret, SpeedReader.this,
      SpeedReader.modify, SpeedReader.notify, SpeedReader.clearTimeout.
    cbn [fst snd SpeedReader.reader].
    destruct (SpeedReader.timeoutId _); reflexivity. }
  assert (Ht : SpeedReader.tokens (SpeedReader.reader (afterLoad text now m))
               = CE.preprocessText text).
  { unfold afterLoad, SpeedReader.load, SpeedReader.cancelPending,
      SpeedReader.exec.
    unfold mbind, SpeedReader.M_bind, mret, SpeedReader.M_ret, SpeedReader.this,
      SpeedReader.modify, SpeedReader.notify, SpeedReader.clearTimeout.
    cbn [fst snd SpeedReader.reader].
    destruct (SpeedReader.timeoutId _); reflexivity. }
  cbv zeta. rewrite Hw, Ht, parseText_words. split; [reflexivity |].
  split; [apply preprocessText_words |]. split.
  - intros i token H. split.
    + apply (preprocessParagraphs_index _ _ _ _ _ _ H).
    + rewrite <- preprocessText_words, list_lookup_fmap, H. reflexivity.
  - unfold SpeedReader.load, SpeedReader.cancelPending.
    unfold mbind, SpeedReader.M_bind, mret, SpeedReader.M_ret, SpeedReader.this,
      SpeedReader.modify, SpeedReader.notify, SpeedReader.clearTimeout.
    cbn [fst snd SpeedReader.reader].
    destruct (SpeedReader.timeoutId _); cbn; now rewrite parseText_words.
Qed.

Lemma load_aligns_words (text : jsstring) (now : Z) (m : SpeedReader.Machine) :
  SpeedReader.words (SpeedReader.reader (afterLoad text now m))
  = SpeedReader.parseText text
  /\ SpeedReader.tokens (SpeedReader.reader (afterLoad text now m))
     = CE.preprocessText text.
Proof.
  unfold afterLoad, SpeedReader.load, SpeedReader.cancelPending,
    SpeedReader.exec.
  unfold mbind, SpeedReader.M_bind, mret, SpeedReader.M_ret, SpeedReader.this,
    SpeedReader.modify, SpeedReader.notify, SpeedReader.clearTimeout.
  cbn [fst snd SpeedReader.reader].
  destruct (SpeedReader.timeoutId _); split; reflexivity.
Qed.

(** *** Collocations *)

Section Collocations.

Lemma phraseMatches_normalized (phrase : list jsstring) :
  forall ws : list jsstring,
    CE.phraseMatches phrase ws = true ->
    map CE.normalize (firstn (List.length phrase) ws) = phrase.
Proof.
  induction phrase as [| p phrase IH]; intros ws H; [reflexivity |].
  destruct ws as [| w ws]; [discriminate |].
  cbn in H. apply andb_prop in H as [Hw Hrest].
  apply bool_decide_eq_true in Hw. cbn. now rewrite Hw, IH.
Qed.

Lemma firstMatch_sound (catalog : list (list jsstring)) (ws : list jsstring)
  (i : nat) (c : CE.Collocation) :
  CE.firstMatch catalog ws i = Some c ->
  exists phrase,
    In phrase catalog
    /\ CE.length c = CE.len phrase
    /\ (List.length phrase <= List.length ws - i)%nat
    /\ CE.words c = firstn (List.length phrase) (skipn i ws)
    /\ CE.display c = joinSpace (CE.words c)
    /\ map CE.normalize (CE.words c) = phrase.
Proof.
  induction catalog as [| phrase catalog IH]; intros H; [discriminate |].
  cbn [CE.firstMatch] in H.
  destruct (Nat.ltb_spec (List.length ws - i) (List.length phrase)) as [Hlt | Hge].
  - destruct (IH H) as (p & Hin & Hrest). exists p. split; [now right | exact Hrest].
  - destruct (CE.phraseMatches phrase (skipn i ws)) eqn:Em.
    + injection H as <-. exists phrase. cbn.
      repeat split; try reflexivity; [now left | exact Hge |].
      now apply phraseMatches_normalized.
    + destruct (IH H) as (p & Hin & Hrest). exists p.
      split; [now right | exact Hrest].
Qed.

Lemma catalog_phrase_lengths :
  forall phrase, In phrase CE.collocations ->
    (2 <= List.length phrase <= 4)%nat.
Proof.
  assert (H : forallb (fun p => (2 <=? List.length p)%nat
                                && (List.length p <=? 4)%nat) CE.collocations
              = true) by (vm_compute; reflexivity).
  intros phrase Hin. rewrite forallb_forall in H. specialize (H phrase Hin).
  apply andb_prop in H as [H2 H4].
  apply Nat.leb_le in H2, H4. lia.
Qed.

(** [detectCollocation] is the scan of the catalog; the equation is between
    the two functions, so that checking it unfolds one definition and does
    not walk the catalog. *)
Lemma detectCollocation_scans_catalog :
  CE.detectCollocation = fun ws index => CE.firstMatch CE.collocations ws index.
Proof. unfold CE.detectCollocation. reflexivity. Qed.

End Collocations.

(** X7.  A collocation that [detectCollocation] finds at a position is a
    phrase of the catalog of two to four words: its words are the words of
    the text from that position on, they fit in the text, the text shown for
    it is these words joined by single spaces, and without case and marks
    they are the phrase of the catalog. *)
Theorem detectCollocation_finds_catalog_phrase (ws : list jsstring) (i : nat)
  (c : CE.Collocation) :
  CE.detectCollocation ws i = Some c ->
  2 <= CE.length c <= 4
  /\ Z.of_nat i + CE.length c <= CE.len ws
  /\ CE.words c = firstn (Z.to_nat (CE.length c)) (skipn i ws)
  /\ CE.display c = joinSpace (CE.words c)
  /\ In (map CE.normalize (CE.words c)) CE.collocations.
Proof.
  intros H. rewrite detectCollocation_scans_catalog in H. cbv beta in H.
  destruct (firstMatch_sound _ _ _ _ H)
    as (phrase & Hin & Hlen & Hfit & Hwords & Hdisplay & Hnorm).
  pose proof (catalog_phrase_lengths phrase Hin) as Hbounds.
  assert (Hl : CE.length c = Z.of_nat (List.length phrase)) by exact Hlen.
  split; [lia |]. split; [unfold CE.len; lia |].
  split; [now rewrite Hl, Nat2Z.id |].
  split; [exact Hdisplay |].
  rewrite Hnorm. exact Hin.
Qed.

Lemma detectCollocation_finds_catalog_phrase_witness :
  exists c,
    CE.detectCollocation (map str ["so"; "As"; "well,"; "as"; "that"]) 1 = Some c
    /\ CE.words c = map str ["As"; "well,"; "as"].
Proof.
  eexists. split; [vm_compute; reflexivity |].
  refine (proj1 (proj2 (proj2 (detectCollocation_finds_catalog_phrase
            (map str ["so"; "As"; "well,"; "as"; "that"]) 1 _ _)))).
  vm_compute. reflexivity.
Defined.

Section TokenStream.

Lemma inPlace_app_l (front back : list CE.Token) (i : nat) (c : CE.Collocation) :
  inPlace front i c -> inPlace (front ++ back) i c.
Proof.
  unfold inPlace, CE.len. intros (Hlen & Hfit & Hwords).
  split; [exact Hlen |]. split; [rewrite length_app; lia |].
  rewrite Hwords. f_equal.
  rewrite skipn_app, firstn_app, length_skipn.
  replace (Z.to_nat (CE.length c) - (List.length front - i))%nat with O by lia.
  now rewrite firstn_O, app_nil_r.
Qed.

Lemma inPlace_app_r (front back : list CE.Token) (i : nat) (c : CE.Collocation) :
  inPlace back i c -> inPlace (front ++ back) (List.length front + i) c.
Proof.
  unfold inPlace, CE.len. intros (Hlen & Hfit & Hwords).
  split; [exact Hlen |]. split; [rewrite length_app; lia |].
  rewrite Hwords. do 2 f_equal.
  rewrite skipn_app. rewrite (skipn_all2 (n := List.length front + i) front) by lia.
  now replace (List.length front + i - List.length front)%nat with i by lia.
Qed.

(** The collocation of a token is what the scan of the catalog finds at
    its position in the paragraph.  The catalog is a variable while the
    token is taken apart, so that nothing walks it. *)
Lemma paragraphTokens_collocation (paragraphs paraIndex : nat) (globalIndex : Z)
  (ws : list jsstring) (i : nat) (token : CE.Token) :
  CE.paragraphTokens paragraphs paraIndex globalIndex ws !! i = Some token ->
  CE.collocation token = CE.firstMatch CE.collocations ws i.
Proof.
  unfold CE.paragraphTokens. rewrite detectCollocation_scans_catalog.
  generalize CE.collocations as catalog. intros catalog Hi.
  rewrite list_lookup_imap in Hi.
  destruct (ws !! i) as [w |]; [| discriminate]. now injection Hi as <-.
Qed.

Lemma paragraphTokens_inPlace (paragraphs paraIndex : nat) (globalIndex : Z)
  (ws : list jsstring) :
  collocationsInPlace (CE.paragraphTokens paragraphs paraIndex globalIndex ws).
Proof.
  intros i token c Hi Hc.
  pose proof (paragraphTokens_words paragraphs paraIndex globalIndex ws) as Hws.
  pose proof (paragraphTokens_length paragraphs paraIndex globalIndex ws) as Hn.
  rewrite (paragraphTokens_collocation _ _ _ _ _ _ Hi) in Hc.
  destruct (firstMatch_sound _ _ _ _ Hc)
    as (phrase & Hin & Hlen & Hfit & Hwords & _ & _).
  pose proof (catalog_phrase_lengths phrase Hin) as Hbounds.
  assert (Hl : CE.length c = Z.of_nat (List.length phrase)) by exact Hlen.
  unfold inPlace, CE.len. rewrite Hn.
  split; [lia |]. split; [lia |].
  rewrite Hl, Nat2Z.id, Hwords, <- firstn_map, <- skipn_map.
  now rewrite Hws.
Qed.

Lemma preprocessParagraphs_inPlace (paragraphs : nat) (paras : list jsstring) :
  forall (paraIndex : nat) (globalIndex : Z),
    collocationsInPlace
      (CE.preprocessParagraphs paragraphs paraIndex globalIndex paras).
Proof.
  induction paras as [| para paras IH]; intros paraIndex globalIndex;
    [intros i token c H; discriminate |].
  cbn [CE.preprocessParagraphs]. intros i token c Hi Hc.
  apply lookup_app_Some in Hi as [Hi | [Hge Hi]].
  - apply inPlace_app_l. now apply (paragraphTokens_inPlace _ _ _ _ i token c).
  - replace i with
      (List.length (CE.paragraphTokens paragraphs paraIndex globalIndex
                      (List.filter CE.nonEmpty (splitSpaces para)))
       + (i - List.length (CE.paragraphTokens paragraphs paraIndex globalIndex
                      (List.filter CE.nonEmpty (splitSpaces para)))))%nat
      by lia.
    apply inPlace_app_r. now apply (IH _ _ _ token c).
Qed.

Lemma paragraphTokens_paragraph (paragraphs paraIndex : nat) (globalIndex : Z)
  (ws : list jsstring) (i : nat) (token : CE.Token) :
  CE.paragraphTokens paragraphs paraIndex globalIndex ws !! i = Some token ->
  CE.paragraphIndex token = Some (Z.of_nat paraIndex).
Proof.
  unfold CE.paragraphTokens. rewrite detectCollocation_scans_catalog.
  generalize CE.collocations as catalog. intros catalog Hi.
  rewrite list_lookup_imap in Hi.
  destruct (ws !! i) as [w |]; [| discriminate]. now injection Hi as <-.
Qed.

Lemma inOneParagraph_app_l (front back : list CE.Token) (i : nat)
  (c : CE.Collocation) :
  inPlace front i c -> inOneParagraph front i c ->
  inOneParagraph (front ++ back) i c.
Proof.
  unfold inPlace, CE.len. intros (_ & Hfit & _) Hone j first other Hj Hi Hij.
  rewrite lookup_app_l in Hi, Hij by lia.
  now apply (Hone j first other).
Qed.

Lemma inOneParagraph_app_r (front back : list CE.Token) (i : nat)
  (c : CE.Collocation) :
  inOneParagraph back i c ->
  inOneParagraph (front ++ back) (List.length front + i) c.
Proof.
  intros Hone j first other Hj Hi Hij.
  rewrite lookup_app_r in Hi, Hij by lia.
  apply (Hone j first other Hj).
  - now replace (List.length front + i - List.length front)%nat with i
      in Hi by lia.
  - now replace (List.length front + i + j - List.length front)%nat
      with (i + j)%nat in Hij by lia.
Qed.

Lemma paragraphTokens_inParagraphs (paragraphs paraIndex : nat)
  (globalIndex : Z) (ws : list jsstring) :
  collocationsInParagraphs
    (CE.paragraphTokens paragraphs paraIndex globalIndex ws).
Proof.
  intros i token c _ _ j first other _ Hi Hij.
  now rewrite (paragraphTokens_paragraph _ _ _ _ _ _ Hi),
    (paragraphTokens_paragraph _ _ _ _ _ _ Hij).
Qed.

Lemma preprocessParagraphs_inParagraphs (paragraphs : nat)
  (paras : list jsstring) :
  forall (paraIndex : nat) (globalIndex : Z),
    collocationsInParagraphs
      (CE.preprocessParagraphs paragraphs paraIndex globalIndex paras).
Proof.
  induction paras as [| para paras IH]; intros paraIndex globalIndex;
    [intros i token c H; discriminate |].
  cbn [CE.preprocessParagraphs]. intros i token c Hi Hc.
  apply lookup_app_Some in Hi as [Hi | [Hge Hi]].
  - apply inOneParagraph_app_l.
    + now apply (paragraphTokens_inPlace _ _ _ _ i token c).
    + now apply (paragraphTokens_inParagraphs _ _ _ _ i token c).
  - replace i with
      (List.length (CE.paragraphTokens paragraphs paraIndex globalIndex
                      (List.filter CE.nonEmpty (splitSpaces para)))
       + (i - List.length (CE.paragraphTokens paragraphs paraIndex globalIndex
                      (List.filter CE.nonEmpty (splitSpaces para)))))%nat
      by lia.
    apply inOneParagraph_app_r. now apply (IH _ _ _ token c).
Qed.

End TokenStream.

(** X8.  In the token stream of every text, a collocation attached to a
    token has two to four words, they are the words of the tokens from that
    token on, and the stream holds them all; the tokens it covers are all
    tokens of the paragraph of the first.  A collocation never runs past
    the end of the text, nor past the end of its paragraph. *)
Theorem preprocessText_collocations_in_place (text : jsstring) :
  collocationsInPlace (CE.preprocessText text)
  /\ collocationsInParagraphs (CE.preprocessText text).
Proof.
  unfold CE.preprocessText. split.
  - apply preprocessParagraphs_inPlace.
  - apply preprocessParagraphs_inParagraphs.
Qed.

Lemma preprocessText_collocations_in_place_witness :
  let text := str "we go in order to win" ++ [10%N] ++ str "in order"
              ++ [10%N; 10%N] ++ str "to win" in
  exists token c,
    CE.preprocessText text !! 2%nat = Some token
    /\ CE.collocation token = Some c
    /\ inPlace (CE.preprocessText text) 2%nat c
    /\ inOneParagraph (CE.preprocessText text) 2%nat c
    /\ (CE.collocation <$> CE.preprocessText text !! 6%nat) = Some None.
Proof.
  cbv zeta. eexists. eexists.
  split; [vm_compute; reflexivity |].
  split; [vm_compute; reflexivity |].
  split; [| split; [| vm_compute; reflexivity]].
  - eapply (proj1 (preprocessText_collocations_in_place _) 2%nat);
      vm_compute; reflexivity.
  - eapply (proj2 (preprocessText_collocations_in_place _) 2%nat);
      vm_compute; reflexivity.
Defined.

(** *** The cursor stays in the text *)

Section Cursor.

Import SpeedReader.

Ltac run_calls :=
  unfold when, schedule, updateFatigue, cancelPending, complete;
  unfold exec, mbind, M_bind, mret, M_ret, this, modify, notify,
    setTimeout, clearTimeout, throw;
  cbn [fst snd reader pending nextId log].

#[local] Arguments CE.updateFatigue : simpl never.
#[local] Arguments CE.analyzeToken : simpl never.
#[local] Arguments CE.getFatigueStatus : simpl never.
#[local] Arguments CE.assessComprehension : simpl never.
#[local] Arguments CE.preprocessText : simpl never.
#[local] Arguments CE.reset : simpl never.
#[local] Arguments getWordDuration : simpl never.
#[local] Arguments parseText : simpl never.
#[local] Arguments calculateORP : simpl never.

Lemma consistent_by_place (m m' : Machine) :
  placeOf m' = placeOf m -> consistent m -> consistent m'.
Proof.
  unfold placeOf, consistent, wordCountOf, cursorOf, skipCountOf.
  intros [= Hw Ht Hc Hs]. rewrite Hw, Ht, Hc, Hs. auto.
Qed.

(** [getCurrentWord] moves nothing; it may set [skipCount], from 0, to the
    words of a collocation that are still ahead. *)
Lemma getCurrentWord_place (m : Machine) :
  consistent m ->
  words (reader (exec getCurrentWord m)) = words (reader m)
  /\ tokens (reader (exec getCurrentWord m)) = tokens (reader m)
  /\ cursorOf (exec getCurrentWord m) = cursorOf m
  /\ (skipCountOf (exec getCurrentWord m) = skipCountOf m
      \/ (skipCountOf m = 0 /\ 0 <= cursorOf m
          /\ 0 <= skipCountOf (exec getCurrentWord m)
          /\ cursorOf m + skipCountOf (exec getCurrentWord m)
             < wordCountOf m)).
Proof.
  intros (Halign & Hplace & Hskip & Hfit & Hcursor).
  unfold getCurrentWord, cursorOf, skipCountOf, wordCountOf in *.
  run_calls.
  destruct (_ >=? _); [cbn; tauto |].
  destruct (at_ (words (reader m)) (currentIndex (reader m))) as [w |] eqn:Ew;
    [| cbn; tauto].
  apply at_Some in Ew as [Hrange Hw].
  set (token := default (bareToken w (currentIndex (reader m)))
                  (at_ (tokens (reader m)) (currentIndex (reader m)))).
  assert (Hset : forall c, CE.collocation token = Some c ->
                   2 <= CE.length c
                   /\ currentIndex (reader m) + CE.length c
                      <= CE.len (words (reader m))).
  { intros c Hc. subst token.
    destruct (at_ (tokens (reader m)) (currentIndex (reader m)))
      as [tk |] eqn:Et; [| discriminate].
    apply at_Some in Et as [_ Hlookup]. cbn [default] in Hc.
    destruct (Hplace _ _ _ Hlookup Hc) as ((H2 & _) & Hin & _).
    rewrite <- Halign. unfold CE.len in *. rewrite length_map. lia. }
  destruct (adaptiveMode (config (reader m)));
    [destruct (CE.analyzeToken token (cognitive (reader m))) as [a ce] |];
    (destruct (CE.collocation token) as [c |] eqn:Ec;
     [destruct (Z.eqb_spec (skipCount (reader m)) 0) as [H0 | H0] |]);
    cbn; repeat split; try tauto;
    right; destruct (Hset c eq_refl); lia.
Qed.

Lemma getCurrentWord_consistent : ensures consistent getCurrentWord consistent.
Proof.
  intros m H. destruct (getCurrentWord_place m H) as (Hw & Ht & Hc & Hs).
  destruct H as (Halign & Hplace & Hskip & Hfit & Hcursor).
  unfold consistent, wordCountOf in *. rewrite Hw, Ht, Hc.
  destruct Hs as [Hs | Hs].
  - rewrite Hs. tauto.
  - split; [exact Halign |]. split; [exact Hplace |]. lia.
Qed.

Lemma ensures_at {A} (P : Machine -> Prop) (c : M A) (Q : Machine -> Prop) :
  ensures P c Q -> forall m, P m -> Q (exec c m).
Proof. intros H. exact H. Qed.

Ltac keeps_place :=
  apply (ensures_keeps placeOf);
  [solve [keeps_all] | exact consistent_by_place].

(** Calls in sequence that keep the place in the text. *)
Ltac place_steps :=
  repeat first
    [ apply (ensures_bind consistent consistent consistent);
      [keeps_place | intros ? | auto]
    | match goal with
      | |- ensures _ (if ?b then _ else _) _ => destruct b
      end ].

Ltac by_place H :=
  unfold consistent, cursorOf, skipCountOf, wordCountOf in *; cbn;
  destruct H as (? & ? & ? & ? & ?);
  split; [assumption |]; split; [assumption |]; lia.

Lemma showCurrent_consistent : ensures consistent showCurrent consistent.
Proof.
  unfold showCurrent.
  apply (ensures_bind consistent consistent consistent);
    [apply getCurrentWord_consistent | intros ?; keeps_place | auto].
Qed.

Lemma keeps_place_complete (now : Z) : keeps placeOf (complete now).
Proof. unfold complete. keeps_all. Qed.

Lemma keeps_place_pause (now : Z) : keeps placeOf (pause now).
Proof. unfold pause, cancelPending. keeps_all. Qed.

#[local] Hint Resolve keeps_place_complete keeps_place_pause : keeps.

(** [showNextWord] moves the cursor by one, over a word that is there. *)
Lemma showNextWord_consistent (now : Z) :
  ensures consistent (showNextWord now) consistent.
Proof.
  intros m H. unfold showNextWord. rewrite exec_bind. cbn [this fst].
  change (exec this m) with m.
  destruct (skipCount (reader m) >? 0) eqn:Eskip.
  - run_calls. cbn.
    destruct (isPlaying (reader m) && _); cbn; by_place H.
  - destruct (currentIndex (reader m) >=? CE.len (words (reader m))) eqn:Eend.
    + apply (ensures_keeps placeOf consistent (complete now));
        [apply keeps_place_complete | exact consistent_by_place | exact H].
    + rewrite exec_bind.
      pose proof (getCurrentWord_place m H) as (Hw & Ht & Hc & Hs).
      pose proof (getCurrentWord_consistent m H) as H1.
      set (m1 := exec getCurrentWord m) in *.
      destruct (fst (getCurrentWord m)) as [cw |]; [| exact H1].
      assert (Hroom : cursorOf m1 + 1 + skipCountOf m1 <= wordCountOf m1).
      { unfold consistent, cursorOf, skipCountOf, wordCountOf in *.
        rewrite Hw, Hc. destruct H as (_ & _ & H0 & _ & _).
        destruct Hs as [Hs | Hs]; [rewrite Hs |]; lia. }
      assert (Hfrom : -1 <= cursorOf m1).
      { unfold consistent, cursorOf in *. destruct H1 as (_ & _ & _ & _ & H1).
        lia. }
      clear Hw Ht Hc Hs H Eskip Eend. run_calls. cbn.
      destruct (isPlaying (reader m1) && _); cbn;
        [destruct cw as [w |]; cbn | destruct (_ >=? _); cbn];
        by_place H1.
Qed.

Lemma play_consistent (now : Z) : ensures consistent (play now) consistent.
Proof.
  intros m H. unfold play. rewrite exec_bind. cbn [this fst].
  change (exec this m) with m.
  destruct (CE.len (words (reader m)) =? 0) eqn:Eempty; [exact H |].
  rewrite exec_bind.
  assert (H0 : consistent
                 (exec (when (currentIndex (reader m) >=? CE.len (words (reader m)))
                          (modify (set_currentIndex 0))) m)).
  { destruct (_ >=? _) eqn:Eend; cbn [when]; [| exact H].
    run_calls. by_place H. }
  destruct (_ >=? _); cbn [when modify mret M_ret fst];
    apply (ensures_at consistent _ consistent); try exact H0;
    place_steps;
    (apply (ensures_bind consistent consistent consistent);
     [apply showNextWord_consistent | intros ?; keeps_place | auto]).
Qed.

Lemma restart_consistent (now : Z) : ensures consistent (restart now) consistent.
Proof.
  unfold restart.
  apply (ensures_bind consistent consistent consistent);
    [keeps_place | intros ? | auto].
  apply (ensures_bind consistent consistent consistent);
    [| intros ? | auto].
  - intros m H. run_calls. by_place H.
  - place_steps.
    apply (ensures_bind consistent consistent consistent);
      [apply getCurrentWord_consistent | intros ?; keeps_place | auto].
Qed.

Lemma consistentOn_by_place (m0 m m' : Machine) :
  placeOf m' = placeOf m -> consistentOn m0 m -> consistentOn m0 m'.
Proof.
  unfold consistentOn. intros Hp (H & Hw & Hc).
  split; [now apply (consistent_by_place m) |].
  unfold placeOf in Hp. injection Hp as Hw' _ Hc' _. split; congruence.
Qed.

(** What [goToWord], [next] and [prev] share: a pause if the engine was
    playing, the move of the cursor to a position of the text with nothing
    left to skip, the word at the cursor, and a play if the engine was
    playing. *)
Lemma move_consistent (m : Machine) (wasPlaying : bool) (target : t -> Z)
  (now : Z) (between : M unit) :
  consistent m ->
  (forall m', cursorOf m' = cursorOf m ->
     0 <= target (reader m') <= wordCountOf m
     \/ (target (reader m') = -1 /\ wordCountOf m = 0)) ->
  keeps placeOf between ->
  consistent
    (exec (when wasPlaying (pause now;; mret tt);;
           modify (fun r => set_skipCount 0 (set_currentIndex (target r) r));;
           between;;
           showCurrent;;
           when wasPlaying (play now;; mret tt)) m).
Proof.
  intros H Htarget Hbetween.
  apply (ensures_at (consistentOn m) _ consistent);
    [| unfold consistentOn; tauto].
  apply (ensures_bind (consistentOn m) (consistentOn m) consistent).
  - apply (ensures_keeps placeOf); [| apply consistentOn_by_place].
    destruct wasPlaying; cbn [when]; keeps_all.
  - intros ?.
    apply (ensures_bind (consistentOn m) consistent consistent);
      [| intros ? | auto].
    + intros m' (H' & Hw & Hc). specialize (Htarget m' Hc). run_calls.
      unfold consistent, cursorOf, skipCountOf, wordCountOf in *.
      rewrite <- Hw in Htarget. cbn.
      destruct H' as (? & ? & ? & ? & ?).
      split; [assumption |]. split; [assumption |]. lia.
    + apply (ensures_bind consistent consistent consistent);
        [apply (ensures_keeps placeOf _ _ Hbetween), consistent_by_place
        | intros ? | auto].
      apply (ensures_bind consistent consistent consistent);
        [apply showCurrent_consistent | intros ? | auto].
      destruct wasPlaying; cbn [when]; [| keeps_place].
      apply (ensures_bind consistent consistent consistent);
        [apply play_consistent | intros ?; keeps_place | auto].
  - unfold consistentOn. tauto.
Qed.

Lemma wordCount_nonneg (m : Machine) : 0 <= wordCountOf m.
Proof. unfold wordCountOf, CE.len. lia. Qed.

Lemma goToWord_consistent (index now : Z) :
  ensures consistent (goToWord index now) consistent.
Proof.
  intros m H. unfold goToWord. rewrite exec_bind. cbn [this fst].
  change (exec this m) with m. cbv zeta.
  pose proof (wordCount_nonneg m) as Hn. unfold wordCountOf in Hn.
  refine (move_consistent m (isPlaying (reader m))
            (fun _ =>
               if (if index <? 0 then 0 else index) >=? CE.len (words (reader m))
               then CE.len (words (reader m)) - 1
               else if index <? 0 then 0 else index)
            now (mret tt) H _ _).
  - intros m' _. unfold wordCountOf. destruct (index <? 0) eqn:E1;
      destruct (_ >=? _) eqn:E2; lia.
  - intros ?; reflexivity.
Qed.

Lemma next_consistent (now : Z) : ensures consistent (next now) consistent.
Proof.
  intros m H. unfold next. rewrite exec_bind. cbn [this fst].
  change (exec this m) with m. cbv zeta.
  destruct (currentIndex (reader m) <? CE.len (words (reader m)) - 1) eqn:E;
    cbn [when]; [| exact H].
  assert (Hfrom : -1 <= cursorOf m).
  { unfold consistent, cursorOf in *. destruct H as (_ & _ & _ & _ & H). lia. }
  refine (move_consistent m (isPlaying (reader m))
            (fun r => currentIndex r + 1) now (mret tt) H _ _).
  - intros m' Hc. unfold wordCountOf, cursorOf in *. lia.
  - intros ?; reflexivity.
Qed.

Lemma keeps_place_updateFatigue (event : CE.FatigueEvent) (now : Z) :
  keeps placeOf (updateFatigue event now).
Proof. intros ?; reflexivity. Qed.

Lemma prev_consistent (now : Z) : ensures consistent (prev now) consistent.
Proof.
  intros m H. unfold prev. rewrite exec_bind. cbn [this fst].
  change (exec this m) with m. cbv zeta.
  destruct (currentIndex (reader m) >? 0) eqn:E; cbn [when]; [| exact H].
  assert (Hto : cursorOf m <= wordCountOf m).
  { unfold consistent in *. destruct H as (_ & _ & H0 & H1 & _). lia. }
  refine (move_consistent m (isPlaying (reader m))
            (fun r => currentIndex r - 1) now
            (updateFatigue CE.EvRewind now) H _ _).
  - intros m' Hc. unfold wordCountOf, cursorOf in *. lia.
  - apply keeps_place_updateFatigue.
Qed.

Lemma jump_consistent (count now : Z) :
  ensures consistent (jump count now) consistent.
Proof.
  unfold jump.
  apply (ensures_bind consistent consistent consistent);
    [keeps_place | intros r | auto].
  apply (ensures_bind consistent consistent consistent);
    [keeps_place | intros ?; apply goToWord_consistent | auto].
Qed.

Lemma load_consistent (text : jsstring) (now : Z) :
  ensures (fun _ => True) (load text now) consistent.
Proof.
  intros m _.
  pose proof (load_aligns_words text now m) as (Hw & Ht).
  assert (Hc : cursorOf (afterLoad text now m) = 0
               /\ skipCountOf (afterLoad text now m) = 0).
  { unfold afterLoad, load, cursorOf, skipCountOf. run_calls.
    destruct (timeoutId _); cbn; split; reflexivity. }
  destruct Hc as [Hc Hs]. fold (afterLoad text now m).
  unfold consistent, wordCountOf. rewrite Hw, Ht, Hc, Hs.
  split; [rewrite parseText_words; apply preprocessText_words |].
  split; [apply preprocessParagraphs_inPlace |].
  unfold CE.len. lia.
Qed.

Lemma toggle_consistent (now : Z) : ensures consistent (toggle now) consistent.
Proof.
  unfold toggle.
  apply (ensures_bind consistent consistent consistent);
    [keeps_place | intros r | auto].
  destruct (isPlaying r); [keeps_place | apply play_consistent].
Qed.

Lemma fire_consistent (id : nat) (now : Z) :
  ensures consistent (fire id now) consistent.
Proof.
  intros m H. unfold fire, exec.
  destruct (due id now m); [| exact H].
  change (consistent (exec (clearTimeout id;; showNextWord now) m)).
  apply (ensures_at consistent _ consistent); [| exact H].
  apply (ensures_bind consistent consistent consistent);
    [keeps_place | intros ?; apply showNextWord_consistent | auto].
Qed.

Lemma step_consistent (m : Machine) (c : Command) (now : Z) :
  consistent m -> consistent (step m (c, now)).
Proof.
  intros H. unfold step. cbn [fst snd].
  destruct c; cbn [perform].
  - apply (ensures_ignore (fun _ => True) consistent); [apply load_consistent | exact I].
  - now apply (ensures_ignore consistent consistent); [apply play_consistent |].
  - apply (ensures_ignore consistent consistent); [keeps_place | exact H].
  - now apply (ensures_ignore consistent consistent); [apply toggle_consistent |].
  - now apply restart_consistent.
  - now apply goToWord_consistent.
  - now apply next_consistent.
  - now apply prev_consistent.
  - now apply jump_consistent.
  - apply (ensures_ignore consistent consistent); [| exact H].
    unfold setWPM. keeps_place.
  - apply (ensures_ignore consistent consistent); [| exact H].
    unfold setMode. keeps_place.
  - apply (ensures_at consistent _ consistent); [| exact H].
    unfold setAdaptiveMode. keeps_place.
  - apply (ensures_at consistent _ consistent); [| exact H].
    unfold updateConfig. keeps_place.
  - now apply (ensures_ignore consistent consistent);
      [apply getCurrentWord_consistent |].
  - now apply fire_consistent.
Qed.

Lemma boot_consistent (options : Options) : consistent (boot options).
Proof.
  unfold consistent, cursorOf, skipCountOf, wordCountOf. cbn.
  split; [reflexivity |]. split; [intros i token c Hi; discriminate |].
  unfold CE.len. cbn. lia.
Qed.

Lemma run_consistent (es : list (Command * Z)) :
  forall m, consistent m -> consistent (run es m).
Proof.
  induction es as [| [c now] es IH]; intros m H; [exact H |].
  cbn [run fold_left]. apply IH. now apply step_consistent.
Qed.

End Cursor.


Section CurrentWord.

Import SpeedReader.

#[local] Arguments CE.analyzeToken : simpl never.
#[local] Arguments calculateORP : simpl never.

(** At a cursor inside the text [getCurrentWord] returns the word at the
    cursor; at the end of the text it returns [null]. *)
Lemma getCurrentWord_returns (m : Machine) :
  0 <= cursorOf m ->
  match currentWordOf m with
  | Ok (Some w) =>
      cursorOf m < wordCountOf m
      /\ words (reader m) !! Z.to_nat (cursorOf m) = Some (word w)
      /\ index w = cursorOf m
      /\ total w = wordCountOf m
  | Ok None => wordCountOf m <= cursorOf m
  | TypeError => False
  end.
Proof.
  intros Hcursor. unfold currentWordOf, getCurrentWord, cursorOf, wordCountOf in *.
  unfold mbind, M_bind, mret, M_ret, this, modify, notify, throw.
  cbn [fst snd reader].
  destruct (currentIndex (reader m) >=? CE.len (words (reader m))) eqn:Eend;
    [cbn; lia |].
  destruct (at_ (words (reader m)) (currentIndex (reader m))) as [w |] eqn:Ew.
  - apply at_Some in Ew as [Hrange Hw].
    destruct (adaptiveMode (config (reader m)));
      [destruct (CE.analyzeToken _ _) as [a ce] |];
      (destruct (CE.collocation _) as [c |];
       [destruct (skipCount (reader m) =? 0) |]);
      cbn; repeat split; try assumption; lia.
  - exfalso. unfold at_ in Ew.
    destruct (Z.ltb_spec (currentIndex (reader m)) 0) as [Hneg | Hpos]; [lia |].
    rewrite nth_error_lookup in Ew. apply lookup_ge_None in Ew.
    unfold CE.len in Eend. lia.
Qed.

End CurrentWord.



Section NoWords.

Import SpeedReader.

Lemma getCurrentWord_below_zero (m : Machine) :
  cursorOf m = -1 -> getCurrentWord m = (TypeError, m).
Proof.
  unfold cursorOf, getCurrentWord. intros Hc.
  unfold mbind, M_bind, this, throw. cbn [fst snd]. rewrite Hc.
  assert ((-1 >=? CE.len (words (reader m))) = false) as ->
    by (rewrite Z.geb_leb; apply Z.leb_gt; unfold CE.len; lia).
  reflexivity.
Qed.

Lemma showCurrent_below_zero (m : Machine) :
  cursorOf m = -1 -> showCurrent m = (TypeError, m).
Proof.
  intros Hc. unfold showCurrent, mbind, M_bind.
  now rewrite getCurrentWord_below_zero.
Qed.

Lemma pause_place (now : Z) (m : Machine) :
  exists b, fst (pause now m) = Ok b
            /\ words (reader (exec (pause now) m)) = words (reader m).
Proof.
  destruct (returns_pause now m) as [b Hb]. exists b. split; [exact Hb |].
  pose proof (keeps_place_pause now m) as H.
  unfold placeOf in H. congruence.
Qed.

Lemma run_bind {A B} (c : M A) (k : A -> M B) (m : Machine) :
  (c ≫= k) m =
    match c m with
    | (Ok a, m') => k a m'
    | (TypeError, m') => (TypeError, m')
    end.
Proof. reflexivity. Qed.

Lemma pause_if_playing (now : Z) (m : Machine) :
  exists m1,
    when (isPlaying (reader m)) (pause now;; mret tt) m = (Ok tt, m1)
    /\ words (reader m1) = words (reader m).
Proof.
  destruct (isPlaying (reader m)); cbn [when]; [| now exists m].
  destruct (pause_place now m) as (b & Hb & Hw).
  rewrite run_bind. unfold exec in Hw.
  destruct (pause now m) as [[b' |] m1]; [| discriminate].
  now exists m1.
Qed.

(** [goToWord] on an engine with no words. *)
Lemma goToWord_without_words (index now : Z) (m : Machine) :
  words (reader m) = [] ->
  exists m', goToWord index now m = (TypeError, m') /\ cursorOf m' = -1.
Proof.
  intros Hw. unfold goToWord. rewrite run_bind. cbn [this]. cbv zeta.
  rewrite Hw.
  assert (Htarget : (if (if index <? 0 then 0 else index) >=? CE.len (@nil jsstring)
                     then CE.len (@nil jsstring) - 1
                     else if index <? 0 then 0 else index) = -1).
  { change (CE.len (@nil jsstring)) with 0.
    destruct (index <? 0) eqn:E1; destruct (_ >=? 0) eqn:E2; lia. }
  rewrite Htarget.
  destruct (pause_if_playing now m) as (m1 & Hm1 & _).
  rewrite run_bind, Hm1, run_bind. cbn [modify].
  rewrite run_bind, showCurrent_below_zero by reflexivity.
  eexists. split; reflexivity.
Qed.

End NoWords.



(** *** A text without words *)

Section EmptyText.

Import SpeedReader.

Lemma wordsOf_allSpaces (text : jsstring) : allSpaces text -> wordsOf text = [].
Proof.
  rewrite wordsOf_aux. induction 1 as [| c r Hc _ IH]; [reflexivity |].
  cbn. now rewrite Hc, IH.
Qed.

Lemma tokens_without_words (text : jsstring) :
  wordsOf text = [] -> CE.preprocessText text = [].
Proof.
  intros Hw. pose proof (preprocessText_words text) as H. rewrite Hw in H.
  now destruct (CE.preprocessText text).
Qed.

Lemma play_without_words (now : Z) (m : Machine) :
  words (reader m) = [] -> play now m = (Ok false, m).
Proof.
  intros Hw. unfold play. rewrite run_bind. cbn [this]. now rewrite Hw.
Qed.

End EmptyText.

(** X12.  A text of white space only, the empty text included, loads as no
    words and no tokens, and [load] returns 0 without an exception.  On the
    engine so loaded [play] returns false and changes nothing, and
    [getCurrentWord] returns [null]. *)
Theorem blank_text_loads_no_words (text : jsstring) (now later : Z)
  (m : SpeedReader.Machine) :
  allSpaces text ->
  fst (SpeedReader.load text now m) = SpeedReader.Ok 0
  /\ SpeedReader.words (SpeedReader.reader (afterLoad text now m)) = []
  /\ SpeedReader.tokens (SpeedReader.reader (afterLoad text now m)) = []
  /\ SpeedReader.play later (afterLoad text now m)
     = (SpeedReader.Ok false, afterLoad text now m)
  /\ currentWordOf (afterLoad text now m) = SpeedReader.Ok None.
Proof.
  intros Hblank. pose proof (wordsOf_allSpaces text Hblank) as Hnone.
  pose proof (load_aligns_words text now m) as (Hw & Ht).
  rewrite parseText_words, Hnone in Hw.
  rewrite (tokens_without_words text Hnone) in Ht.
  split; [| split; [exact Hw | split; [exact Ht | split]]].
  - unfold SpeedReader.load, SpeedReader.cancelPending.
    unfold mbind, SpeedReader.M_bind, mret, SpeedReader.M_ret, SpeedReader.this,
      SpeedReader.modify, SpeedReader.notify, SpeedReader.clearTimeout.
    cbn [fst snd SpeedReader.reader].
    destruct (SpeedReader.timeoutId _); cbn;
      now rewrite parseText_words, Hnone.
  - now apply play_without_words.
  - assert (Hc : cursorOf (afterLoad text now m) = 0).
    { unfold afterLoad, SpeedReader.load, SpeedReader.cancelPending, cursorOf,
        SpeedReader.exec.
      unfold mbind, SpeedReader.M_bind, mret, SpeedReader.M_ret, SpeedReader.this,
        SpeedReader.modify, SpeedReader.notify, SpeedReader.clearTimeout.
      cbn [fst snd SpeedReader.reader].
      destruct (SpeedReader.timeoutId _); reflexivity. }
    unfold currentWordOf, SpeedReader.getCurrentWord, cursorOf in *.
    rewrite run_bind. cbn [SpeedReader.this]. now rewrite Hc, Hw.
Qed.

Lemma blank_text_loads_no_words_witness :
  fst (SpeedReader.load (str "    ") 1000 (loadedWith "one two"))
  = SpeedReader.Ok 0.
Proof.
  refine (proj1 (blank_text_loads_no_words (str "    ") 1000 2000
                   (loadedWith "one two") _)).
  repeat constructor.
Defined.

(** *** The comprehension score *)

(** X13.  The score of [assessComprehension] is never below 0.5, so its
    clamp at 0 and the test [score < 0.5] never act: a break is suggested
    exactly when the fatigue level is above 0.7.  A slowdown is suggested
    only when both frequent rewinds and fatigue are among the issues;
    frequent pauses alone never suggest one. *)
Theorem comprehension_score_at_least_half (ce : CE.t) :
  (0.5 <= CE.score (CE.assessComprehension ce)
   /\ CE.score (CE.assessComprehension ce) <= 1)%Q
  /\ CE.suggestBreak (CE.assessComprehension ce) = Qgtb (levelOf ce) 0.7
  /\ (CE.suggestSlowdown (CE.assessComprehension ce) = true ->
      In "frequent-rewinds"%string (CE.issues (CE.assessComprehension ce))
      /\ In "fatigue"%string (CE.issues (CE.assessComprehension ce))).
Proof.
  unfold CE.assessComprehension, levelOf.
  destruct (Qgtb (_ / _) 0.05); destruct (Qgtb (_ / _) 0.03);
    destruct (Qgtb (CE.fatigueLevel (CE.fatigue ce)) 0.5);
    cbn [CE.score CE.suggestBreak CE.suggestSlowdown CE.issues];
    (split; [split; vm_compute; discriminate |]);
    (split; [reflexivity |]);
    cbn; intros Hslow; try discriminate Hslow; tauto.
Qed.

Lemma comprehension_score_at_least_half_witness :
  In "fatigue"%string
    (CE.issues (CE.assessComprehension
       (CE.withComprehension
          {| CE.rewindCount := 9; CE.pauseCount := 0;
             CE.hesitationEvents := []; CE.avgPauseDuration := 0 |}
          (CE.withFatigue (CE.withLevel 0.6 CE.freshFatigue) CE.new)))).
Proof.
  refine (proj2 (proj2 (proj2 (comprehension_score_at_least_half _)) _)).
  vm_compute. reflexivity.
Defined.

(** *** Tags that are never given *)

Section Tags.

Lemma acronymFree_applyFactor (m : Q) (tag : string) (a : CE.Analysis) :
  tag <> "acronym"%string -> acronymFree a ->
  acronymFree (CE.applyFactor m tag a).
Proof.
  unfold acronymFree. cbn. intros Htag Ha Hin.
  apply in_app_or in Hin as [Hin | [Hin | []]]; [now apply Ha | congruence].
Qed.

Lemma acronymFree_same_tags (a a' : CE.Analysis) :
  CE.factors a' = CE.factors a -> acronymFree a -> acronymFree a'.
Proof. unfold acronymFree. now intros ->. Qed.

Lemma acronymFree_pushFactor (tag : string) (a : CE.Analysis) :
  tag <> "acronym"%string -> acronymFree a -> acronymFree (CE.pushFactor tag a).
Proof. apply (acronymFree_applyFactor 1 tag a). Qed.

Lemma acronymFree_kept : keptByFactors acronymFree.
Proof.
  split; [exact acronymFree_applyFactor | intros o a H; exact H].
Qed.

Ltac free_step :=
  repeat match goal with
         | H : acronymFree ?a |- acronymFree ?a => exact H
         | |- acronymFree (if ?b then _ else _) => destruct b
         | |- acronymFree (CE.pushFactor _ _) =>
             apply acronymFree_pushFactor; [discriminate |]
         | |- acronymFree (CE.scale _ ?a) =>
             apply (acronymFree_same_tags a); [reflexivity |]
         end.

Lemma modeStep_free (ce : CE.t) (a : CE.Analysis) :
  acronymFree a -> acronymFree (CE.modeStep ce a).
Proof. intros H. unfold CE.modeStep. cbv zeta. free_step. Qed.

Lemma fatigueStep_free (ce : CE.t) (a : CE.Analysis) :
  acronymFree a -> acronymFree (CE.fatigueStep ce a).
Proof. intros H. unfold CE.fatigueStep. cbv zeta. free_step. Qed.

Lemma analyzeToken_acronymFree (token : CE.Token) (ce : CE.t) :
  acronymFree (fst (CE.analyzeToken token ce)).
Proof.
  rewrite analyzeToken_steps. cbn [fst]. unfold CE.clampStep.
  apply (acronymFree_same_tags
           (CE.fatigueStep (snd (beforeMode token ce))
              (CE.modeStep (snd (beforeMode token ce))
                 (fst (beforeMode token ce)))));
    [reflexivity |].
  apply fatigueStep_free, modeStep_free, beforeMode_keeps;
    [apply acronymFree_kept | intros []].
Qed.

End Tags.

(** X14.  [analyzeToken] never gives the acronym tag, and so never applies
    the premium for capitals: it tests the word for capital letters after it
    has put the word in lower case. *)
Theorem acronym_tag_is_never_given (token : CE.Token) (ce : CE.t) :
  ~ In "acronym"%string (tagsOf token ce)
  /\ CE.acronymPattern (CE.cleanWord (CE.word token)) = false.
Proof.
  split; [apply analyzeToken_acronymFree | apply acronymPattern_cleanWord].
Qed.

(** *** The multiplier under the modes of the table *)

(** X15.  Under one of the four modes of the [modes] table, whatever the
    token, the session memory and the fatigue level, the multiplier of the
    analysis that [analyzeToken] returns is a finite number between 0.5
    and 3.5. *)
Theorem multiplier_in_range_under_table_modes (token : CE.Token) (ce : CE.t)
  (mode : CE.Mode) :
  CE.currentMode ce = CE.own mode ->
  nle (Num 0.5) (CE.multiplier (fst (CE.analyzeToken token ce)))
  /\ nle (CE.multiplier (fst (CE.analyzeToken token ce))) (Num 3.5).
Proof. apply analyzeToken_multiplier_in_range. Qed.

Lemma multiplier_in_range_under_table_modes_witness :
  let a := fst (CE.analyzeToken
                  (SpeedReader.bareToken (str "extraordinarily") 0)
                  (inMode "proofread")) in
  nle (Num 0.5) (CE.multiplier a) /\ nle (CE.multiplier a) (Num 3.5).
Proof.
  cbv zeta.
  apply (multiplier_in_range_under_table_modes _ _ CE.proofread).
  reflexivity.
Defined.
